(** * Coral Spectrum: SelectableCollection and Masonry

    A shallow embedding of [SelectableCollection] (coral-collection) and of
    the selection, layout-scheduling and drag-reorder code of [Masonry]
    (coral-component-masonry), with the properties the specification states
    about them and further properties of the code.

    Conventions of the embedding.
    - A DOM node is a [nat] identity; the host keeps a store from identities
      to elements (attributes, classes, expando fields) and the ordered list
      of its child elements.  JavaScript arrays of elements are lists of
      identities, so two references to one element alias the same store
      entry.
    - A JavaScript number is an IEEE 754 binary64 value: [PrimFloat.float].
    - A call that raises in the browser (a DOM exception, a [TypeError])
      returns [None]. *)

From Stdlib Require Import Ascii PrimFloat FloatAxioms.
From stdpp Require Import gmap strings list.

Abbreviation NodeId := nat.

(** ** JavaScript values used as conditions *)

(** [a || b] on a possibly-null reference. *)
Definition or_else {A} (a b : option A) : option A :=
  match a with Some _ => a | None => b end.

(** [s || d] on strings: the empty string is falsy. *)
Definition str_or (s d : string) : string :=
  if decide (s = "") then d else s.

(** ** The DOM of the host element *)

Record Pos := mkPos { left : float; top : float }.

Record Element := mkElement {
  tagName : string;
  attributes : gset string;
  classList : gset string;
  _oldBefore : option NodeId;
  _dropPlaceholder : option NodeId;
  _prevDragPos : option Pos
}.

Record Dom := mkDom {
  nodes : gmap nat Element;
  children : list nat
}.

Definition with_attributes (f : gset string → gset string) (e : Element) : Element :=
  mkElement (tagName e) (f (attributes e)) (classList e)
            (_oldBefore e) (_dropPlaceholder e) (_prevDragPos e).

Definition hasAttribute (d : Dom) (id : NodeId) (a : string) : bool :=
  match nodes d !! id with
  | Some e => bool_decide (a ∈ attributes e)
  | None => false
  end.

Definition removeAttribute (d : Dom) (id : NodeId) (a : string) : Dom :=
  mkDom (alter (with_attributes (λ s, s ∖ {[a]})) id (nodes d)) (children d).

Definition setAttribute (d : Dom) (id : NodeId) (a : string) : Dom :=
  mkDom (alter (with_attributes (λ s, {[a]} ∪ s)) id (nodes d)) (children d).

(** ** CSS selectors

    The collection builds its selectors by string manipulation: it splits
    the item selector at commas, appends [[selected]] or [:not([disabled])]
    to every part and later replaces the first occurrence of the text
    [[selected]].  A selector is kept as the list of its comma-separated
    parts, each a sequence of simple selectors; [Opaque] stands for any
    piece of selector text that does not contain [[selected]]. *)

Inductive Simple :=
| Opaque (p : Element → bool)
| HasAttr (a : string)
| NotAttr (a : string).

Abbreviation Compound := (list Simple).
Abbreviation Selector := (list (list Simple)).

Definition simple_matches (e : Element) (s : Simple) : bool :=
  match s with
  | Opaque p => p e
  | HasAttr a => bool_decide (a ∈ attributes e)
  | NotAttr a => negb (bool_decide (a ∈ attributes e))
  end.

Definition selector_matches (sel : Selector) (e : Element) : bool :=
  existsb (forallb (simple_matches e)) sel.

(** [el.matches(sel)] *)
Definition matches (d : Dom) (sel : Selector) (id : NodeId) : bool :=
  match nodes d !! id with
  | Some e => selector_matches sel e
  | None => false
  end.

(** [host.querySelectorAll(sel)]: a static list, in document order. *)
Definition querySelectorAll (d : Dom) (sel : Selector) : list nat :=
  filter (λ id, matches d sel id = true) (children d).

(** [sel.replace('[selected]', `[${a}]`)]: a string pattern replaces the
    first occurrence only. *)
Fixpoint replace_in_compound (a : string) (c : Compound) : option Compound :=
  match c with
  | [] => None
  | HasAttr b :: r =>
      if decide (b = "selected") then Some (HasAttr a :: r)
      else cons (HasAttr b) <$> replace_in_compound a r
  | NotAttr b :: r =>
      if decide (b = "selected") then Some (NotAttr a :: r)
      else cons (NotAttr b) <$> replace_in_compound a r
  | s :: r => cons s <$> replace_in_compound a r
  end.

Fixpoint replace_selected (a : string) (sel : Selector) : Selector :=
  match sel with
  | [] => []
  | c :: r =>
      match replace_in_compound a c with
      | Some c' => c' :: r
      | None => c :: replace_selected a r
      end
  end.

(** ** SelectableCollection *)

Module SelectableCollection.

Record t := mk {
  _allItemsSelector : Selector;
  _selectableItemSelector : Selector;
  _selectedItemSelector : Selector;
  _deselectAllExceptSelector : Selector
}.

(** The constructor, given the item selector the base collection keeps. *)
Definition constructor (allItems : Selector) : t :=
  let selected := map (λ selector, selector ++ [HasAttr "selected"]) allItems in
  mk allItems
     (* disabled items will not be a selection candidate *)
     (map (λ selector, selector ++ [NotAttr "disabled"]) allItems)
     selected
     selected.

Definition _getSelectableItems (c : t) (d : Dom) : list nat :=
  querySelectorAll d (_selectableItemSelector c).

(** The elements [item.previousElementSibling],
    [item.previousElementSibling.previousElementSibling], ... in the order
    the loop visits them; likewise for [nextElementSibling].  An element
    that is not a child of the host has no sibling here. *)
Definition previousElementSiblings (d : Dom) (item : NodeId) : list nat :=
  match list_find (λ x, x = item) (children d) with
  | Some (i, _) => reverse (take i (children d))
  | None => []
  end.

Definition nextElementSiblings (d : Dom) (item : NodeId) : list nat :=
  match list_find (λ x, x = item) (children d) with
  | Some (i, _) => drop (S i) (children d)
  | None => []
  end.

(** [while (sibling) { if (sibling.matches(sel)) break; else sibling = next }]
    over the chain of siblings still to visit. *)
Fixpoint while_sibling (c : t) (d : Dom) (siblings : list nat) : option nat :=
  match siblings with
  | [] => None
  | sibling :: rest =>
      if matches d (_selectableItemSelector c) sibling then Some sibling
      else while_sibling c d rest
  end.

Definition _getPreviousSelectable (c : t) (d : Dom) (item : NodeId) : option nat :=
  or_else (while_sibling c d (previousElementSiblings d item)) (Some item).

Definition _getNextSelectable (c : t) (d : Dom) (item : NodeId) : option nat :=
  or_else (while_sibling c d (nextElementSiblings d item)) (Some item).

(** The selector the selection queries use for a given marker attribute. *)
Definition selected_selector (c : t) (selectedAttribute : option string) : Selector :=
  match selectedAttribute with
  | Some a => replace_selected a (_selectedItemSelector c)
  | None => _selectedItemSelector c
  end.

Definition _getFirstSelected (c : t) (d : Dom) (selectedAttribute : option string)
  : option nat :=
  head (querySelectorAll d (selected_selector c selectedAttribute)).

Definition _getLastSelected (c : t) (d : Dom) (selectedAttribute : option string)
  : option nat :=
  last (querySelectorAll d (selected_selector c selectedAttribute)).

Definition _getAllSelected (c : t) (d : Dom) (selectedAttribute : option string)
  : list nat :=
  querySelectorAll d (selected_selector c selectedAttribute).

(** The first argument of [_deselectAllExcept]: absent, a marker name, or
    the element to keep. *)
Inductive ItemOrAttribute :=
| Absent
| Str (s : string)
| Elem (item : NodeId).

(** The three locals the function computes before it queries. *)
Definition deselect_locals (c : t) (itemOrSelectedAttribute : ItemOrAttribute)
    (selectedAttribute : option string) : option nat * string * Selector :=
  let selector := _deselectAllExceptSelector c in
  match itemOrSelectedAttribute with
  | Str s =>
      let attributeToRemove := str_or s "selected" in
      (None, attributeToRemove, replace_selected attributeToRemove selector)
  | other =>
      let item := match other with Elem i => Some i | _ => None end in
      let attributeToRemove :=
        match selectedAttribute with
        | Some a => str_or a "selected"
        | None => "selected"
        end in
      (item, attributeToRemove,
       match selectedAttribute with
       | Some _ => replace_selected attributeToRemove selector
       | None => selector
       end)
  end.

Definition _deselectAllExcept (c : t) (d : Dom)
    (itemOrSelectedAttribute : ItemOrAttribute) (selectedAttribute : option string) : Dom :=
  let '(item, attributeToRemove, selector) :=
    deselect_locals c itemOrSelectedAttribute selectedAttribute in
  let items := querySelectorAll d selector in
  foldl (λ d i, if decide (item = Some i) then d
                else removeAttribute d i attributeToRemove) d items.

(** [this._host.querySelector(sel) || null] is the first element of
    [querySelectorAll(sel)], and [items[items.length - 1] || null] the last. *)
Definition _getFirstSelectable (c : t) (d : Dom) : option nat :=
  head (querySelectorAll d (_selectableItemSelector c)).

Definition _getLastSelectable (c : t) (d : Dom) : option nat :=
  last (querySelectorAll d (_selectableItemSelector c)).

(** The selector [_deselectAllExceptFirst] and [_deselectAllExceptLast]
    query.  They write the marker into the selector as it was given, not
    the name they remove: for the empty string the text is [[]], which is
    not a selector, and [querySelectorAll] raises a [SyntaxError].  (A
    marker is an attribute name or the empty string.) *)
Definition deselect_selector (c : t) (selectedAttribute : option string) : option Selector :=
  match selectedAttribute with
  | Some a =>
      if decide (a = "") then None
      else Some (replace_selected a (_deselectAllExceptSelector c))
  | None => Some (_deselectAllExceptSelector c)
  end.

(** [selectedAttribute || 'selected'] *)
Definition attributeToRemove (selectedAttribute : option string) : string :=
  match selectedAttribute with
  | Some a => str_or a "selected"
  | None => "selected"
  end.

Definition _deselectAllExceptFirst (c : t) (d : Dom) (selectedAttribute : option string)
  : option Dom :=
  selector ← deselect_selector c selectedAttribute;
  let items := querySelectorAll d selector in
  (* ignores the first item of the list, everything else is deselected *)
  Some (foldl (λ d item, removeAttribute d item (attributeToRemove selectedAttribute))
              d (drop 1 items)).

Definition _deselectAllExceptLast (c : t) (d : Dom) (selectedAttribute : option string)
  : option Dom :=
  selector ← deselect_selector c selectedAttribute;
  let items := querySelectorAll d selector in
  (* we ignore the last item *)
  let itemsCount := length items - 1 in
  Some (foldl (λ d item, removeAttribute d item (attributeToRemove selectedAttribute))
              d (take itemsCount items)).

End SelectableCollection.

(** ** Masonry *)

Module Masonry.

Inductive SelectionMode := NONE | SINGLE | MULTIPLE.

(** The payload of a [coral-masonry:change] field: one item or [null], or
    an array of items. *)
Inductive Payload :=
| Scalar (item : option nat)
| Items (items : list nat).

Inductive Event :=
| change (oldSelection selection : Payload)
| order (item : nat) (oldBefore before : option nat).

(** Modelled from the spec: the layout classes are not part of the sources.
    A strategy instance carries the name it was registered under and the
    items [detach] has taken out of its flow until [reattach]. *)
Record LayoutInstance := mkLayout {
  name : string;
  detached : list nat
}.

(** The closure [_scheduleLayout] hands to [requestAnimationFrame]. *)
Inductive FrameCallback := LayoutFrame.

Record t := mk {
  tree : Dom;
  (* selection *)
  _selectionMode : option SelectionMode;
  _preventTriggeringEvents : bool;
  _oldSelection : list nat;
  (* what [trigger] dispatched and [commons._log] printed, oldest first *)
  triggered : list Event;
  logged : list (string * option string);
  (* layout *)
  __layouts : list string;
  _layout : option string;
  _layoutInstance : option LayoutInstance;
  _layoutScheduled : bool;
  _forceDebounce : bool;
  _layouted : bool;
  _newItems : list nat;
  (* the environment: [!!this.offsetParent], the callbacks waiting for the
     next animation frame, and the number of calls of a strategy's [layout()] *)
  offsetParent : bool;
  frameCallbacks : list FrameCallback;
  layoutPasses : nat
}.

Definition with_tree (v : Dom) (s : t) : t :=
  mk v (_selectionMode s) (_preventTriggeringEvents s) (_oldSelection s) (triggered s)
     (logged s) (__layouts s) (_layout s) (_layoutInstance s) (_layoutScheduled s)
     (_forceDebounce s) (_layouted s) (_newItems s) (offsetParent s) (frameCallbacks s)
     (layoutPasses s).

Definition with_selectionMode (v : option SelectionMode) (s : t) : t :=
  mk (tree s) v (_preventTriggeringEvents s) (_oldSelection s) (triggered s)
     (logged s) (__layouts s) (_layout s) (_layoutInstance s) (_layoutScheduled s)
     (_forceDebounce s) (_layouted s) (_newItems s) (offsetParent s) (frameCallbacks s)
     (layoutPasses s).

Definition with_preventTriggeringEvents (v : bool) (s : t) : t :=
  mk (tree s) (_selectionMode s) v (_oldSelection s) (triggered s)
     (logged s) (__layouts s) (_layout s) (_layoutInstance s) (_layoutScheduled s)
     (_forceDebounce s) (_layouted s) (_newItems s) (offsetParent s) (frameCallbacks s)
     (layoutPasses s).

Definition with_oldSelection (v : list nat) (s : t) : t :=
  mk (tree s) (_selectionMode s) (_preventTriggeringEvents s) v (triggered s)
     (logged s) (__layouts s) (_layout s) (_layoutInstance s) (_layoutScheduled s)
     (_forceDebounce s) (_layouted s) (_newItems s) (offsetParent s) (frameCallbacks s)
     (layoutPasses s).

Definition with_triggered (v : list Event) (s : t) : t :=
  mk (tree s) (_selectionMode s) (_preventTriggeringEvents s) (_oldSelection s) v
     (logged s) (__layouts s) (_layout s) (_layoutInstance s) (_layoutScheduled s)
     (_forceDebounce s) (_layouted s) (_newItems s) (offsetParent s) (frameCallbacks s)
     (layoutPasses s).

Definition with_logged (v : list (string * option string)) (s : t) : t :=
  mk (tree s) (_selectionMode s) (_preventTriggeringEvents s) (_oldSelection s) (triggered s)
     v (__layouts s) (_layout s) (_layoutInstance s) (_layoutScheduled s)
     (_forceDebounce s) (_layouted s) (_newItems s) (offsetParent s) (frameCallbacks s)
     (layoutPasses s).

Definition with_layouts (v : list string) (s : t) : t :=
  mk (tree s) (_selectionMode s) (_preventTriggeringEvents s) (_oldSelection s) (triggered s)
     (logged s) v (_layout s) (_layoutInstance s) (_layoutScheduled s)
     (_forceDebounce s) (_layouted s) (_newItems s) (offsetParent s) (frameCallbacks s)
     (layoutPasses s).

Definition with_layout (v : option string) (s : t) : t :=
  mk (tree s) (_selectionMode s) (_preventTriggeringEvents s) (_oldSelection s) (triggered s)
     (logged s) (__layouts s) v (_layoutInstance s) (_layoutScheduled s)
     (_forceDebounce s) (_layouted s) (_newItems s) (offsetParent s) (frameCallbacks s)
     (layoutPasses s).

Definition with_layoutInstance (v : option LayoutInstance) (s : t) : t :=
  mk (tree s) (_selectionMode s) (_preventTriggeringEvents s) (_oldSelection s) (triggered s)
     (logged s) (__layouts s) (_layout s) v (_layoutScheduled s)
     (_forceDebounce s) (_layouted s) (_newItems s) (offsetParent s) (frameCallbacks s)
     (layoutPasses s).

Definition with_layoutScheduled (v : bool) (s : t) : t :=
  mk (tree s) (_selectionMode s) (_preventTriggeringEvents s) (_oldSelection s) (triggered s)
     (logged s) (__layouts s) (_layout s) (_layoutInstance s) v
     (_forceDebounce s) (_layouted s) (_newItems s) (offsetParent s) (frameCallbacks s)
     (layoutPasses s).

Definition with_forceDebounce (v : bool) (s : t) : t :=
  mk (tree s) (_selectionMode s) (_preventTriggeringEvents s) (_oldSelection s) (triggered s)
     (logged s) (__layouts s) (_layout s) (_layoutInstance s) (_layoutScheduled s)
     v (_layouted s) (_newItems s) (offsetParent s) (frameCallbacks s)
     (layoutPasses s).

Definition with_layouted (v : bool) (s : t) : t :=
  mk (tree s) (_selectionMode s) (_preventTriggeringEvents s) (_oldSelection s) (triggered s)
     (logged s) (__layouts s) (_layout s) (_layoutInstance s) (_layoutScheduled s)
     (_forceDebounce s) v (_newItems s) (offsetParent s) (frameCallbacks s)
     (layoutPasses s).

Definition with_newItems (v : list nat) (s : t) : t :=
  mk (tree s) (_selectionMode s) (_preventTriggeringEvents s) (_oldSelection s) (triggered s)
     (logged s) (__layouts s) (_layout s) (_layoutInstance s) (_layoutScheduled s)
     (_forceDebounce s) (_layouted s) v (offsetParent s) (frameCallbacks s)
     (layoutPasses s).

Definition with_frameCallbacks (v : list FrameCallback) (s : t) : t :=
  mk (tree s) (_selectionMode s) (_preventTriggeringEvents s) (_oldSelection s) (triggered s)
     (logged s) (__layouts s) (_layout s) (_layoutInstance s) (_layoutScheduled s)
     (_forceDebounce s) (_layouted s) (_newItems s) (offsetParent s) v
     (layoutPasses s).

Definition with_layoutPasses (v : nat) (s : t) : t :=
  mk (tree s) (_selectionMode s) (_preventTriggeringEvents s) (_oldSelection s) (triggered s)
     (logged s) (__layouts s) (_layout s) (_layoutInstance s) (_layoutScheduled s)
     (_forceDebounce s) (_layouted s) (_newItems s) (offsetParent s) (frameCallbacks s)
     v.

(** *** Selection *)

(** [this.items]: the collection over
    [:scope > coral-masonry-item:not([_removing]):not([_placeholder])].
    [children] lists the children of the host, so [:scope >] holds of every
    element the query visits. *)
Definition items : SelectableCollection.t :=
  SelectableCollection.constructor
    [[Opaque (λ e, bool_decide (tagName e = "CORAL-MASONRY-ITEM"));
      NotAttr "_removing"; NotAttr "_placeholder"]].

Definition selectionMode (s : t) : SelectionMode :=
  default NONE (_selectionMode s).

Definition selectedItem (s : t) : option nat :=
  SelectableCollection._getFirstSelected items (tree s) None.

Definition selectedItems (s : t) : list nat :=
  SelectableCollection._getAllSelected items (tree s) None.

Definition _arraysAreDifferent (selection oldSelection : list nat) : bool :=
  let diff :=
    if decide (length oldSelection = length selection)
    then filter (λ item, item ∉ selection) oldSelection
    else [] in
  negb (bool_decide (length oldSelection = length selection))
  || negb (bool_decide (length diff = 0)).

Definition _triggerChangeEvent (s : t) : t :=
  let selectedItems := selectedItems s in
  let oldSelection := _oldSelection s in
  if negb (_preventTriggeringEvents s) && _arraysAreDifferent selectedItems oldSelection
  then
    let detail :=
      match selectionMode s with
      | MULTIPLE => change (Items oldSelection) (Items selectedItems)
      | _ =>
          change (if decide (1 < length oldSelection) then Items oldSelection
                  else Scalar (head oldSelection))
                 (Scalar (head selectedItems))
      end in
    with_oldSelection selectedItems (with_triggered (triggered s ++ [detail]) s)
  else s.

(** One round of the [forEach] callbacks that clear a selected item. *)
Definition clear_selected (s : t) (selectedItem : nat) : t :=
  (* Don't trigger change events *)
  let s := with_preventTriggeringEvents true s in
  with_tree (removeAttribute (tree s) selectedItem "selected") s.

(** The first half of [_validateSelection]: what each mode does to the
    selection before the change event is considered.  An item tells the
    host of each change of its [selected] attribute, so every clear below
    makes the validator run again from inside the loop; such a nested run
    finds [_preventTriggeringEvents] set, dispatches nothing and clears at
    most what the loop is about to clear, and is not spelled out. *)
Definition normalize_selection (item : option nat) (s : t) : t :=
  let selectedItems := selectedItems s in
  match selectionMode s with
  | NONE => foldl clear_selected s selectedItems
  | SINGLE =>
      (* Last selected item wins if multiple selection while not allowed *)
      let item := or_else item (last selectedItems) in
      match item with
      | Some item =>
          if hasAttribute (tree s) item "selected"
             && bool_decide (1 < length selectedItems)
          then
            let s :=
              foldl (λ s selectedItem,
                       if decide (selectedItem ≠ item) then clear_selected s selectedItem
                       else s) s selectedItems in
            (* We can trigger change events again *)
            with_preventTriggeringEvents false s
          else s
      | None => s
      end
  | MULTIPLE => s
  end.

Definition _validateSelection (item : option nat) (s : t) : t :=
  _triggerChangeEvent (normalize_selection item s).

Definition _onItemSelectedChanged (target : nat) (s : t) : t :=
  _validateSelection (Some target) s.

Definition toLowerCase_ascii (c : ascii) : ascii :=
  let n := nat_of_ascii c in
  if (65 <=? n)%nat && (n <=? 90)%nat then ascii_of_nat (n + 32) else c.

Fixpoint toLowerCase (s : string) : string :=
  match s with
  | EmptyString => EmptyString
  | String c r => String (toLowerCase_ascii c) (toLowerCase r)
  end.

(** [validate.enumeration(selectionMode)(value) && value || selectionMode.NONE],
    for a value that does not name a property every object inherits: the
    check looks the value up in an object, so that it lets such a name
    ([constructor], [__proto__], ...) pass, and the name is then kept as
    the mode, which is none of the three modes. *)
Definition enumeration (value : string) : SelectionMode :=
  if decide (value = "single") then SINGLE
  else if decide (value = "multiple") then MULTIPLE
  else NONE.

(** The [selectionMode] setter, on a string.  The class and ARIA attribute
    it puts on the host are not read by any code here and are left out. *)
Definition set_selectionMode (value : string) (s : t) : t :=
  let value := toLowerCase value in
  let s := with_selectionMode (Some (enumeration value)) s in
  _validateSelection None s.

(** [item[item.hasAttribute('selected') ? 'removeAttribute' : 'setAttribute']('selected', '')] *)
Definition toggle_selected (item : nat) (s : t) : t :=
  with_tree (if hasAttribute (tree s) item "selected"
            then removeAttribute (tree s) item "selected"
            else setAttribute (tree s) item "selected") s.

(** Modelled from the spec: the item element is not part of the sources; it
    reports a change of its [selected] attribute to the host with
    [coral-masonry-item:_selectedchanged], which the host handles in
    [_onItemSelectedChanged]. *)
Definition toggle (item : nat) (s : t) : t :=
  _onItemSelectedChanged item (toggle_selected item s).

Definition _onItemClick (matchedTarget : nat) (s : t) : t :=
  match selectionMode s with
  | NONE => s
  | _ => toggle matchedTarget s
  end.

(** *** The layout registry *)

(** [Masonry._layouts] is an object literal used as a map from names to
    layout classes: [__layouts] lists its own keys in the order
    [Object.keys] gives them, which is the order of insertion but for the
    keys that are array indices: those come first, in ascending order.  A
    property read on it also finds what every object inherits from
    [Object.prototype]; those values are functions (or, for [__proto__], the
    prototype itself), which are truthy. *)
Definition Object_prototype : list string :=
  ["constructor"; "__defineGetter__"; "__defineSetter__"; "hasOwnProperty";
   "__lookupGetter__"; "__lookupSetter__"; "isPrototypeOf";
   "propertyIsEnumerable"; "toString"; "valueOf"; "__proto__"; "toLocaleString"].

Inductive Property :=
| Own (Layout : string)
| Inherited
| Undefined.

(** [layoutEnum[key]] *)
Definition get_property (layoutEnum : list string) (key : string) : Property :=
  if decide (key ∈ layoutEnum) then Own key
  else if decide (key ∈ Object_prototype) then Inherited
  else Undefined.

Definition truthy (p : Property) : bool :=
  match p with Undefined => false | _ => true end.

(** A property key made of a value that may be [undefined]. *)
Definition to_key (value : option string) : string :=
  default "undefined" value.

(** An array index: the decimal numeral, without a leading zero, of an
    integer from 0 to 2^32 - 2. *)
Definition digit (c : ascii) : option N :=
  let n := N_of_ascii c in
  if (48 <=? n)%N && (n <=? 57)%N then Some (n - 48)%N else None.

Fixpoint numeral (key : string) (acc : N) : option N :=
  match key with
  | EmptyString => Some acc
  | String c r => d ← digit c; numeral r (10 * acc + d)%N
  end.

Definition array_index (key : string) : option N :=
  match key with
  | EmptyString => None
  | String c r =>
      if decide (c = "0"%char ∧ r ≠ EmptyString) then None
      else n ← numeral key 0; if (n <=? 4294967294)%N then Some n else None
  end.

(** The own keys after a new array index [n], written [name], has become
    one of them. *)
Fixpoint insert_index (name : string) (n : N) (keys : list string) : list string :=
  match keys with
  | [] => [name]
  | key :: r =>
      match array_index key with
      | Some m => if (m <? n)%N then key :: insert_index name n r else name :: key :: r
      | None => name :: key :: r
      end
  end.

(** What [registerLayout] leaves of the registry: the plain object with the
    name among its own keys, or an object whose prototype was replaced. *)
Inductive Registration :=
| Registered (s : t)
| PrototypeReplaced.

(** [Masonry.registerLayout(name, Layout)], with the class named by [name]:
    the assignment [this._layouts[name] = Layout].  An assignment to the
    key [__proto__] adds no key: it makes the class the prototype of the
    registry, which [t] does not describe.  [Layout.defineName] is part of
    the layout classes and is left out. *)
Definition registerLayout (name : string) (s : t) : Registration :=
  if decide (name = "__proto__") then PrototypeReplaced
  else if decide (name ∈ __layouts s) then Registered s
  else
    match array_index name with
    | Some n => Registered (with_layouts (insert_index name n (__layouts s)) s)
    | None => Registered (with_layouts (__layouts s ++ [name]) s)
    end.

(** *** Scheduling and running a layout *)

Definition layout (s : t) : string :=
  match _layout s with
  | Some l => str_or l "fixed-centered"
  | None => "fixed-centered"
  end.

(** The body of [_doLayout], as far as the schedule, the strategy instance
    and the number of passes go.  What it does to the tabbable and the
    focused item, to the [is-loaded] class of the host and to the records
    of the mutation observer is left out, as is the [_insert()] of the new
    items; of the strategy's [layout()] only the call is kept, counted in
    [layoutPasses].  The classes and attributes of the items after a run
    are therefore not those of the browser. *)
Definition _doLayout (s : t) : option t :=
  let visible := offsetParent s in
  let LayoutClass := get_property (__layouts s) (layout s) in
  if _forceDebounce s || negb (truthy LayoutClass) || negb visible then Some s
  else
    match LayoutClass with
    | Own _ =>
        let fresh_instance := Some (mkLayout (layout s) []) in
        let s :=
          match _layoutInstance s with
          | None => with_layoutInstance fresh_instance s
          | Some i =>
              (* Check if the layout has changed *)
              if decide (name i ≠ layout s) then with_layoutInstance fresh_instance s
              else s
          end in
        (* Position the items *)
        let s := with_layoutPasses (S (layoutPasses s)) s in
        let s := with_layouted true s in
        (* Mark newly added items as managed *)
        let d :=
          foldl (λ d i,
                   mkDom (alter (λ e, mkElement (tagName e) (attributes e)
                                        ({["is-managed"]} ∪ classList e) (_oldBefore e)
                                        (_dropPlaceholder e) (_prevDragPos e)) i (nodes d))
                         (children d))
                (tree s) (_newItems s) in
        Some (with_newItems [] (with_tree d s))
    | _ =>
        (* an inherited property is not a layout class: constructing it, or
           calling [layout()] on what it constructs, raises a TypeError *)
        None
    end.

Definition _scheduleLayout (s : t) : t :=
  if negb (_forceDebounce s) && negb (_layoutScheduled s) then
    let s := with_frameCallbacks (frameCallbacks s ++ [LayoutFrame]) s in
    with_layoutScheduled true s
  else s.

(** The callback of [_scheduleLayout], run by the browser. *)
Definition run_callback (cb : FrameCallback) (s : t) : option t :=
  match cb with
  | LayoutFrame =>
      (* Skip layout if a layout was forced in between *)
      if _layoutScheduled s then
        s ← _doLayout s;
        Some (with_layoutScheduled false s)
      else Some s
  end.

(** The next animation frame: the browser takes the callbacks registered so
    far and runs them in order; a callback registered meanwhile waits for
    the frame after. *)
Definition animation_frame (s : t) : option t :=
  foldl (λ o cb, s ← o; run_callback cb s) (Some (with_frameCallbacks [] s))
        (frameCallbacks s).

(** [n] calls of [_scheduleLayout] in a row. *)
Fixpoint signals (n : nat) (s : t) : t :=
  match n with
  | O => s
  | S n => signals n (_scheduleLayout s)
  end.

(** The [layout] setter, on a string. The reflection of the name into the
    attribute of the host is left out. *)
Definition set_layout (value : string) (s : t) : t :=
  let layoutEnum := __layouts s in
  let value : option string :=
    if decide (value = "")
    then (* Default is first registered layout which is "fixed-centered" *)
         head layoutEnum
    else Some value in
  if decide (value ≠ _layout s) then
    if truthy (get_property layoutEnum (to_key value)) then
      let s := with_layout value s in
      _scheduleLayout s
    else
      with_logged (logged s ++ [("Coral.Masonry: Unknown layout:", value)]) s
  else s.

(** [connectedCallback], up to the recording of the selection; the resize
    listener and the frame callback that ends the attaching phase follow.
    First the default reflected attributes. *)
Definition connectedCallback_defaults (s : t) : t :=
  let s := if decide (_layout s = None ∨ _layout s = Some "")
           then set_layout "fixed-centered" s else s in
  match _selectionMode s with
  | None => set_selectionMode "none" s
  | Some _ => s
  end.

Definition connectedCallback (s : t) : t :=
  let s := connectedCallback_defaults s in
  (* Don't trigger events once connected *)
  let s := with_preventTriggeringEvents true s in
  let s := _validateSelection None s in
  let s := with_preventTriggeringEvents false s in
  with_oldSelection (selectedItems s) s.

(** What can happen to the selection of a connected masonry. *)
Inductive Op :=
| Toggle (item : nat)
| Click (item : nat)
| SetSelectionMode (value : string)
| Validate (item : option nat)
| Connect.

Definition step (s : t) (op : Op) : t :=
  match op with
  | Toggle item => toggle item s
  | Click item => _onItemClick item s
  | SetSelectionMode value => set_selectionMode value s
  | Validate item => _validateSelection item s
  | Connect => connectedCallback s
  end.

Definition run (s : t) (ops : list Op) : t := foldl step s ops.

(** *** Drag and drop *)

(** What the handlers read from the rendering surface while they run:
    [getBoundingClientRect()] of the host and of an element, the offset size
    of an element, and the hit test of the layout instance. *)
Record Geometry := mkGeometry {
  hostRect : Pos;
  rect : nat → Pos;
  offsetWidth : nat → float;
  offsetHeight : nat → float;
  itemAt : float → float → option nat
}.

Record DragEvent := mkDragEvent {
  target : nat;
  matchedTarget : nat
}.

(** Returns the position of the element relative to the host. *)
Definition relativePosition (g : Geometry) (el2 : nat) : Pos :=
  mkPos (PrimFloat.sub (left (rect g el2)) (left (hostRect g)))
        (PrimFloat.sub (top (rect g el2)) (top (hostRect g))).

(** [Math.pow(x, 2)] *)
Definition pow2 (x : float) : float := PrimFloat.mul x x.

Definition weightedDistance (x1 y1 x2 y2 unitWidth unitHeight : float) : float :=
  PrimFloat.sqrt
    (PrimFloat.add (pow2 (PrimFloat.div (PrimFloat.sub x2 x1) unitWidth))
                   (pow2 (PrimFloat.div (PrimFloat.sub y2 y1) unitHeight))).

(** The two distances [_isApproachingPlaceholder] compares: from the centre
    of the placeholder to the new and to the previous position. *)
Definition placeholder_distance (g : Geometry) (p : Pos) (placeholder : nat) : float :=
  let placeholderPos := relativePosition g placeholder in
  let placeholderWidth := offsetWidth g placeholder in
  let placeholderHeight := offsetHeight g placeholder in
  let placeholderX := PrimFloat.add (left placeholderPos) (PrimFloat.div placeholderWidth 2) in
  let placeholderY := PrimFloat.add (top placeholderPos) (PrimFloat.div placeholderHeight 2) in
  weightedDistance placeholderX placeholderY (left p) (top p)
                   placeholderWidth placeholderHeight.

Definition _isApproachingPlaceholder (g : Geometry) (pos prevPos : Pos) (placeholder : nat)
  : bool :=
  PrimFloat.leb (placeholder_distance g pos placeholder)
                (placeholder_distance g prevPos placeholder).

(** Expando fields of an element; an element unknown to the store reads as
    one that has none of them. *)
Definition field {A} (f : Element → option A) (d : Dom) (id : nat) : option A :=
  e ← nodes d !! id; f e.

Definition update (f : Element → Element) (d : Dom) (id : nat) : Dom :=
  mkDom (alter f id (nodes d)) (children d).

Definition set_oldBefore (v : option nat) (e : Element) : Element :=
  mkElement (tagName e) (attributes e) (classList e) v (_dropPlaceholder e) (_prevDragPos e).

Definition set_dropPlaceholder (v : option nat) (e : Element) : Element :=
  mkElement (tagName e) (attributes e) (classList e) (_oldBefore e) v (_prevDragPos e).

Definition set_prevDragPos (v : option Pos) (e : Element) : Element :=
  mkElement (tagName e) (attributes e) (classList e) (_oldBefore e) (_dropPlaceholder e) v.

Definition add_class (c : string) (e : Element) : Element :=
  mkElement (tagName e) (attributes e) ({[c]} ∪ classList e)
            (_oldBefore e) (_dropPlaceholder e) (_prevDragPos e).

(** Ignore children which are being removed *)
Definition itemFilter (d : Dom) (element : option nat) : bool :=
  match element with
  | Some id =>
      match nodes d !! id with
      | Some e => bool_decide (tagName e = "CORAL-MASONRY-ITEM")
                  && negb (bool_decide ("_removing" ∈ attributes e))
      | None => false
      end
  | None => false
  end.

Definition previousElementSibling (d : Dom) (item : nat) : option nat :=
  match list_find (λ x, x = item) (children d) with
  | Some (S i, _) => children d !! i
  | _ => None
  end.

Definition nextSibling (d : Dom) (item : nat) : option nat :=
  match list_find (λ x, x = item) (children d) with
  | Some (i, _) => children d !! S i
  | None => None
  end.

Definition getPreviousItem (d : Dom) (item : nat) : option nat :=
  let previousItem := previousElementSibling d item in
  if itemFilter d previousItem then previousItem else None.

(** The child list without [node]: a node that is inserted is first taken
    out of the place it has. *)
Definition remove_child (node : nat) (l : list nat) : list nat :=
  filter (λ y, y ≠ node) l.

Fixpoint insert_at (node ref : nat) (l : list nat) : list nat :=
  match l with
  | [] => [node]
  | y :: r => if decide (y = ref) then node :: y :: r else y :: insert_at node ref r
  end.

(** [this.insertBefore(node, ref)] on the child list of the host: appends
    for a [null] reference, raises [NotFoundError] for a reference that is
    not a child, and leaves a node that is its own reference where it is. *)
Definition insertBefore (node : nat) (ref : option nat) (l : list nat) : option (list nat) :=
  match ref with
  | None => Some (remove_child node l ++ [node])
  | Some r =>
      if decide (r ∈ l) then
        if decide (r = node) then Some l
        else Some (insert_at node r (remove_child node l))
      else None
  end.

(** [this.replaceChild(node, child)] *)
Definition replaceChild (node child : nat) (l : list nat) : option (list nat) :=
  if decide (child ∈ l) then
    if decide (node = child) then Some l
    else Some (map (λ y, if decide (y = child) then node else y) (remove_child node l))
  else None.

(** [a.compareDocumentPosition(b) & DOCUMENT_POSITION_PRECEDING] for two
    children of the host: [b] comes before [a]. *)
Definition preceding (l : list nat) (a b : nat) : bool :=
  match list_find (λ x, x = b) l, list_find (λ x, x = a) l with
  | Some (i, _), Some (j, _) => bool_decide (i < j)
  | _, _ => false
  end.

Definition with_children (l : list nat) (s : t) : t :=
  with_tree (mkDom (nodes (tree s)) l) s.

Definition with_element (f : Element → Element) (id : nat) (s : t) : t :=
  with_tree (update f (tree s) id) s.

(** [new MasonryItem()] for the placeholder: an element the store does not
    know yet. *)
Definition new_element (d : Dom) : nat := fresh (dom (nodes d)).

(** [_onItemDragStart].  The content [div] that gives the placeholder the
    size of the item is part of the rendering and is left out. *)
Definition _onItemDragStart (e : DragEvent) (s : t) : option t :=
  let item := target e in
  if decide (item = matchedTarget e) then
    i ← _layoutInstance s;
    let s := with_layoutInstance (Some (mkLayout (name i) (item :: detached i))) s in
    let s := with_element (set_oldBefore (getPreviousItem (tree s) item)) item s in
    let placeholder := new_element (tree s) in
    let s := with_element (set_dropPlaceholder (Some placeholder)) item s in
    let s :=
      with_tree (mkDom (<[placeholder :=
                         mkElement "CORAL-MASONRY-ITEM" {["_placeholder"]}
                                   {["_coral-Masonry-item--placeholder"]} None None None]>
                         (nodes (tree s)))
                      (children (tree s))) s in
    (* Insert placeholder before dragged item *)
    l ← insertBefore placeholder (Some item) (children (tree s));
    Some (with_children l s)
  else Some s.

(** [_onItemDragMove].  Reading [itemAt] off a missing layout instance and
    [parentNode] off an item that is not a child of the host raise. *)
Definition _onItemDragMove (g : Geometry) (e : DragEvent) (s : t) : option t :=
  let item := target e in
  match field _dropPlaceholder (tree s) item with
  | Some placeholder =>
      if decide (item = matchedTarget e) then
        let prevPos := field _prevDragPos (tree s) item in
        let pos := relativePosition g item in
        s ← (if match prevPos with
                | None => true
                | Some prevPos => negb (_isApproachingPlaceholder g pos prevPos placeholder)
                end
             then
               (* Find item below cursor *)
               _ ← _layoutInstance s;
               match itemAt g (left pos) (top pos) with
               | Some itemBelow =>
                   if decide (itemBelow ≠ placeholder) then
                     let l := children (tree s) in
                     if decide (itemBelow ∈ l) then
                       l ← (if preceding l placeholder itemBelow
                            then insertBefore placeholder (Some itemBelow) l
                            else insertBefore placeholder (nextSibling (tree s) itemBelow) l);
                       Some (with_children l s)
                     else None
                   else Some s
               | None => Some s
               end
             else Some s);
        Some (with_element (set_prevDragPos (Some pos)) item s)
      else Some s
  | None => Some s
  end.

(** [_onItemDragEnd].  The flag [_dropping], raised around [replaceChild]
    for the disconnect handler of the item, and the removal of
    [is-dropping] once the transition has ended are left out. *)
Definition _onItemDragEnd (e : DragEvent) (s : t) : option t :=
  let item := target e in
  s ← match field _dropPlaceholder (tree s) item with
      | Some placeholder =>
          if decide (item = matchedTarget e) then
            (* Replace the drop placeholder with this item *)
            l ← replaceChild item placeholder (children (tree s));
            let s := with_children l s in
            (* Trigger order event *)
            let s :=
              with_triggered
                (triggered s ++ [order item (field _oldBefore (tree s) item)
                                       (getPreviousItem (tree s) item)]) s in
            (* Drop transition *)
            i ← _layoutInstance s;
            let s :=
              with_layoutInstance
                (Some (mkLayout (name i) (remove_child item (detached i)))) s in
            Some (with_element (add_class "is-dropping") item s)
          else Some s
      | None => Some s
      end;
  let s := with_element (set_oldBefore None) item s in
  let s := with_element (set_dropPlaceholder None) item s in
  Some (with_element (set_prevDragPos None) item s).

(** *** Resizing, spacing and new items *)

(** What the resize handlers, the [spacing] property and [_onItemAdded] use
    besides the fields of [t]: [_spacing], [_attaching], [_debounceId], and
    the timeouts of the window that are still waiting, by their
    identifiers.  Every timeout the masonry sets carries the same closure,
    so its identifier is all there is to keep; [window.setTimeout] hands out
    [nextTimeout] and never the same identifier twice. *)
Record Resizable := mkResizable {
  component : t;
  _spacing : option float;
  _attaching : bool;
  _debounceId : option nat;
  timeouts : list nat;
  nextTimeout : nat
}.

Definition with_component (s : t) (w : Resizable) : Resizable :=
  mkResizable s (_spacing w) (_attaching w) (_debounceId w) (timeouts w) (nextTimeout w).

(** [Math.max(0, value)]: [NaN] for [NaN], and [+0] for both zeros. *)
Definition Math_max_0 (value : float) : float :=
  if PrimFloat.is_nan value then value
  else if PrimFloat.ltb 0 value then value
  else 0%float.

(** A number as a condition: [0], [-0] and [NaN] are falsy. *)
Definition falsy (x : float) : bool :=
  PrimFloat.is_nan x || PrimFloat.eqb x 0.

(** The [spacing] getter: [this._spacing || null]. *)
Definition spacing (w : Resizable) : option float :=
  match _spacing w with
  | Some x => if falsy x then None else Some x
  | None => None
  end.

(** The [spacing] setter, on what [transform.number] makes of the value: a
    number or [null]. *)
Definition set_spacing (value : option float) (w : Resizable) : Resizable :=
  let _spacing :=
    match value with
    | Some value => Some (Math_max_0 value)
    | None => None
    end in
  mkResizable (_scheduleLayout (component w)) _spacing (_attaching w) (_debounceId w)
              (timeouts w) (nextTimeout w).

(** [window.clearTimeout(id)]: nothing happens for [null] and for a timeout
    that is not waiting. *)
Definition clearTimeout (id : option nat) (timeouts : list nat) : list nat :=
  match id with
  | Some id => filter (λ x, x ≠ id) timeouts
  | None => timeouts
  end.

Definition _scheduleDebouncedLayout (force : bool) (w : Resizable) : Resizable :=
  let s := component w in
  (* Do not force debounce if the masonry isn't layouted yet. *)
  let s := if force && _layouted s then with_forceDebounce true s else s in
  let timeouts := clearTimeout (_debounceId w) (timeouts w) in
  let id := nextTimeout w in
  mkResizable s (_spacing w) (_attaching w) (Some id) (timeouts ++ [id]) (S id).

(** The closure [_scheduleDebouncedLayout] hands to [setTimeout]. *)
Definition debounce_timeout (w : Resizable) : Resizable :=
  let s := with_forceDebounce false (component w) in
  with_component (_scheduleLayout s) w.

(** The 500 ms of the timeout [id] have passed: the browser runs it when it
    is still waiting. *)
Definition timeout_fires (id : nat) (w : Resizable) : Resizable :=
  if decide (id ∈ timeouts w) then
    debounce_timeout
      (mkResizable (component w) (_spacing w) (_attaching w) (_debounceId w)
                   (filter (λ x, x ≠ id) (timeouts w)) (nextTimeout w))
  else w.

Definition _onResize (w : Resizable) : option Resizable :=
  if negb (_layouted (component w)) then
    (* The masonry was first invisible, render it now immediately *)
    s ← _doLayout (component w);
    Some (with_component s w)
  else Some (_scheduleDebouncedLayout false w).

Definition _onWindowResize (w : Resizable) : Resizable :=
  _scheduleDebouncedLayout true w.

(** [_onItemAdded].  The update of the drag action of the item is part of
    the item element and is left out. *)
Definition _onItemAdded (item : nat) (w : Resizable) : option Resizable :=
  let s := component w in
  let s := with_newItems (_newItems s ++ [item]) s in
  if _attaching w && bool_decide (nextSibling (tree s) item = None) then
    s ← _doLayout s;
    Some (with_component s w)
  else Some (with_component s w).

(** The next animation frame, for the callbacks of [_scheduleLayout]. *)
Definition frame (w : Resizable) : option Resizable :=
  s ← animation_frame (component w);
  Some (with_component s w).

(** What can happen to the layout of a masonry: a record of the mutation
    observer, a new layout name, a new spacing, an item that was added, a
    resize of the element or of the window, a timeout that has run out, an
    animation frame. *)
Inductive LayoutOp :=
| Mutation
| SetLayout (value : string)
| SetSpacing (value : option float)
| ItemAdded (item : nat)
| ElementResize
| WindowResize
| Timeout (id : nat)
| Frame.

Definition layout_step (w : Resizable) (op : LayoutOp) : option Resizable :=
  match op with
  | Mutation => Some (with_component (_scheduleLayout (component w)) w)
  | SetLayout value => Some (with_component (set_layout value (component w)) w)
  | SetSpacing value => Some (set_spacing value w)
  | ItemAdded item => _onItemAdded item w
  | ElementResize => _onResize w
  | WindowResize => Some (_onWindowResize w)
  | Timeout id => Some (timeout_fires id w)
  | Frame => frame w
  end.

Definition layout_run (w : Resizable) (ops : list LayoutOp) : option Resizable :=
  foldl (λ o op, w ← o; layout_step w op) (Some w) ops.

End Masonry.

(** ** Concrete documents *)

Module Examples.

Definition masonry_item (attrs : list string) : Element :=
  mkElement "CORAL-MASONRY-ITEM" (list_to_set attrs) ∅ None None None.

(** Three items, children 0, 1 and 2 of the host, with the given attributes. *)
Definition three_items (a b c : list string) : Dom :=
  mkDom (<[0 := masonry_item a]> (<[1 := masonry_item b]> (<[2 := masonry_item c]> ∅)))
        [0; 1; 2].

(** The selector of a collection of [coral-masonry-item] elements. *)
Definition item_selector : Selector :=
  [[Opaque (λ e, bool_decide (tagName e = "CORAL-MASONRY-ITEM"))]].

(** The selector [coral-tab, coral-step] of a collection of two kinds of
    items, and a document with one item of each kind, both carrying the
    marker [active]. *)
Definition two_part_selector : Selector :=
  [[Opaque (λ e, bool_decide (tagName e = "CORAL-TAB"))];
   [Opaque (λ e, bool_decide (tagName e = "CORAL-STEP"))]].

Definition two_kinds : Dom :=
  mkDom (<[0 := mkElement "CORAL-TAB" {["active"]} ∅ None None None]>
           (<[1 := mkElement "CORAL-STEP" {["active"]} ∅ None None None]> ∅))
        [0; 1].

(** A masonry over the document [d], idle and visible, with the four
    layouts of the component registered. *)
Definition masonry (d : Dom) (mode : option Masonry.SelectionMode) : Masonry.t :=
  Masonry.mk d mode false [] [] []
             ["fixed-centered"; "fixed-spread"; "variable"; "dashboard"]
             None None false false false [] true [] 0.

End Examples.

(** ** Predicates of the specification *)

(** The selector behind [selectedItems]: a [coral-masonry-item] child that
    is neither being removed nor a placeholder and carries [selected]. *)
Definition selected_selector : Selector :=
  SelectableCollection.selected_selector Masonry.items None.

(** The loop that removes the attribute [m] from every element of [items]
    but [keep]. *)
Definition clear_except (keep : option nat) (m : string) (d : Dom) (items : list nat) : Dom :=
  foldl (λ d i, if decide (keep = Some i) then d else removeAttribute d i m) d items.

(** The constraint a selection mode puts on the selection. *)
Definition mode_ok (s : Masonry.t) : Prop :=
  match Masonry.selectionMode s with
  | Masonry.NONE => Masonry.selectedItems s = []
  | Masonry.SINGLE => length (Masonry.selectedItems s) ≤ 1
  | Masonry.MULTIPLE => True
  end.

(** Whether a run of the validator on [s] takes the branch of mode
    [single] that clears the other items and allows change events again. *)
Definition normalizes (item : option nat) (s : Masonry.t) : bool :=
  match Masonry.selectionMode s with
  | Masonry.SINGLE =>
      match or_else item (last (Masonry.selectedItems s)) with
      | Some it =>
          hasAttribute (Masonry.tree s) it "selected"
          && bool_decide (1 < length (Masonry.selectedItems s))
      | None => false
      end
  | _ => false
  end.

(** Whether the validator normalizes a single selection while [op] runs. *)
Definition single_normalization (s : Masonry.t) (op : Masonry.Op) : bool :=
  match op with
  | Masonry.Toggle id => normalizes (Some id) (Masonry.toggle_selected id s)
  | Masonry.Click id =>
      match Masonry.selectionMode s with
      | Masonry.NONE => false
      | _ => normalizes (Some id) (Masonry.toggle_selected id s)
      end
  | Masonry.SetSelectionMode value =>
      normalizes None
        (Masonry.with_selectionMode
           (Some (Masonry.enumeration (Masonry.toLowerCase value))) s)
  | Masonry.Validate item => normalizes item s
  | Masonry.Connect =>
      normalizes None
        (Masonry.with_preventTriggeringEvents true (Masonry.connectedCallback_defaults s))
  end.

(** No operation of the run normalizes a single selection. *)
Fixpoint normalization_free (s : Masonry.t) (ops : list Masonry.Op) : bool :=
  match ops with
  | [] => true
  | op :: r => negb (single_normalization s op) && normalization_free (Masonry.step s op) r
  end.

(** Whether [op] writes [false] to [_preventTriggeringEvents]: a
    normalization of a single selection does, and so does
    [connectedCallback]. *)
Definition reenables (s : Masonry.t) (op : Masonry.Op) : bool :=
  match op with
  | Masonry.Connect => true
  | _ => single_normalization s op
  end.

(** No operation of the run allows change events again. *)
Fixpoint suppressed (s : Masonry.t) (ops : list Masonry.Op) : bool :=
  match ops with
  | [] => true
  | op :: r => negb (reenables s op) && suppressed (Masonry.step s op) r
  end.

(** The shape of a field of a change event. *)
Definition is_scalar (p : Masonry.Payload) : bool :=
  match p with Masonry.Scalar _ => true | Masonry.Items _ => false end.

Definition is_array (p : Masonry.Payload) : bool :=
  match p with Masonry.Scalar _ => false | Masonry.Items _ => true end.

(** Three unselected items, a masonry in mode [multiple] whose items 0 and 1
    were then selected one after the other, and the [selectionMode] setter
    about to run its validator for the value [single]. *)
Definition two_selected_then_single : Masonry.t :=
  Masonry.with_selectionMode (Some Masonry.SINGLE)
    (Masonry.run (Examples.masonry (Examples.three_items [] [] []) None)
                 [Masonry.SetSelectionMode "multiple"; Masonry.Toggle 0; Masonry.Toggle 1]).

(** An unconnected masonry in mode [none] whose first item carries
    [selected], after a run of its validator. *)
Definition cleared_in_none : Masonry.t :=
  Masonry._validateSelection None
    (Examples.masonry (Examples.three_items ["selected"] [] []) None).

(** Whether [_doLayout] gets as far as the [layout()] of a strategy: no
    forced debounce, a registered layout class, a rendered container. *)
Definition lays_out (s : Masonry.t) : bool :=
  negb (Masonry._forceDebounce s)
  && Masonry.offsetParent s
  && match Masonry.get_property (Masonry.__layouts s) (Masonry.layout s) with
     | Masonry.Own _ => true
     | _ => false
     end.

(** The active layout name, when there is one, passed the check of the
    setter. *)
Definition layout_known (s : Masonry.t) : Prop :=
  ∀ l, Masonry._layout s = Some l →
       Masonry.truthy (Masonry.get_property (Masonry.__layouts s) l) = true.

(** A masonry inside a container that is not rendered. *)
Definition hidden_masonry : Masonry.t :=
  Masonry.mk (Examples.three_items [] [] []) None false [] [] []
             ["fixed-centered"; "fixed-spread"; "variable"; "dashboard"]
             (Some "fixed-centered") None false false false [] false [] 0.

(** A masonry laid out with the [variable] layout. *)
Definition variable_masonry : Masonry.t :=
  Masonry.mk (Examples.three_items [] [] []) None false [] [] []
             ["fixed-centered"; "fixed-spread"; "variable"; "dashboard"]
             (Some "variable") (Some (Masonry.mkLayout "variable" [])) false false true []
             true [] 1.

(** The three session fields of a dragged item are empty. *)
Definition session_cleared (s : Masonry.t) (item : nat) : Prop :=
  Masonry.field _oldBefore (Masonry.tree s) item = None
  ∧ Masonry.field _dropPlaceholder (Masonry.tree s) item = None
  ∧ Masonry.field _prevDragPos (Masonry.tree s) item = None.

(** What the drag handlers rely on: the placeholder an item records is a
    child of the host, and the strategy the item was detached from is
    there. *)
Definition drag_ready (e : Masonry.DragEvent) (s : Masonry.t) : Prop :=
  ∀ placeholder,
    Masonry.field _dropPlaceholder (Masonry.tree s) (Masonry.target e) = Some placeholder →
    Masonry.target e = Masonry.matchedTarget e →
    placeholder ∈ children (Masonry.tree s) ∧ is_Some (Masonry._layoutInstance s).

(** A masonry of three items after its first layout pass. *)
Definition laid_out_masonry : Masonry.t :=
  Masonry.mk (Examples.three_items [] [] []) None false [] [] []
             ["fixed-centered"; "fixed-spread"; "variable"; "dashboard"]
             (Some "fixed-centered") (Some (Masonry.mkLayout "fixed-centered" []))
             false false true [] true [] 1.

(** The drag of item 0 has started: element 3 is its placeholder, and the
    children are 3, 0, 1, 2. *)
Definition drag_started : Masonry.t :=
  default laid_out_masonry
          (Masonry._onItemDragStart (Masonry.mkDragEvent 0 0) laid_out_masonry).

(** ... and the pointer was last seen at (0, 50). *)
Definition dragging : Masonry.t :=
  Masonry.with_element (Masonry.set_prevDragPos (Some (mkPos 0 50))) 0 drag_started.

(** Every box is 100 by 100; the placeholder sits at the origin of the host,
    so its centre is (50, 50); the dragged item 0 is at [at0]; the hit test
    finds item 1 under the pointer. *)
Definition geometry (at0 : Pos) : Masonry.Geometry :=
  Masonry.mkGeometry (mkPos 0 0)
                     (λ id, match id with 0 => at0 | _ => mkPos 0 0 end)
                     (λ _, 100%float) (λ _, 100%float)
                     (λ _ _, Some 1).

(** The pointer moves from (0, 50) to (100, 50): as far from the centre of
    the placeholder as before. *)
Definition level_move : Masonry.Geometry := geometry (mkPos 100 50).

(** The pointer moves from (0, 50) to (300, 50): away from the placeholder. *)
Definition away_move : Masonry.Geometry := geometry (mkPos 300 50).

(** Item 2 is under the pointer, far from the placeholder. *)
Definition over_last_item : Masonry.Geometry :=
  Masonry.mkGeometry (mkPos 0 0)
                     (λ id, match id with 0 => mkPos 300 50 | _ => mkPos 0 0 end)
                     (λ _, 100%float) (λ _, 100%float)
                     (λ _ _, Some 2).

(** A part of a selector in which the text [[selected]] does not occur. *)
Definition plain (c : Compound) : Prop :=
  Forall (λ x, x ≠ HasAttr "selected" ∧ x ≠ NotAttr "selected") c.

(** Every part of the selector asks for the attribute [m]. *)
Definition requires_marker (m : string) (sel : Selector) : Prop :=
  Forall (λ part, HasAttr m ∈ part) sel.

(** The frame callbacks that are waiting are what [_layoutScheduled] says:
    one callback of [_scheduleLayout] when it is set, none otherwise. *)
Definition frames_ok (s : Masonry.t) : Prop :=
  Masonry.frameCallbacks s
  = if Masonry._layoutScheduled s then [Masonry.LayoutFrame] else [].

(** What holds of the schedule of a masonry at any time: at most one frame
    callback is waiting, at most one timeout is waiting and it is the one
    [_debounceId] names, and a forced debounce has a timeout waiting that
    will end it. *)
Definition schedule_ok (w : Masonry.Resizable) : Prop :=
  frames_ok (Masonry.component w)
  ∧ (Masonry.timeouts w = []
     ∨ ∃ id, Masonry._debounceId w = Some id ∧ Masonry.timeouts w = [id])
  ∧ (Masonry._forceDebounce (Masonry.component w) = true → Masonry.timeouts w ≠ []).

(** [n] resize events of the window in a row. *)
Fixpoint window_resizes (n : nat) (w : Masonry.Resizable) : Masonry.Resizable :=
  match n with
  | O => w
  | S n => window_resizes n (Masonry._onWindowResize w)
  end.

(** A masonry as its constructor leaves it, over the document [d]. *)
Definition constructed (d : Dom) : Masonry.Resizable :=
  Masonry.mkResizable
    (Masonry.mk d None false [] [] []
                ["fixed-centered"; "fixed-spread"; "variable"; "dashboard"]
                None None false false false [] true [] 0)
    None false None [] 1.

(** The masonry [laid_out_masonry] with no timeout waiting. *)
Definition laid_out : Masonry.Resizable :=
  Masonry.mkResizable laid_out_masonry None false None [] 1.

(** The drag of item 0 after a move that found the last item under the
    pointer: the placeholder 3 has gone to the end, the children are 0, 1,
    2, 3. *)
Definition dragged_over_last : Masonry.t :=
  default dragging
          (Masonry._onItemDragMove over_last_item (Masonry.mkDragEvent 0 0) dragging).

(** A connected masonry in mode [single] whose second item is selected. *)
Definition second_selected : Masonry.t :=
  Masonry.with_oldSelection [1]
    (Examples.masonry (Examples.three_items [] ["selected"] []) (Some Masonry.SINGLE)).

(** [_onItemDragMove] for each surface of [gs] in turn: the moves of one
    drag, stopping at the first that raises. *)
Definition drag_moves (gs : list Masonry.Geometry) (e : Masonry.DragEvent) (s : Masonry.t)
  : option Masonry.t :=
  foldl (λ o g, s ← o; Masonry._onItemDragMove g e s) (Some s) gs.

(** The state of a drag in progress: the item records the placeholder [p]
    and the previous item [before] it had at the start, the strategy
    instance is [L], the events dispatched so far are [T], and the
    children of the host are those of [l0] and the placeholder, each once. *)
Definition drag_in_progress (e : Masonry.DragEvent) (p : nat) (before : option nat)
    (L : Masonry.LayoutInstance) (T : list Masonry.Event) (l0 : list nat) (s : Masonry.t)
  : Prop :=
  Masonry.field _dropPlaceholder (Masonry.tree s) (Masonry.target e) = Some p
  ∧ Masonry.field _oldBefore (Masonry.tree s) (Masonry.target e) = before
  ∧ Masonry._layoutInstance s = Some L
  ∧ Masonry.triggered s = T
  ∧ NoDup (children (Masonry.tree s))
  ∧ children (Masonry.tree s) ≡ₚ p :: l0.





(** * Properties *)

#[local] Set Warnings "-clear-no-such-hyp".

(** ** Selectors *)

Lemma selector_matches_suffix (sel : Selector) (x : Simple) (e : Element) :
  selector_matches (map (λ selector, selector ++ [x]) sel) e
  = selector_matches sel e && simple_matches e x.
Proof.
  unfold selector_matches.
  induction sel as [|c sel IH]; simpl; [done|].
  rewrite IH, forallb_app. simpl.
  destruct (forallb _ c), (existsb _ sel), (simple_matches e x); done.
Qed.

(** An element is selectable when it matches the item selector and is not
    disabled. *)
Lemma selectable_matches (allItems : Selector) (d : Dom) (x : nat) :
  matches d (SelectableCollection._selectableItemSelector
               (SelectableCollection.constructor allItems)) x = true
  ↔ matches d allItems x = true ∧ hasAttribute d x "disabled" = false.
Proof.
  unfold matches, hasAttribute. simpl.
  destruct (nodes d !! x) as [e|]; [|split; [done|by intros []]].
  rewrite selector_matches_suffix. simpl.
  rewrite andb_true_iff, negb_true_iff. done.
Qed.

Lemma find_index_NoDup (l : list nat) (i x : nat) :
  NoDup l → l !! i = Some x → list_find (λ y, y = x) l = Some (i, x).
Proof.
  intros Hnd Hi. apply list_find_Some. split_and!; [done..|].
  intros j y Hj Hlt ->.
  pose proof (NoDup_lookup _ _ _ _ Hnd Hi Hj). lia.
Qed.

(** The loop stops at the first sibling of the chain that matches, and runs
    off the chain when none does. *)
Lemma while_sibling_Some c d (l : list nat) (r : nat) :
  SelectableCollection.while_sibling c d l = Some r →
  ∃ k, l !! k = Some r
       ∧ matches d (SelectableCollection._selectableItemSelector c) r = true
       ∧ ∀ j y, j < k → l !! j = Some y →
                matches d (SelectableCollection._selectableItemSelector c) y = false.
Proof.
  induction l as [|s l IH]; simpl; [done|].
  destruct (matches d _ s) eqn:Hs.
  - intros [= <-]. exists 0. split_and!; [done..|]. intros; lia.
  - intros (k & Hk & Hm & Hbefore)%IH. exists (S k). split_and!; [done..|].
    intros [|j] y Hj Hy; simplify_eq/=; [done|]. apply (Hbefore j); [lia|done].
Qed.

Lemma while_sibling_None c d (l : list nat) :
  SelectableCollection.while_sibling c d l = None →
  ∀ y, y ∈ l → matches d (SelectableCollection._selectableItemSelector c) y = false.
Proof.
  induction l as [|s l IH]; simpl; [by intros _ y ?%elem_of_nil|].
  destruct (matches d _ s) eqn:Hs; [done|].
  intros Hl y [->|?]%elem_of_cons; auto.
Qed.

(** C3. For an item of the collection, [_getPreviousSelectable] and
    [_getNextSelectable] always return an element: the nearest sibling
    before (after) the item that is selectable, that is, matches the item
    selector and is not disabled, or the item itself when no sibling on that
    side is selectable. *)
Theorem selectable_neighbours_clamp (allItems : Selector) (d : Dom) (i item : nat) :
  let c := SelectableCollection.constructor allItems in
  let selectable x := matches d allItems x = true ∧ hasAttribute d x "disabled" = false in
  NoDup (children d) →
  children d !! i = Some item →
  (∃ r, SelectableCollection._getPreviousSelectable c d item = Some r
        ∧ ((∃ j, j < i ∧ children d !! j = Some r ∧ selectable r
                 ∧ ∀ k x, j < k < i → children d !! k = Some x → ¬ selectable x)
           ∨ (r = item ∧ ∀ k x, k < i → children d !! k = Some x → ¬ selectable x)))
  ∧ (∃ r, SelectableCollection._getNextSelectable c d item = Some r
          ∧ ((∃ j, i < j ∧ children d !! j = Some r ∧ selectable r
                   ∧ ∀ k x, i < k < j → children d !! k = Some x → ¬ selectable x)
             ∨ (r = item ∧ ∀ k x, i < k → children d !! k = Some x → ¬ selectable x))).
Proof.
  intros c selectable Hnd Hi.
  assert (Hsel : ∀ x, matches d (SelectableCollection._selectableItemSelector c) x = true
                      ↔ selectable x) by (intros; apply selectable_matches).
  assert (Hnot : ∀ x, matches d (SelectableCollection._selectableItemSelector c) x = false
                      → ¬ selectable x).
  { intros x Hx Hs. apply Hsel in Hs. congruence. }
  pose proof (lookup_lt_Some _ _ _ Hi) as Hlen.
  split.
  - unfold SelectableCollection._getPreviousSelectable,
      SelectableCollection.previousElementSiblings.
    rewrite (find_index_NoDup _ _ _ Hnd Hi).
    destruct (SelectableCollection.while_sibling c d (reverse (take i (children d))))
      as [r|] eqn:Hw; simpl.
    + exists r. split; [done|]. left.
      apply while_sibling_Some in Hw as (k & Hk & Hm & Hbefore).
      apply reverse_lookup_Some in Hk as [Hk Hlt].
      rewrite length_take in Hlt, Hk.
      apply lookup_take_Some in Hk as [Hk Hki].
      exists (i `min` length (children d) - S k).
      split_and!; [lia|done|by apply Hsel|].
      intros k' x Hk' Hx. apply Hnot.
      apply (Hbefore (i - S k')); [lia|].
      apply reverse_lookup_Some. rewrite length_take. split; [|lia].
      apply lookup_take_Some. split; [|lia].
      replace (i `min` length (children d) - S (i - S k')) with k' by lia. done.
    + exists item. split; [done|]. right. split; [done|].
      intros k x Hk Hx. apply Hnot. eapply while_sibling_None; [done|].
      apply elem_of_reverse, list_elem_of_lookup. exists k.
      apply lookup_take_Some. done.
  - unfold SelectableCollection._getNextSelectable,
      SelectableCollection.nextElementSiblings.
    rewrite (find_index_NoDup _ _ _ Hnd Hi).
    destruct (SelectableCollection.while_sibling c d (drop (S i) (children d)))
      as [r|] eqn:Hw; simpl.
    + exists r. split; [done|]. left.
      apply while_sibling_Some in Hw as (k & Hk & Hm & Hbefore).
      rewrite lookup_drop in Hk.
      exists (S i + k). split_and!; [lia|done|by apply Hsel|].
      intros k' x Hk' Hx. apply Hnot.
      apply (Hbefore (k' - S i)); [lia|].
      rewrite lookup_drop. replace (S i + (k' - S i)) with k' by lia. done.
    + exists item. split; [done|]. right. split; [done|].
      intros k x Hk Hx. apply Hnot. eapply while_sibling_None; [done|].
      apply list_elem_of_lookup. exists (k - S i).
      rewrite lookup_drop. replace (S i + (k - S i)) with k by lia. done.
Qed.

Lemma selectable_neighbours_clamp_witness :
  let d := Examples.three_items [] ["disabled"] [] in
  let c := SelectableCollection.constructor Examples.item_selector in
  let selectable x :=
    matches d Examples.item_selector x = true ∧ hasAttribute d x "disabled" = false in
  (∃ r, SelectableCollection._getPreviousSelectable c d 2 = Some r
        ∧ ((∃ j, j < 2 ∧ children d !! j = Some r ∧ selectable r
                 ∧ ∀ k x, j < k < 2 → children d !! k = Some x → ¬ selectable x)
           ∨ (r = 2 ∧ ∀ k x, k < 2 → children d !! k = Some x → ¬ selectable x)))
  ∧ (∃ r, SelectableCollection._getNextSelectable c d 2 = Some r
          ∧ ((∃ j, 2 < j ∧ children d !! j = Some r ∧ selectable r
                   ∧ ∀ k x, 2 < k < j → children d !! k = Some x → ¬ selectable x)
             ∨ (r = 2 ∧ ∀ k x, 2 < k → children d !! k = Some x → ¬ selectable x))).
Proof.
  apply (selectable_neighbours_clamp Examples.item_selector
           (Examples.three_items [] ["disabled"] []) 2 2).
  - apply (bool_decide_unpack (NoDup [0; 1; 2])). vm_compute. exact I.
  - reflexivity.
Defined.

(** ** Clearing a marker attribute *)

Lemma with_attributes_difference_idemp (m : string) (e : Element) :
  with_attributes (λ s, s ∖ {[m]}) (with_attributes (λ s, s ∖ {[m]}) e)
  = with_attributes (λ s, s ∖ {[m]}) e.
Proof.
  unfold with_attributes. simpl. f_equal. set_solver.
Qed.

(** The loop that removes [m] from every element of [items] but [keep]. *)
Lemma foldl_removeAttribute_nodes (keep : option nat) (m : string) (items : list nat)
    (d : Dom) (id : nat) :
  nodes (clear_except keep m d items) !! id
  = if decide (id ∈ items ∧ keep ≠ Some id)
    then with_attributes (λ s, s ∖ {[m]}) <$> nodes d !! id
    else nodes d !! id.
Proof.
  unfold clear_except.
  revert d. induction items as [|i items IH]; intros d; cbn [foldl].
  - rewrite decide_False; [done|]. by intros [?%elem_of_nil _].
  - rewrite IH. destruct (decide (keep = Some i)) as [->|Hne].
    + destruct (decide (id ∈ items ∧ Some i ≠ Some id)) as [[Hin Hid]|Hn].
      * rewrite decide_True; [done|]. split; [by right|done].
      * rewrite decide_False; [done|].
        intros [[->|Hin]%elem_of_cons Hid]; [done|]. by apply Hn.
    + unfold removeAttribute; simpl.
      destruct (decide (id = i)) as [->|Hid].
      * rewrite lookup_alter_eq.
        rewrite (decide_True (P := i ∈ i :: items ∧ keep ≠ Some i)); [|split; [by left|done]].
        case_decide; [|done].
        destruct (nodes d !! i); simpl; [|done].
        by rewrite with_attributes_difference_idemp.
      * rewrite lookup_alter_ne by done.
        destruct (decide (id ∈ items ∧ keep ≠ Some id)) as [[Hin Hk]|Hn].
        -- rewrite decide_True; [done|]. split; [by right|done].
        -- rewrite decide_False; [done|].
           intros [[->|Hin]%elem_of_cons Hk]; [done|]. by apply Hn.
Qed.

Lemma foldl_removeAttribute_children (keep : option nat) (m : string) (items : list nat)
    (d : Dom) :
  children (clear_except keep m d items) = children d.
Proof.
  unfold clear_except. revert d. induction items as [|i items IH]; intros d; simpl; [done|].
  rewrite IH. by case_decide.
Qed.

Lemma replace_in_plain_compound (a : string) (c : Compound) :
  plain c → replace_in_compound a (c ++ [HasAttr "selected"]) = Some (c ++ [HasAttr a]).
Proof.
  induction 1 as [|x c [Hx1 Hx2] Hc IH]; [reflexivity|].
  cbn [app replace_in_compound].
  destruct x as [p|b|b].
  - by rewrite IH.
  - rewrite decide_False by (intros ->; done). by rewrite IH.
  - rewrite decide_False by (intros ->; done). by rewrite IH.
Qed.

Lemma replace_in_compound_same (c : Compound) :
  replace_in_compound "selected" c = None ∨ replace_in_compound "selected" c = Some c.
Proof.
  induction c as [|x c IH]; [by left|].
  destruct x as [p|b|b]; cbn [replace_in_compound].
  - destruct IH as [->| ->]; [by left|by right].
  - destruct (decide (b = "selected")) as [->|]; [by right|].
    destruct IH as [->| ->]; [by left|by right].
  - destruct (decide (b = "selected")) as [->|]; [by right|].
    destruct IH as [->| ->]; [by left|by right].
Qed.

Lemma replace_selected_same (sel : Selector) : replace_selected "selected" sel = sel.
Proof.
  induction sel as [|c sel IH]; [done|].
  cbn [replace_selected].
  destruct (replace_in_compound_same c) as [->| ->]; [by rewrite IH|done].
Qed.







(** ** The selection of a masonry *)

Import Masonry.

(** Reads a field through the setters, and nothing else. *)
Ltac fields :=
  cbn [tree _selectionMode _preventTriggeringEvents _oldSelection triggered logged
       __layouts _layout _layoutInstance _layoutScheduled _forceDebounce _layouted
       _newItems offsetParent frameCallbacks layoutPasses
       with_tree with_selectionMode with_preventTriggeringEvents with_oldSelection
       with_triggered with_logged with_layouts with_layout with_layoutInstance
       with_layoutScheduled with_layouted with_newItems with_frameCallbacks
       with_layoutPasses with_children with_element update children nodes] in *.

Lemma filter_ext_elem {A} (P Q : A → Prop) `{!∀ x, Decision (P x), !∀ x, Decision (Q x)}
    (l : list A) :
  (∀ x, x ∈ l → P x ↔ Q x) → filter P l = filter Q l.
Proof.
  induction l as [|a l IH]; intros Hext; [done|].
  rewrite !filter_cons, IH by (intros; apply Hext; by right).
  destruct (decide (P a)) as [HP|HP].
  - rewrite decide_True; [done|]. apply Hext; [by left|done].
  - rewrite decide_False; [done|]. intros HQ. apply HP, Hext; [by left|done].
Qed.

Lemma selectedItems_eq (s : t) :
  selectedItems s = querySelectorAll (tree s) selected_selector.
Proof. reflexivity. Qed.

Lemma matches_selected (d : Dom) (id : nat) :
  matches d selected_selector id = true → hasAttribute d id "selected" = true.
Proof.
  unfold matches, hasAttribute.
  destruct (nodes d !! id) as [e|]; [|done].
  unfold selected_selector, selector_matches. simpl.
  rewrite orb_false_r, !andb_true_iff. tauto.
Qed.

Lemma matches_cleared (e : Element) :
  selector_matches selected_selector (with_attributes (λ s, s ∖ {["selected"]}) e) = false.
Proof.
  unfold selected_selector, selector_matches. simpl.
  rewrite (bool_decide_eq_false_2 ("selected" ∈ _)) by set_solver.
  rewrite !andb_false_r. done.
Qed.

(** The selection after a loop that clears every selected item but [keep]. *)
Lemma selectedItems_cleared (d : Dom) (keep : option nat) :
  querySelectorAll
    (clear_except keep "selected" d (querySelectorAll d selected_selector))
    selected_selector
  = filter (λ id, keep = Some id) (querySelectorAll d selected_selector).
Proof.
  unfold querySelectorAll at 1 3.
  rewrite foldl_removeAttribute_children, list_filter_filter.
  apply filter_ext_elem. intros id Hid.
  unfold matches at 1. rewrite foldl_removeAttribute_nodes.
  destruct (decide (keep = Some id)) as [Hk|Hk].
  - rewrite decide_False by (intros [_ ?]; done). unfold matches. tauto.
  - split; [|by intros [? _]].
    destruct (decide (id ∈ querySelectorAll d selected_selector ∧ keep ≠ Some id))
      as [_|Hn].
    + destruct (nodes d !! id) as [e|]; [|done].
      intros Hm. pose proof (matches_cleared e) as Hc.
      cbn [fmap option_fmap option_map] in Hm. congruence.
    + intros Hm. exfalso. apply Hn. split; [|done].
      apply list_elem_of_filter. split; [|done]. done.
Qed.

Lemma filter_keep_NoDup (keep : option nat) (l : list nat) (x : nat) :
  keep = Some x → NoDup l →
  filter (λ id, keep = Some id) l = if decide (x ∈ l) then [x] else [].
Proof.
  intros ->. induction 1 as [|y l Hy Hnd IH]; [done|].
  rewrite filter_cons, IH.
  destruct (decide (Some x = Some y)) as [[= ->]|Hne].
  - rewrite decide_False by done. rewrite decide_True by (by left). done.
  - destruct (decide (x ∈ l)) as [Hin|Hin].
    + rewrite decide_True by (by right). done.
    + rewrite decide_False; [done|]. intros [->|?]%elem_of_cons; done.
Qed.

Lemma NoDup_selectedItems (s : t) :
  NoDup (children (tree s)) → NoDup (selectedItems s).
Proof. intros. by apply NoDup_filter. Qed.

(** *** The two clearing loops of the validator *)

Lemma foldl_clear_selected (s : t) (l : list nat) :
  foldl clear_selected s l
  = match l with
    | [] => s
    | _ => with_preventTriggeringEvents true
             (with_tree (clear_except None "selected" (tree s) l) s)
    end.
Proof.
  unfold clear_except.
  revert s. induction l as [|i l IH]; intros s; [done|].
  cbn [foldl]. rewrite IH. destruct l; reflexivity.
Qed.

Lemma foldl_clear_except (s : t) (item : nat) (l : list nat) :
  with_preventTriggeringEvents false
    (foldl (λ s selectedItem,
              if decide (selectedItem ≠ item) then clear_selected s selectedItem else s) s l)
  = with_preventTriggeringEvents false
      (with_tree (clear_except (Some item) "selected" (tree s) l) s).
Proof.
  unfold clear_except. revert s. induction l as [|i l IH]; intros s; [done|].
  cbn [foldl]. rewrite IH.
  destruct (decide (i ≠ item)) as [Hne|Heq].
  - rewrite decide_False by (intros [= ->]; done). reflexivity.
  - rewrite decide_True by (f_equal; by destruct (decide (i = item))). reflexivity.
Qed.

(** *** What [_triggerChangeEvent] leaves alone *)

Lemma trigger_tree (s : t) : tree (_triggerChangeEvent s) = tree s.
Proof. unfold _triggerChangeEvent. by case_match. Qed.

Lemma trigger_selectionMode (s : t) :
  _selectionMode (_triggerChangeEvent s) = _selectionMode s.
Proof. unfold _triggerChangeEvent. by case_match. Qed.

Lemma trigger_prevent (s : t) :
  _preventTriggeringEvents (_triggerChangeEvent s) = _preventTriggeringEvents s.
Proof. unfold _triggerChangeEvent. by case_match. Qed.

Lemma trigger_suppressed (s : t) :
  _preventTriggeringEvents s = true → _triggerChangeEvent s = s.
Proof. unfold _triggerChangeEvent. by intros ->. Qed.

(** *** The selection after a run of the validator *)

Lemma filter_keep_None (keep : option nat) (l : list nat) :
  keep = None → filter (λ id, keep = Some id) l = [].
Proof.
  intros ->. induction l as [|x l IH]; [done|]. by rewrite filter_cons_False.
Qed.

Lemma validate_children (item : option nat) (s : t) :
  children (tree (_validateSelection item s)) = children (tree s).
Proof.
  unfold _validateSelection, normalize_selection. rewrite trigger_tree.
  destruct (selectionMode s); [| |done].
  - rewrite foldl_clear_selected.
    destruct (selectedItems s); [done|]. fields. apply foldl_removeAttribute_children.
  - destruct (or_else item (last (selectedItems s))) as [it|]; [|done].
    case_match; [|done].
    rewrite foldl_clear_except. fields. apply foldl_removeAttribute_children.
Qed.

Lemma validate_selectionMode (item : option nat) (s : t) :
  _selectionMode (_validateSelection item s) = _selectionMode s.
Proof.
  unfold _validateSelection, normalize_selection. rewrite trigger_selectionMode.
  destruct (selectionMode s); [| |done].
  - rewrite foldl_clear_selected. by destruct (selectedItems s).
  - destruct (or_else item (last (selectedItems s))) as [it|]; [|done].
    case_match; [|done].
    by rewrite foldl_clear_except.
Qed.

(** The selection the validator leaves, mode by mode. *)
Lemma validate_selectedItems (item : option nat) (s : t) :
  NoDup (children (tree s)) →
  selectedItems (_validateSelection item s)
  = match selectionMode s with
    | NONE => []
    | SINGLE =>
        match or_else item (last (selectedItems s)) with
        | Some it =>
            if hasAttribute (tree s) it "selected"
               && bool_decide (1 < length (selectedItems s))
            then if decide (it ∈ selectedItems s) then [it] else []
            else selectedItems s
        | None => selectedItems s
        end
    | MULTIPLE => selectedItems s
    end.
Proof.
  intros Hnd. unfold _validateSelection, normalize_selection.
  rewrite selectedItems_eq, trigger_tree.
  destruct (selectionMode s); [| |done].
  - rewrite foldl_clear_selected.
    destruct (selectedItems s) as [|x l] eqn:Hsel; [done|].
    rewrite <- Hsel. fields. rewrite selectedItems_eq, selectedItems_cleared.
    by apply filter_keep_None.
  - destruct (or_else item (last (selectedItems s))) as [it|]; [|done].
    case_match; [|done].
    rewrite foldl_clear_except. fields.
    rewrite (selectedItems_eq s) at 1. rewrite selectedItems_cleared.
    rewrite <- selectedItems_eq. apply filter_keep_NoDup; [done|].
    by apply NoDup_selectedItems.
Qed.

(** A run of the validator without an item establishes the constraint of
    the mode, whatever the selection was. *)
Lemma validate_establishes (s : t) :
  NoDup (children (tree s)) → mode_ok (_validateSelection None s).
Proof.
  intros Hnd. unfold mode_ok, selectionMode.
  rewrite validate_selectionMode, validate_selectedItems by done.
  fold (selectionMode s). destruct (selectionMode s); [done| |done].
  simpl. destruct (last (selectedItems s)) as [it|] eqn:Hlast.
  - apply last_Some_elem_of in Hlast as Hin.
    assert (hasAttribute (tree s) it "selected" = true) as ->.
    { apply matches_selected. rewrite selectedItems_eq in Hin.
      by apply list_elem_of_filter in Hin as [? _]. }
    simpl. case_bool_decide as Hlen.
    + rewrite decide_True by done. simpl. lia.
    + lia.
  - apply last_None in Hlast. rewrite Hlast. simpl. lia.
Qed.

(** A run of the validator keeps the constraint of the mode. *)
Lemma validate_preserves (item : option nat) (s : t) :
  NoDup (children (tree s)) → mode_ok s → mode_ok (_validateSelection item s).
Proof.
  intros Hnd. unfold mode_ok, selectionMode.
  rewrite validate_selectionMode, validate_selectedItems by done.
  fold (selectionMode s). destruct (selectionMode s); [done| |done].
  intros Hle. destruct (or_else item (last (selectedItems s))) as [it|]; [|done].
  destruct (_ && _); [|done]. destruct (decide _); simpl; lia.
Qed.

(** *** Toggling one item *)

Lemma matches_same_node (d d' : Dom) (sel : Selector) (x : nat) :
  nodes d' !! x = nodes d !! x → matches d' sel x = matches d sel x.
Proof. unfold matches. by intros ->. Qed.

Lemma selectedItems_removeAttribute (d : Dom) (id : nat) :
  querySelectorAll (removeAttribute d id "selected") selected_selector
  = filter (λ x, x ≠ id) (querySelectorAll d selected_selector).
Proof.
  unfold querySelectorAll, removeAttribute. cbn [children]. rewrite list_filter_filter.
  apply list_filter_iff. intros x. unfold matches. cbn [nodes].
  destruct (decide (x = id)) as [->|Hne].
  - rewrite lookup_alter_eq. split; [|by intros [? _]].
    destruct (nodes d !! id) as [e|]; [|done].
    intros Hm. pose proof (matches_cleared e) as Hc.
    cbn [fmap option_fmap option_map] in Hm. congruence.
  - rewrite lookup_alter_ne by done. tauto.
Qed.

Lemma toggled_off_length (id : nat) (s : t) :
  hasAttribute (tree (toggle_selected id s)) id "selected" = false →
  length (selectedItems (toggle_selected id s)) ≤ length (selectedItems s).
Proof.
  unfold toggle_selected.
  destruct (hasAttribute (tree s) id "selected") eqn:Hhas; fields; intros Hoff.
  - rewrite !selectedItems_eq. fields.
    rewrite selectedItems_removeAttribute. apply length_filter.
  - assert (Hnone : nodes (tree s) !! id = None).
    { revert Hoff. unfold hasAttribute, setAttribute. simpl.
      rewrite lookup_alter_eq. destruct (nodes (tree s) !! id) as [e|]; [|done].
      cbn [fmap option_fmap option_map]. simpl.
      intros Hf. apply bool_decide_eq_false in Hf. exfalso. set_solver. }
    rewrite !selectedItems_eq. fields. unfold querySelectorAll. simpl.
    apply Nat.eq_le_incl. f_equal. apply list_filter_iff. intros x.
    rewrite (matches_same_node (tree s)); [done|]. simpl.
    destruct (decide (x = id)) as [->|Hne].
    + by rewrite lookup_alter_eq, Hnone.
    + by rewrite lookup_alter_ne.
Qed.

Lemma toggle_preserves (id : nat) (s : t) :
  NoDup (children (tree s)) → mode_ok s → mode_ok (toggle id s).
Proof.
  intros Hnd Hok. unfold toggle, _onItemSelectedChanged.
  set (s1 := toggle_selected id s).
  assert (Hch : children (tree s1) = children (tree s)).
  { unfold s1, toggle_selected. fields. by destruct (hasAttribute _ _ _). }
  assert (Hmode : selectionMode s1 = selectionMode s) by done.
  pose proof (toggled_off_length id s) as Hoff. fold s1 in Hoff.
  clearbody s1.
  unfold mode_ok in *. unfold selectionMode at 1.
  rewrite validate_selectionMode, validate_selectedItems by (by rewrite Hch).
  fold (selectionMode s1). rewrite Hmode.
  destruct (selectionMode s); [done| |done].
  cbn [or_else]. destruct (hasAttribute (tree s1) id "selected") eqn:Hhas; cbn [andb].
  - case_bool_decide; [destruct (decide _); simpl; lia|lia].
  - specialize (Hoff eq_refl). lia.
Qed.

(** *** The operations keep the children and the constraint *)

Lemma scheduleLayout_tree (s : t) : tree (_scheduleLayout s) = tree s.
Proof. unfold _scheduleLayout. by case_match. Qed.

Lemma set_layout_unrelated (value : string) (s : t) :
  tree (set_layout value s) = tree s
  ∧ _selectionMode (set_layout value s) = _selectionMode s
  ∧ _preventTriggeringEvents (set_layout value s) = _preventTriggeringEvents s
  ∧ triggered (set_layout value s) = triggered s
  ∧ _oldSelection (set_layout value s) = _oldSelection s.
Proof.
  unfold set_layout, _scheduleLayout.
  repeat case_match; done.
Qed.

Lemma defaults_children (s : t) :
  children (tree (connectedCallback_defaults s)) = children (tree s).
Proof.
  unfold connectedCallback_defaults.
  assert (Hl : ∀ s', children (tree (if decide (_layout s' = None ∨ _layout s' = Some "")
                                     then set_layout "fixed-centered" s' else s'))
                     = children (tree s')).
  { intros s'. case_decide; [|done].
    by destruct (set_layout_unrelated "fixed-centered" s') as [-> _]. }
  destruct (_selectionMode _) eqn:Hm.
  - apply Hl.
  - unfold set_selectionMode. rewrite validate_children. fields. apply Hl.
Qed.

Lemma step_children (s : t) (op : Op) :
  children (tree (step s op)) = children (tree s).
Proof.
  assert (Htoggle : ∀ id s, children (tree (toggle id s)) = children (tree s)).
  { intros id s'. unfold toggle, _onItemSelectedChanged. rewrite validate_children.
    unfold toggle_selected. fields. by destruct (hasAttribute _ _ _). }
  destruct op as [id|id|value|item|]; simpl.
  - apply Htoggle.
  - unfold _onItemClick. destruct (selectionMode s); [done|apply Htoggle..].
  - unfold set_selectionMode. by rewrite validate_children.
  - apply validate_children.
  - unfold connectedCallback. fields. rewrite validate_children. fields.
    apply defaults_children.
Qed.

Lemma mode_ok_ext (s s' : t) :
  tree s' = tree s → _selectionMode s' = _selectionMode s → mode_ok s → mode_ok s'.
Proof.
  unfold mode_ok, selectionMode, selectedItems. by intros -> ->.
Qed.

Lemma step_mode_ok (s : t) (op : Op) :
  NoDup (children (tree s)) → mode_ok s → mode_ok (step s op).
Proof.
  intros Hnd Hok. destruct op as [id|id|value|item|]; simpl.
  - by apply toggle_preserves.
  - unfold _onItemClick. destruct (selectionMode s) eqn:Hm; [done|by apply toggle_preserves..].
  - unfold set_selectionMode. by apply validate_establishes.
  - by apply validate_preserves.
  - unfold connectedCallback.
    match goal with
    | |- mode_ok (with_oldSelection _ (with_preventTriggeringEvents false
                     (_validateSelection None ?s0))) =>
        apply (mode_ok_ext (_validateSelection None s0)); [done..|];
        apply validate_establishes
    end.
    fields. by rewrite defaults_children.
Qed.

Lemma run_children (ops : list Op) (s : t) :
  children (tree (run s ops)) = children (tree s).
Proof.
  revert s. induction ops as [|op ops IH]; intros s; [done|].
  simpl. fold (run (step s op) ops). by rewrite IH, step_children.
Qed.

Lemma run_mode_ok (ops : list Op) (s : t) :
  NoDup (children (tree s)) → mode_ok s → mode_ok (run s ops).
Proof.
  revert s. induction ops as [|op ops IH]; intros s Hnd Hok; [done|].
  simpl. fold (run (step s op) ops). apply IH.
  - by rewrite step_children.
  - by apply step_mode_ok.
Qed.

Lemma length_le_1_elem (l : list nat) (x : nat) :
  ¬ 1 < length l → x ∈ l → l = [x].
Proof.
  destruct l as [|y [|z l]]; simpl; intros Hlen Hin.
  - by apply elem_of_nil in Hin.
  - apply list_elem_of_singleton in Hin. by subst.
  - lia.
Qed.

(** C2. Take any masonry whose validator has run once (as the
    [selectionMode] setter and [connectedCallback] make it run) and any
    sequence of operations on its selection afterwards: toggles of an item,
    clicks, changes of the mode, further runs of the validator,
    reconnections.  The selection then satisfies the constraint of the
    current mode: empty for [none], at most one item for [single], free for
    [multiple].  In mode [single] the validator keeps the last selected item
    in document order when it is given no item, and the given item when
    that one is selected. *)
Theorem selection_satisfies_mode (s : t) (ops : list Op) :
  NoDup (children (tree s)) →
  mode_ok (run (_validateSelection None s) ops)
  ∧ (selectionMode s = SINGLE →
     selectedItems (_validateSelection None s) = option_list (last (selectedItems s))
     ∧ ∀ item, item ∈ selectedItems s →
               selectedItems (_validateSelection (Some item) s) = [item]).
Proof.
  intros Hnd. split.
  - apply run_mode_ok; [by rewrite validate_children|by apply validate_establishes].
  - intros Hmode.
    assert (Hhas : ∀ it, it ∈ selectedItems s → hasAttribute (tree s) it "selected" = true).
    { intros it Hin. apply matches_selected. rewrite selectedItems_eq in Hin.
      by apply list_elem_of_filter in Hin as [? _]. }
    split.
    + rewrite validate_selectedItems, Hmode by done. cbn [or_else].
      destruct (last (selectedItems s)) as [it|] eqn:Hlast;
        [|apply last_None in Hlast; by rewrite Hlast].
      apply last_Some_elem_of in Hlast as Hin.
      rewrite (Hhas it Hin). cbn [andb option_list].
      case_bool_decide as Hlen.
      * by rewrite decide_True.
      * by apply length_le_1_elem.
    + intros item Hin.
      rewrite validate_selectedItems, Hmode by done. cbn [or_else].
      rewrite (Hhas item Hin). cbn [andb].
      case_bool_decide as Hlen.
      * by rewrite decide_True.
      * by apply length_le_1_elem.
Qed.

Lemma selection_satisfies_mode_witness :
  let s := Examples.masonry (Examples.three_items ["selected"] ["selected"] [])
                            (Some SINGLE) in
  mode_ok (run (_validateSelection None s) [Toggle 2; Toggle 0])
  ∧ (selectionMode s = SINGLE →
     selectedItems (_validateSelection None s) = option_list (last (selectedItems s))
     ∧ ∀ item, item ∈ selectedItems s →
               selectedItems (_validateSelection (Some item) s) = [item]).
Proof.
  apply (selection_satisfies_mode
           (Examples.masonry (Examples.three_items ["selected"] ["selected"] [])
                             (Some SINGLE))
           [Toggle 2; Toggle 0]).
  apply (bool_decide_unpack (NoDup [0; 1; 2])). vm_compute. exact I.
Defined.

(** *** Mode [none] *)




(** *** The change event *)

Lemma normalize_fields (item : option nat) (s : t) :
  _oldSelection (normalize_selection item s) = _oldSelection s
  ∧ triggered (normalize_selection item s) = triggered s
  ∧ _selectionMode (normalize_selection item s) = _selectionMode s.
Proof.
  unfold normalize_selection.
  destruct (selectionMode s); [| |done].
  - rewrite foldl_clear_selected. by destruct (selectedItems s).
  - destruct (or_else item (last (selectedItems s))) as [it|]; [|done].
    destruct (_ && _); [|done]. by rewrite foldl_clear_except.
Qed.

Lemma normalize_prevent (item : option nat) (s : t) :
  _preventTriggeringEvents (normalize_selection item s)
  = match selectionMode s with
    | NONE => if decide (selectedItems s = []) then _preventTriggeringEvents s else true
    | SINGLE => if normalizes item s then false else _preventTriggeringEvents s
    | MULTIPLE => _preventTriggeringEvents s
    end.
Proof.
  unfold normalize_selection, normalizes.
  destruct (selectionMode s); [| |done].
  - rewrite foldl_clear_selected. by destruct (selectedItems s).
  - destruct (or_else item (last (selectedItems s))) as [it|]; [|done].
    destruct (_ && _); [|done]. by rewrite foldl_clear_except.
Qed.

(** C5 (as the code has it). A run of the validator dispatches at most one
    change event.  In mode [multiple] both fields are arrays: the recorded
    selection and the new one.  In the modes [single] and [none] the field
    [selection] is one item or [null]; the field [oldSelection] is one item
    or [null] when the recorded selection holds at most one item, and it is
    the recorded array itself when that holds more than one. *)
Theorem change_event_payload (item : option nat) (s : t) :
  let s' := _validateSelection item s in
  triggered s' = triggered s
  ∨ ∃ oldSelection selection,
      triggered s' = triggered s ++ [change oldSelection selection]
      ∧ match selectionMode s with
        | MULTIPLE =>
            is_array oldSelection = true ∧ is_array selection = true
            ∧ oldSelection = Items (_oldSelection s)
            ∧ selection = Items (selectedItems s')
        | _ =>
            is_scalar selection = true
            ∧ selection = Scalar (head (selectedItems s'))
            ∧ is_scalar oldSelection = bool_decide (length (_oldSelection s) ≤ 1)
            ∧ oldSelection = (if decide (1 < length (_oldSelection s))
                              then Items (_oldSelection s)
                              else Scalar (head (_oldSelection s)))
        end.
Proof.
  intros s'. unfold s', _validateSelection.
  destruct (normalize_fields item s) as (Hold & Htr & Hmode).
  assert (Hsel : selectedItems (_triggerChangeEvent (normalize_selection item s))
                 = selectedItems (normalize_selection item s)).
  { by rewrite !selectedItems_eq, trigger_tree. }
  rewrite Hsel.
  unfold _triggerChangeEvent.
  destruct (negb _ && _); [|by left].
  right. fields. rewrite Htr, Hold.
  unfold selectionMode. rewrite Hmode. fold (selectionMode s).
  destruct (selectionMode s); eexists _, _; (split; [reflexivity|]).
  - split_and!; [done..| |done].
    destruct (decide (1 < length (_oldSelection s))); simpl.
    + symmetry. apply bool_decide_eq_false. lia.
    + symmetry. apply bool_decide_eq_true. lia.
  - split_and!; [done..| |done].
    destruct (decide (1 < length (_oldSelection s))); simpl.
    + symmetry. apply bool_decide_eq_false. lia.
    + symmetry. apply bool_decide_eq_true. lia.
  - done.
Qed.

(** C5 (as stated) fails.  Items 0 and 1 are selected in mode [multiple] and
    the mode is then set to [single]: the validator keeps item 1 and
    dispatches, in mode [single], an event whose [oldSelection] is the
    array of both items. *)
Lemma single_mode_array_payload :
  selectionMode two_selected_then_single = SINGLE
  ∧ triggered (_validateSelection None two_selected_then_single)
    = triggered two_selected_then_single ++ [change (Items [0; 1]) (Scalar (Some 1))]
  ∧ is_scalar (Items [0; 1]) = false.
Proof. vm_compute. done. Qed.

(** *** Suppressed change events *)

Lemma validate_suppressed (item : option nat) (s : t) :
  _preventTriggeringEvents s = true → normalizes item s = false →
  _preventTriggeringEvents (_validateSelection item s) = true
  ∧ triggered (_validateSelection item s) = triggered s.
Proof.
  intros Hflag Hnorm.
  assert (Hp : _preventTriggeringEvents (normalize_selection item s) = true).
  { rewrite normalize_prevent, Hnorm, Hflag.
    destruct (selectionMode s); [by case_decide|done..]. }
  unfold _validateSelection. rewrite trigger_suppressed by done.
  split; [done|]. by destruct (normalize_fields item s) as (_ & -> & _).
Qed.

Lemma validate_normalizes (item : option nat) (s : t) :
  normalizes item s = true → _preventTriggeringEvents (_validateSelection item s) = false.
Proof.
  intros Hnorm. unfold _validateSelection.
  rewrite trigger_prevent, normalize_prevent, Hnorm.
  unfold normalizes in Hnorm. by destruct (selectionMode s).
Qed.

Lemma step_suppressed (s : t) (op : Op) :
  _preventTriggeringEvents s = true → reenables s op = false →
  _preventTriggeringEvents (step s op) = true ∧ triggered (step s op) = triggered s.
Proof.
  intros Hflag Hre.
  assert (Htoggle : ∀ id, normalizes (Some id) (toggle_selected id s) = false →
            _preventTriggeringEvents (toggle id s) = true
            ∧ triggered (toggle id s) = triggered s).
  { intros id Hn. unfold toggle, _onItemSelectedChanged.
    by apply (validate_suppressed (Some id) (toggle_selected id s)). }
  destruct op as [id|id|value|it|]; simpl in *.
  - by apply Htoggle.
  - unfold _onItemClick. destruct (selectionMode s); [done|by apply Htoggle..].
  - unfold set_selectionMode.
    by apply (validate_suppressed None (with_selectionMode _ s)).
  - by apply validate_suppressed.
  - done.
Qed.

Lemma step_reenables (s : t) (op : Op) :
  reenables s op = true → _preventTriggeringEvents (step s op) = false.
Proof.
  destruct op as [id|id|value|it|]; simpl.
  - apply validate_normalizes.
  - unfold _onItemClick. destruct (selectionMode s); [done|apply validate_normalizes..].
  - apply validate_normalizes.
  - apply validate_normalizes.
  - done.
Qed.

Lemma run_suppressed (ops : list Op) (s : t) :
  _preventTriggeringEvents s = true → suppressed s ops = true →
  _preventTriggeringEvents (run s ops) = true ∧ triggered (run s ops) = triggered s.
Proof.
  revert s. induction ops as [|op ops IH]; intros s Hflag Hsup; [done|].
  simpl in Hsup. apply andb_true_iff in Hsup as [Hre Hsup].
  apply negb_true_iff in Hre.
  destruct (step_suppressed s op Hflag Hre) as [Hflag' Htr].
  simpl. fold (run (step s op) ops).
  destruct (IH (step s op) Hflag' Hsup) as [? ->]. done.
Qed.

(** C10 (as the code has it). When the validator runs in mode [none] over a
    selection that is not empty, it sets [_preventTriggeringEvents] and does
    not reset it, and dispatches nothing.  From then on no operation
    dispatches a change event, as long as none of them writes [false] to
    the flag; the operations that do are a normalization of a single
    selection and [connectedCallback]. *)
Theorem none_mode_leaves_events_suppressed (item : option nat) (s : t) :
  selectionMode s = NONE → selectedItems s ≠ [] →
  let s1 := _validateSelection item s in
  _preventTriggeringEvents s1 = true
  ∧ triggered s1 = triggered s
  ∧ (∀ ops, suppressed s1 ops = true →
            triggered (run s1 ops) = triggered s
            ∧ _preventTriggeringEvents (run s1 ops) = true)
  ∧ (∀ s2 op, reenables s2 op = true → _preventTriggeringEvents (step s2 op) = false).
Proof.
  intros Hmode Hsel s1.
  assert (Hp : _preventTriggeringEvents (normalize_selection item s) = true).
  { rewrite normalize_prevent, Hmode. by rewrite decide_False. }
  assert (Hflag : _preventTriggeringEvents s1 = true).
  { unfold s1, _validateSelection. by rewrite trigger_prevent. }
  assert (Htr : triggered s1 = triggered s).
  { unfold s1, _validateSelection. rewrite trigger_suppressed by done.
    by destruct (normalize_fields item s) as (_ & -> & _). }
  split_and!; [done..| |apply step_reenables].
  intros ops Hsup. destruct (run_suppressed ops s1 Hflag Hsup) as [? ->]. done.
Qed.

Lemma none_mode_leaves_events_suppressed_witness :
  let s := Examples.masonry (Examples.three_items ["selected"] [] []) None in
  let s1 := _validateSelection None s in
  _preventTriggeringEvents s1 = true
  ∧ triggered s1 = triggered s
  ∧ (∀ ops, suppressed s1 ops = true →
            triggered (run s1 ops) = triggered s
            ∧ _preventTriggeringEvents (run s1 ops) = true)
  ∧ (∀ s2 op, reenables s2 op = true → _preventTriggeringEvents (step s2 op) = false).
Proof.
  apply (none_mode_leaves_events_suppressed None
           (Examples.masonry (Examples.three_items ["selected"] [] []) None)).
  - reflexivity.
  - vm_compute. discriminate.
Defined.

(** C10 (as stated) fails.  After the validator has cleared item 0 in mode
    [none], the masonry is connected, its mode is set to [multiple] and
    item 1 is selected: no validator run of these operations normalizes a
    single selection, and yet the last one dispatches a change event. *)
Lemma events_return_without_normalization :
  normalization_free cleared_in_none [Connect; SetSelectionMode "multiple"; Toggle 1] = true
  ∧ _preventTriggeringEvents cleared_in_none = true
  ∧ triggered cleared_in_none = []
  ∧ triggered (run cleared_in_none [Connect; SetSelectionMode "multiple"; Toggle 1])
    = [change (Items []) (Items [1])].
Proof. vm_compute. done. Qed.

(** ** Scheduling a layout *)

Lemma scheduleLayout_scheduled (s : t) :
  _layoutScheduled s = true → _scheduleLayout s = s.
Proof. unfold _scheduleLayout. intros ->. by rewrite andb_false_r. Qed.

Lemma signals_scheduled (n : nat) (s : t) :
  _layoutScheduled s = true → signals n s = s.
Proof.
  intros Hs. induction n as [|n IH]; [done|].
  simpl. by rewrite scheduleLayout_scheduled.
Qed.

Lemma doLayout_passes (s : t) :
  match _doLayout s with
  | Some s' =>
      layoutPasses s' = layoutPasses s + (if lays_out s then 1 else 0)
      ∧ _layoutScheduled s' = _layoutScheduled s
      ∧ frameCallbacks s' = frameCallbacks s
  | None =>
      _forceDebounce s = false ∧ offsetParent s = true
      ∧ get_property (__layouts s) (layout s) = Inherited
  end.
Proof.
  unfold _doLayout, lays_out.
  destruct (_forceDebounce s), (offsetParent s),
    (get_property (__layouts s) (layout s)) eqn:Hp; simpl; try (split_and!; done || lia).
  destruct (_layoutInstance s) as [i|]; [case_decide|]; fields; split_and!; done || lia.
Qed.

(** C4 (as the code has it). Take an idle masonry (no forced debounce, no
    layout scheduled, no frame callback waiting) and call [_scheduleLayout]
    [n + 1] times before the next frame.  The first call registers one
    frame callback and sets [_layoutScheduled]; the other calls change
    nothing.  When the frame fires, [_doLayout] runs exactly once and the
    flag is reset.  That one run calls the [layout()] of the strategy once
    when the container is rendered and its layout name is a registered
    one, and not at all when the container is hidden or the name is
    unknown. *)
Theorem signals_coalesce_into_one_frame (n : nat) (s : t) :
  _forceDebounce s = false → _layoutScheduled s = false → frameCallbacks s = [] →
  let s1 := _scheduleLayout s in
  signals (S n) s = s1
  ∧ frameCallbacks s1 = [LayoutFrame]
  ∧ _layoutScheduled s1 = true
  ∧ animation_frame (signals (S n) s)
    = (s' ← _doLayout (with_frameCallbacks [] s1); Some (with_layoutScheduled false s'))
  ∧ match animation_frame (signals (S n) s) with
    | Some s' =>
        layoutPasses s' = layoutPasses s + (if lays_out s then 1 else 0)
        ∧ _layoutScheduled s' = false
        ∧ frameCallbacks s' = []
    | None => get_property (__layouts s) (layout s) = Inherited
    end.
Proof.
  intros Hforce Hsched Hcb s1.
  assert (Hs1 : s1 = with_layoutScheduled true (with_frameCallbacks [LayoutFrame] s)).
  { unfold s1, _scheduleLayout. by rewrite Hforce, Hsched, Hcb. }
  assert (Hsig : signals (S n) s = s1).
  { simpl. fold s1. apply signals_scheduled. by rewrite Hs1. }
  assert (Hframe : animation_frame s1
                   = (s' ← _doLayout (with_frameCallbacks [] s1);
                      Some (with_layoutScheduled false s'))).
  { unfold animation_frame. rewrite Hs1. reflexivity. }
  split_and!; [done|by rewrite Hs1..| by rewrite Hsig |].
  rewrite Hsig, Hframe.
  pose proof (doLayout_passes (with_frameCallbacks [] s1)) as Hd.
  destruct (_doLayout (with_frameCallbacks [] s1)) as [s'|]; simpl.
  - destruct Hd as (Hp & _ & Hq). rewrite Hp. rewrite Hs1 in Hq |- *.
    split_and!; done.
  - destruct Hd as (_ & _ & Hd). by rewrite Hs1 in Hd.
Qed.

Lemma signals_coalesce_into_one_frame_witness :
  let s := Examples.masonry (Examples.three_items [] [] []) None in
  let s1 := _scheduleLayout s in
  signals 5 s = s1
  ∧ frameCallbacks s1 = [LayoutFrame]
  ∧ _layoutScheduled s1 = true
  ∧ animation_frame (signals 5 s)
    = (s' ← _doLayout (with_frameCallbacks [] s1); Some (with_layoutScheduled false s'))
  ∧ match animation_frame (signals 5 s) with
    | Some s' =>
        layoutPasses s' = layoutPasses s + (if lays_out s then 1 else 0)
        ∧ _layoutScheduled s' = false
        ∧ frameCallbacks s' = []
    | None => get_property (__layouts s) (layout s) = Inherited
    end.
Proof.
  apply (signals_coalesce_into_one_frame 4
           (Examples.masonry (Examples.three_items [] [] []) None));
    reflexivity.
Defined.

(** C4 (as stated) fails.  A masonry whose container is not rendered gets
    three signals with no forced debounce; the frame callback runs and no
    layout pass takes place. *)
Lemma hidden_masonry_runs_no_pass :
  _forceDebounce hidden_masonry = false
  ∧ _layoutScheduled hidden_masonry = false
  ∧ frameCallbacks (signals 3 hidden_masonry) = [LayoutFrame]
  ∧ layoutPasses <$> animation_frame (signals 3 hidden_masonry)
    = Some (layoutPasses hidden_masonry).
Proof. vm_compute. done. Qed.

(** ** The layout setter *)

(** The setter keeps [layout_known]: it makes a name active only after the
    registry lookup has found something under it. *)
Lemma set_layout_keeps_known (value : string) (s : t) :
  layout_known s → layout_known (set_layout value s).
Proof.
  intros Hknown. unfold set_layout. cbv zeta.
  set (v := if decide (value = "") then head (__layouts s) else Some value).
  case_decide; [|done].
  destruct (truthy (get_property (__layouts s) (to_key v))) eqn:Hp; [|done].
  intros l Hl.
  assert (Hv : v = Some l).
  { revert Hl. unfold _scheduleLayout. by case_match. }
  assert (Hreg : __layouts (_scheduleLayout (with_layout v s)) = __layouts s).
  { unfold _scheduleLayout. by case_match. }
  rewrite Hreg. by rewrite Hv in Hp.
Qed.

(** C7 (as the code has it). The setter never raises.  For a name that is
    not empty and that a property read on the registry does not find, it
    logs the error and changes nothing else: the active name, the strategy
    instance and the schedule stay as they were.  For a registered name it
    makes that name the active one.  The empty string stands for the first
    key of the registry, in the order of [Object.keys]: that key becomes
    the active name, nothing is logged, and a layout is scheduled unless
    the key was the active name already; with an empty registry the value
    is [undefined], which is logged as unknown unless no layout name was
    set. *)
Theorem layout_setter_checks_the_registry (value : string) (s : t) :
  layout_known s →
  let s' := set_layout value s in
  (value ≠ "" →
   (get_property (__layouts s) value = Undefined →
    s' = with_logged (logged s ++ [("Coral.Masonry: Unknown layout:", Some value)]) s
    ∧ _layout s' = _layout s
    ∧ layout s' = layout s
    ∧ _layoutInstance s' = _layoutInstance s)
   ∧ (get_property (__layouts s) value = Own value →
      _layout s' = Some value ∧ layout s' = value))
  ∧ (value = "" →
     match head (__layouts s) with
     | Some first =>
         _layout s' = Some first
         ∧ logged s' = logged s
         ∧ s' = (if decide (_layout s = Some first) then s
                 else _scheduleLayout (with_layout (Some first) s))
     | None =>
         _layout s' = _layout s
         ∧ s' = (if decide (_layout s = None) then s
                 else with_logged
                        (logged s ++ [("Coral.Masonry: Unknown layout:", None)]) s)
     end).
Proof.
  intros Hknown s'. split.
  - intros Hne. unfold s', set_layout. cbv zeta.
    destruct (decide (value = "")) as [|_]; [done|].
    change (to_key (Some value)) with value.
    split.
    + intros Hp. rewrite Hp. cbn [truthy].
      rewrite decide_True; [done|].
      intros Heq. symmetry in Heq. apply Hknown in Heq. by rewrite Hp in Heq.
    + intros Hp. rewrite Hp. cbn [truthy].
      assert (Hl : ∀ s0, _layout s0 = Some value → layout s0 = value).
      { intros s0 Hs0. unfold layout. rewrite Hs0. unfold str_or. by rewrite decide_False. }
      case_decide as Hd.
      * assert (Hs : _layout (_scheduleLayout (with_layout (Some value) s)) = Some value).
        { unfold _scheduleLayout. by case_match. }
        split; [done|by apply Hl].
      * split; [done|by apply Hl].
  - intros ->. unfold s', set_layout. cbv zeta.
    destruct (decide ("" = "")) as [_|]; [|done].
    destruct (head (__layouts s)) as [first|] eqn:Hhead.
    + assert (Hp : get_property (__layouts s) first = Own first).
      { unfold get_property. rewrite decide_True; [done|]. by apply head_Some_elem_of. }
      change (to_key (Some first)) with first. rewrite Hp. cbn [truthy].
      destruct (decide (Some first ≠ _layout s)) as [Hd|Hd].
      * rewrite (decide_False (P := _layout s = Some first)) by (by intros ?).
        unfold _scheduleLayout. by case_match.
      * assert (Heq : _layout s = Some first).
        { by destruct (decide (_layout s = Some first)) as [|Hn]; [|exfalso; apply Hd; intros ?]. }
        by rewrite (decide_True (P := _layout s = Some first)).
    + apply head_None in Hhead. rewrite Hhead.
      replace (truthy (get_property [] (to_key None))) with false by (by vm_compute).
      destruct (decide (None ≠ _layout s)) as [Hd|Hd].
      * by rewrite (decide_False (P := _layout s = None)) by (by intros ?).
      * assert (Heq : _layout s = None).
        { by destruct (decide (_layout s = None)) as [|Hn]; [|exfalso; apply Hd; intros ?]. }
        by rewrite (decide_True (P := _layout s = None)).
Qed.

Lemma layout_setter_checks_the_registry_witness :
  let s' := set_layout "mosaic" variable_masonry in
  let e' := set_layout "" variable_masonry in
  (get_property (__layouts variable_masonry) "mosaic" = Undefined →
   s' = with_logged (logged variable_masonry
                       ++ [("Coral.Masonry: Unknown layout:", Some "mosaic")])
                    variable_masonry
   ∧ _layout s' = _layout variable_masonry
   ∧ layout s' = layout variable_masonry
   ∧ _layoutInstance s' = _layoutInstance variable_masonry)
  ∧ _layout e' = Some "fixed-centered"
  ∧ logged e' = logged variable_masonry.
Proof.
  assert (Hknown : layout_known variable_masonry).
  { intros l [= <-]. reflexivity. }
  destruct (layout_setter_checks_the_registry "mosaic" variable_masonry Hknown)
    as [Hname _].
  destruct (layout_setter_checks_the_registry "" variable_masonry Hknown)
    as [_ Hempty].
  split; [apply Hname; discriminate|].
  destruct (Hempty eq_refl) as (H1 & H2 & _). split; [exact H1|exact H2].
Defined.

(** C7 (as stated) fails.  The empty string is not a registered name, and
    setting it on a masonry whose layout is [variable] logs nothing and
    makes [fixed-centered], the first registered layout, the active one. *)
Lemma empty_name_selects_first_layout :
  get_property (__layouts variable_masonry) "" = Undefined
  ∧ _layout variable_masonry = Some "variable"
  ∧ _layout (set_layout "" variable_masonry) = Some "fixed-centered"
  ∧ logged (set_layout "" variable_masonry) = logged variable_masonry.
Proof. vm_compute. done. Qed.

(** ** Moving a child of the host *)

Lemma list_find_eq_middle (x : nat) (l1 l2 : list nat) :
  x ∉ l1 → list_find (λ y, y = x) (l1 ++ x :: l2) = Some (length l1, x).
Proof.
  intros Hx. apply list_find_Some. split_and!.
  - by apply list_lookup_middle.
  - done.
  - intros j y Hj Hlt ->. apply Hx.
    rewrite lookup_app_l in Hj by done. by eapply list_elem_of_lookup_2.
Qed.

Lemma remove_child_notin (x : nat) (l : list nat) : x ∉ l → remove_child x l = l.
Proof.
  unfold remove_child. induction l as [|y l IH]; intros Hx; [done|].
  rewrite filter_cons_True by (intros ->; apply Hx; by left).
  rewrite IH; [done|]. intros ?; apply Hx; by right.
Qed.

Lemma remove_child_middle (x : nat) (l1 l2 : list nat) :
  x ∉ l1 → x ∉ l2 → remove_child x (l1 ++ x :: l2) = l1 ++ l2.
Proof.
  intros H1 H2. unfold remove_child.
  rewrite filter_app, filter_cons_False by (by intros []).
  fold (remove_child x l1). fold (remove_child x l2).
  by rewrite !remove_child_notin.
Qed.

Lemma insert_at_middle (node ref : nat) (l1 l2 : list nat) :
  ref ∉ l1 → insert_at node ref (l1 ++ ref :: l2) = l1 ++ node :: ref :: l2.
Proof.
  induction l1 as [|y l1 IH]; intros Hr; simpl.
  - by rewrite decide_True.
  - rewrite decide_False by (intros ->; apply Hr; by left).
    rewrite IH; [done|]. intros ?; apply Hr; by right.
Qed.

Lemma two_children_split (l : list nat) (a b : nat) :
  a ∈ l → b ∈ l → a ≠ b →
  (∃ l1 l2 l3, l = l1 ++ a :: l2 ++ b :: l3)
  ∨ (∃ l1 l2 l3, l = l1 ++ b :: l2 ++ a :: l3).
Proof.
  intros Ha Hb Hne.
  apply list_elem_of_split in Ha as (l1 & l2 & ->).
  apply elem_of_app in Hb as [Hb|Hb].
  - right. apply list_elem_of_split in Hb as (k1 & k2 & ->).
    exists k1, k2, l2. by rewrite <- app_assoc.
  - apply elem_of_cons in Hb as [->|Hb]; [done|].
    left. apply list_elem_of_split in Hb as (k1 & k2 & ->).
    by exists l1, k1, k2.
Qed.

(** The hit item comes before the placeholder: the placeholder moves to
    the place right before it. *)
Lemma relocate_before (l1 l2 l3 : list nat) (p b : nat) :
  let l := l1 ++ b :: l2 ++ p :: l3 in
  NoDup l →
  preceding l p b = true
  ∧ insertBefore p (Some b) l = Some (l1 ++ p :: b :: l2 ++ l3).
Proof.
  intros l Hnd. unfold l in *.
  apply NoDup_app in Hnd as (Hnd1 & H1 & Hnd).
  apply NoDup_cons in Hnd as (Hb & Hnd).
  apply NoDup_app in Hnd as (Hnd2 & H2 & Hnd).
  apply NoDup_cons in Hnd as (Hp & Hnd3).
  assert (Hb1 : b ∉ l1) by (intros ?; eapply H1; [done|by left]).
  assert (Hp1 : p ∉ l1) by (intros ?; eapply H1; [done|]; right; set_solver).
  assert (Hp2 : p ∉ l2) by (intros ?; eapply H2; [done|by left]).
  assert (Hpb : p ≠ b) by (intros ->; apply Hb; set_solver).
  split.
  - unfold preceding. rewrite (list_find_eq_middle b) by done.
    replace (l1 ++ b :: l2 ++ p :: l3) with ((l1 ++ b :: l2) ++ p :: l3)
      by (by rewrite <- app_assoc).
    rewrite (list_find_eq_middle p) by set_solver.
    apply bool_decide_eq_true. rewrite length_app. simpl. lia.
  - unfold insertBefore. rewrite decide_True by set_solver.
    rewrite decide_False by done. f_equal.
    replace (l1 ++ b :: l2 ++ p :: l3) with ((l1 ++ b :: l2) ++ p :: l3)
      by (by rewrite <- app_assoc).
    rewrite remove_child_middle by set_solver.
    rewrite <- app_assoc. simpl. by apply insert_at_middle.
Qed.

(** The hit item comes after the placeholder: the placeholder moves to the
    place right after it. *)
Lemma relocate_after (d : Dom) (l1 l2 l3 : list nat) (p b : nat) :
  children d = l1 ++ p :: l2 ++ b :: l3 →
  NoDup (children d) →
  preceding (children d) p b = false
  ∧ insertBefore p (nextSibling d b) (children d) = Some (l1 ++ l2 ++ b :: p :: l3).
Proof.
  intros Hl Hnd. unfold nextSibling. rewrite Hl in *.
  apply NoDup_app in Hnd as (Hnd1 & H1 & Hnd).
  apply NoDup_cons in Hnd as (Hp & Hnd).
  apply NoDup_app in Hnd as (Hnd2 & H2 & Hnd).
  apply NoDup_cons in Hnd as (Hb & Hnd3).
  assert (Hp1 : p ∉ l1) by (intros ?; eapply H1; [done|by left]).
  assert (Hb1 : b ∉ l1) by (intros ?; eapply H1; [done|]; right; set_solver).
  assert (Hb2 : b ∉ l2) by (intros ?; eapply H2; [done|by left]).
  assert (Hpb : p ≠ b) by (intros ->; apply Hp; set_solver).
  assert (Hfb : list_find (λ x, x = b) (l1 ++ p :: l2 ++ b :: l3)
                = Some (length (l1 ++ p :: l2), b)).
  { replace (l1 ++ p :: l2 ++ b :: l3) with ((l1 ++ p :: l2) ++ b :: l3)
      by (by rewrite <- app_assoc).
    apply list_find_eq_middle. set_solver. }
  split.
  - unfold preceding. rewrite Hfb, (list_find_eq_middle p) by done.
    apply bool_decide_eq_false. rewrite length_app. simpl. lia.
  - rewrite Hfb.
    assert (Hnext : (l1 ++ p :: l2 ++ b :: l3) !! S (length (l1 ++ p :: l2)) = head l3).
    { replace (l1 ++ p :: l2 ++ b :: l3) with ((l1 ++ p :: l2) ++ b :: l3)
        by (by rewrite <- app_assoc).
      rewrite lookup_app_r by lia.
      replace (S (length (l1 ++ p :: l2)) - length (l1 ++ p :: l2)) with 1 by lia.
      by destruct l3. }
    rewrite Hnext.
    assert (Hrm : remove_child p (l1 ++ p :: l2 ++ b :: l3) = l1 ++ l2 ++ b :: l3).
    { apply remove_child_middle; [done|]. set_solver. }
    destruct l3 as [|r l3]; simpl.
    + rewrite Hrm. by rewrite <- !app_assoc.
    + assert (Hr : r ≠ p) by (intros ->; apply Hp; set_solver).
      rewrite decide_True by set_solver. rewrite decide_False by done.
      rewrite Hrm. f_equal.
      replace (l1 ++ l2 ++ b :: r :: l3) with ((l1 ++ l2 ++ [b]) ++ r :: l3)
        by (by rewrite <- !app_assoc).
      rewrite insert_at_middle.
      * by rewrite <- !app_assoc.
      * apply NoDup_cons in Hnd3 as [Hr3 _].
        intros [Hr1|[Hr2|Hrb%list_elem_of_singleton]%elem_of_app]%elem_of_app.
        -- eapply H1; [done|]. right. set_solver.
        -- eapply H2; [done|]. right. by left.
        -- subst. apply Hb. by left.
Qed.

(** ** Drag and drop *)

Lemma float_leb_of_ltb (x y : float) :
  PrimFloat.ltb x y = true → PrimFloat.leb x y = true.
Proof.
  rewrite FloatAxioms.ltb_spec, FloatAxioms.leb_spec.
  unfold SpecFloat.SFltb, SpecFloat.SFleb.
  by destruct (SpecFloat.SFcompare _ _) as [[]|].
Qed.

Lemma float_leb_of_eqb (x y : float) :
  PrimFloat.eqb x y = true → PrimFloat.leb x y = true.
Proof.
  rewrite FloatAxioms.eqb_spec, FloatAxioms.leb_spec.
  unfold SpecFloat.SFeqb, SpecFloat.SFleb.
  by destruct (SpecFloat.SFcompare _ _) as [[]|].
Qed.

Lemma SFcompare_Lt_Gt (x y : SpecFloat.spec_float) :
  SpecFloat.SFcompare x y = Some Lt → SpecFloat.SFcompare y x = Some Gt.
Proof.
  destruct x as [s1|s1| |s1 m1 e1], y as [s2|s2| |s2 m2 e2]; simpl;
    try destruct s1; try destruct s2; try done.
  all: rewrite (Z.compare_antisym e1 e2).
  all: destruct (e1 ?= e2)%Z eqn:He; simpl; try done.
  all: pose proof (Pos.compare_cont_antisym m1 m2 Eq) as Hm; simpl in Hm.
  all: rewrite <- Hm; by destruct (Pos.compare_cont Eq m1 m2).
Qed.

(** A distance strictly greater than another is not below or equal to it. *)
Lemma float_leb_false_of_gt (x y : float) :
  PrimFloat.ltb y x = true → PrimFloat.leb x y = false.
Proof.
  rewrite FloatAxioms.ltb_spec, FloatAxioms.leb_spec.
  unfold SpecFloat.SFltb, SpecFloat.SFleb.
  destruct (SpecFloat.SFcompare (FloatOps.Prim2SF y) (FloatOps.Prim2SF x)) as [[]|] eqn:Hc; try done.
  intros _. by rewrite (SFcompare_Lt_Gt _ _ Hc).
Qed.

Lemma field_with_element {A} (f : Element → option A) (g : Element → Element)
    (id id' : nat) (s : t) :
  field f (tree (with_element g id s)) id'
  = if decide (id' = id) then e ← nodes (tree s) !! id; f (g e)
    else field f (tree s) id'.
Proof.
  unfold field. fields.
  case_decide as Hid.
  - subst. rewrite lookup_alter_eq. by destruct (nodes (tree s) !! id).
  - by rewrite lookup_alter_ne.
Qed.

(** C1 (as the code has it). During a drag-move of an item that has a
    placeholder among the children of the host and a recorded previous
    position, the placeholder changes its place exactly when the
    comparison "new weighted distance ≤ previous weighted distance" fails
    and the hit test finds an item other than the placeholder under the
    pointer.  The comparison fails when the new distance is strictly
    greater than the previous one.  When the new position is strictly
    closer to the centre of the placeholder, or as far from it as the
    previous one, the placeholder stays where it is.  In all cases the new
    position is recorded. *)
Theorem placeholder_moves_only_when_farther (g : Geometry) (e : DragEvent) (s : t)
    (placeholder : nat) (prevPos : Pos) :
  let item := target e in
  let pos := relativePosition g item in
  let d1 := placeholder_distance g pos placeholder in
  let d0 := placeholder_distance g prevPos placeholder in
  item = matchedTarget e →
  field _dropPlaceholder (tree s) item = Some placeholder →
  field _prevDragPos (tree s) item = Some prevPos →
  is_Some (_layoutInstance s) →
  NoDup (children (tree s)) →
  placeholder ∈ children (tree s) →
  (∀ b, itemAt g (left pos) (top pos) = Some b → b ∈ children (tree s)) →
  ∃ s', _onItemDragMove g e s = Some s'
        ∧ (children (tree s') ≠ children (tree s)
           ↔ PrimFloat.leb d1 d0 = false
             ∧ ∃ b, itemAt g (left pos) (top pos) = Some b ∧ b ≠ placeholder)
        ∧ (PrimFloat.ltb d1 d0 = true ∨ PrimFloat.eqb d1 d0 = true →
           children (tree s') = children (tree s))
        ∧ (PrimFloat.ltb d0 d1 = true →
           (children (tree s') ≠ children (tree s)
            ↔ ∃ b, itemAt g (left pos) (top pos) = Some b ∧ b ≠ placeholder))
        ∧ field _prevDragPos (tree s') item = Some pos.
Proof.
  intros item pos d1 d0 Hmatched Hph Hprev [i Hinst] Hnd Hin Hhit.
  cut (∃ s', _onItemDragMove g e s = Some s'
             ∧ (children (tree s') ≠ children (tree s)
                ↔ PrimFloat.leb d1 d0 = false
                  ∧ ∃ b, itemAt g (left pos) (top pos) = Some b ∧ b ≠ placeholder)
             ∧ (PrimFloat.ltb d1 d0 = true ∨ PrimFloat.eqb d1 d0 = true →
                children (tree s') = children (tree s))
             ∧ field _prevDragPos (tree s') item = Some pos).
  { intros (s' & Hs' & Hiff & Hstay & Hpos). exists s'. split_and!; [done..| |done].
    intros Hgt%float_leb_false_of_gt. rewrite Hiff. tauto. }
  assert (Hrec : ∀ d, nodes d = nodes (tree s) →
            field _prevDragPos (update (set_prevDragPos (Some pos)) d item) item
            = Some pos).
  { intros d Hd. unfold field, update. cbn [nodes].
    rewrite lookup_alter_eq, Hd. unfold field in Hph.
    by destruct (nodes (tree s) !! item). }
  unfold _onItemDragMove. fold item. rewrite Hph, decide_True by done.
  rewrite Hprev. fold pos. unfold _isApproachingPlaceholder. fold d1 d0.
  destruct (PrimFloat.leb d1 d0) eqn:Hleb; cbn [negb].
  - (* approaching, or level: nothing moves *)
    eexists. split; [reflexivity|]. fields. split_and!.
    + split; [done|]. by intros [? _].
    + done.
    + by apply Hrec.
  - rewrite Hinst. cbn [mbind option_bind].
    assert (Hfar : ¬ (PrimFloat.ltb d1 d0 = true ∨ PrimFloat.eqb d1 d0 = true)).
    { intros [H|H]; [apply float_leb_of_ltb in H|apply float_leb_of_eqb in H];
        congruence. }
    destruct (itemAt g (left pos) (top pos)) as [b|] eqn:Hb.
    + destruct (decide (b ≠ placeholder)) as [Hne|Heq].
      * specialize (Hhit b eq_refl). rewrite decide_True by done.
        destruct (two_children_split _ _ _ Hin Hhit (not_eq_sym Hne))
          as [(l1 & l2 & l3 & Hl)|(l1 & l2 & l3 & Hl)].
        -- destruct (relocate_after (tree s) l1 l2 l3 placeholder b Hl Hnd)
             as [-> ->].
           eexists. split; [reflexivity|]. fields. split_and!.
           ++ split; [eauto|]. intros _. rewrite Hl.
              intros Heq%app_inv_head.
              rewrite Hl in Hnd. apply NoDup_app in Hnd as (_ & _ & Hnd).
              apply NoDup_cons in Hnd as (Hp & _).
              destruct l2 as [|x l2]; simplify_eq/=.
              all: try done; try (apply Hp; by left).
           ++ by intros ?.
           ++ by apply Hrec.
        -- rewrite Hl in Hnd |- *.
           destruct (relocate_before l1 l2 l3 placeholder b Hnd) as [-> ->].
           eexists. split; [reflexivity|]. fields. split_and!.
           ++ split; [eauto|]. intros _.
              intros Heq%app_inv_head. by simplify_eq.
           ++ by intros ?.
           ++ by apply Hrec.
      * apply dec_stable in Heq. subst b.
        eexists. split; [reflexivity|]. fields. split_and!.
        -- split; [done|]. intros (_ & b & Hb' & Hne). congruence.
        -- done.
        -- by apply Hrec.
    + eexists. split; [reflexivity|]. fields. split_and!.
      * split; [done|]. intros (_ & b & Hb' & _). congruence.
      * done.
      * by apply Hrec.
Qed.

Lemma placeholder_moves_only_when_farther_witness :
  let g := away_move in
  let s := dragging in
  let pos := relativePosition g 0 in
  let d1 := placeholder_distance g pos 3 in
  let d0 := placeholder_distance g (mkPos 0 50) 3 in
  ∃ s', _onItemDragMove g (mkDragEvent 0 0) s = Some s'
        ∧ (children (tree s') ≠ children (tree s)
           ↔ PrimFloat.leb d1 d0 = false
             ∧ ∃ b, itemAt g (left pos) (top pos) = Some b ∧ b ≠ 3)
        ∧ (PrimFloat.ltb d1 d0 = true ∨ PrimFloat.eqb d1 d0 = true →
           children (tree s') = children (tree s))
        ∧ (PrimFloat.ltb d0 d1 = true →
           (children (tree s') ≠ children (tree s)
            ↔ ∃ b, itemAt g (left pos) (top pos) = Some b ∧ b ≠ 3))
        ∧ field _prevDragPos (tree s') 0 = Some pos.
Proof.
  apply (placeholder_moves_only_when_farther away_move (mkDragEvent 0 0) dragging
           3 (mkPos 0 50)).
  - reflexivity.
  - reflexivity.
  - reflexivity.
  - eexists. reflexivity.
  - apply (bool_decide_unpack (NoDup [3; 0; 1; 2])). vm_compute. exact I.
  - apply (bool_decide_unpack (3 ∈ [3; 0; 1; 2])). vm_compute. exact I.
  - intros b [= <-]. apply (bool_decide_unpack (1 ∈ [3; 0; 1; 2])). vm_compute. exact I.
Defined.

(** C1 (as stated) fails.  The pointer moves from (0, 50) to (100, 50)
    while the centre of the placeholder is at (50, 50): the new weighted
    distance, 0.5, is not smaller than the previous one, 0.5, and item 1 is
    under the pointer; the placeholder is not relocated. *)
Lemma level_move_leaves_placeholder :
  let pos := relativePosition level_move 0 in
  let d1 := placeholder_distance level_move pos 3 in
  let d0 := placeholder_distance level_move (mkPos 0 50) 3 in
  field _dropPlaceholder (tree dragging) 0 = Some 3
  ∧ field _prevDragPos (tree dragging) 0 = Some (mkPos 0 50)
  ∧ d1 = 0.5%float ∧ d0 = 0.5%float
  ∧ PrimFloat.ltb d1 d0 = false
  ∧ itemAt level_move (left pos) (top pos) = Some 1
  ∧ (λ s, children (tree s)) <$> _onItemDragMove level_move (mkDragEvent 0 0) dragging
    = Some (children (tree dragging)).
Proof. vm_compute. done. Qed.

Lemma session_cleared_after (item : nat) (s : t) :
  session_cleared
    (with_element (set_prevDragPos None) item
       (with_element (set_dropPlaceholder None) item
          (with_element (set_oldBefore None) item s)))
    item.
Proof.
  unfold session_cleared, field. fields.
  rewrite !lookup_alter_eq. by destruct (nodes (tree s) !! item).
Qed.

(** C8. Every drag-end that finds the tree as the drag handlers leave it
    (a recorded placeholder is a child of the host) completes and leaves
    the three session fields of the item empty, with or without a
    placeholder.  Without a placeholder nothing else happens: the order of
    the children is the same and no event is dispatched. *)
Theorem drag_end_clears_session (e : DragEvent) (s : t) :
  drag_ready e s →
  ∃ s', _onItemDragEnd e s = Some s'
        ∧ session_cleared s' (target e)
        ∧ (field _dropPlaceholder (tree s) (target e) = None →
           children (tree s') = children (tree s)
           ∧ triggered s' = triggered s
           ∧ s' = with_element (set_prevDragPos None) (target e)
                    (with_element (set_dropPlaceholder None) (target e)
                       (with_element (set_oldBefore None) (target e) s))).
Proof.
  intros Hready. unfold _onItemDragEnd.
  destruct (field _dropPlaceholder (tree s) (target e)) as [placeholder|] eqn:Hph.
  - destruct (decide (target e = matchedTarget e)) as [Hm|Hm].
    + destruct (Hready placeholder Hph Hm) as [Hin [i Hi]].
      unfold replaceChild. rewrite decide_True by done.
      destruct (decide (target e = placeholder));
        cbn [mbind option_bind]; fields; rewrite Hi; cbn [mbind option_bind];
        (eexists; split; [reflexivity|]); (split; [apply session_cleared_after|done]).
    + eexists. split; [reflexivity|]. split; [apply session_cleared_after|done].
  - eexists. split; [reflexivity|]. split; [apply session_cleared_after|].
    intros _. by fields.
Qed.

Lemma drag_end_clears_session_witness :
  ∃ s', _onItemDragEnd (mkDragEvent 0 0) dragging = Some s'
        ∧ session_cleared s' 0
        ∧ (field _dropPlaceholder (tree dragging) 0 = None →
           children (tree s') = children (tree dragging)
           ∧ triggered s' = triggered dragging
           ∧ s' = with_element (set_prevDragPos None) 0
                    (with_element (set_dropPlaceholder None) 0
                       (with_element (set_oldBefore None) 0 dragging))).
Proof.
  apply (drag_end_clears_session (mkDragEvent 0 0) dragging).
  intros placeholder Hp _.
  assert (placeholder = 3) as -> by (vm_compute in Hp; congruence).
  split.
  - apply (bool_decide_unpack (3 ∈ [3; 0; 1; 2])). vm_compute. exact I.
  - eexists. reflexivity.
Defined.

(** ** Further properties of the drag handlers *)

Lemma insert_at_Permutation (node ref : nat) (l : list nat) :
  insert_at node ref l ≡ₚ node :: l.
Proof.
  induction l as [|y l IH]; simpl; [done|].
  case_decide; [done|]. rewrite IH. apply Permutation_swap.
Qed.

Lemma remove_child_Permutation (node : nat) (l : list nat) :
  NoDup l → node ∈ l → node :: remove_child node l ≡ₚ l.
Proof.
  intros Hnd Hin. apply list_elem_of_split in Hin as (l1 & l2 & ->).
  apply NoDup_app in Hnd as (_ & H1 & Hnd).
  apply NoDup_cons in Hnd as (H2 & _).
  rewrite remove_child_middle; [|intros ?; eapply H1; [done|by left]|done].
  apply Permutation_middle.
Qed.

Lemma insertBefore_Permutation (node : nat) (ref : option nat) (l l' : list nat) :
  NoDup l → node ∈ l → insertBefore node ref l = Some l' → l' ≡ₚ l.
Proof.
  intros Hnd Hin. unfold insertBefore.
  destruct ref as [r|].
  - case_decide; [|done]. case_decide.
    + by intros [= <-].
    + intros [= <-]. rewrite insert_at_Permutation.
      by apply remove_child_Permutation.
  - intros [= <-]. rewrite <- (remove_child_Permutation node l) at 2 by done.
    symmetry. apply Permutation_cons_append.
Qed.

Lemma with_children_same (s : t) : with_children (children (tree s)) s = s.
Proof. unfold with_children. by destruct s as [[] ?]. Qed.

(** X1. A drag-move never loses or duplicates a child of the host: when it
    completes, the children are a permutation of what they were, and the
    dragged item still records the same placeholder. *)
Theorem drag_move_permutes_children (g : Geometry) (e : DragEvent) (s s' : t) :
  NoDup (children (tree s)) →
  drag_ready e s →
  _onItemDragMove g e s = Some s' →
  children (tree s') ≡ₚ children (tree s)
  ∧ field _dropPlaceholder (tree s') (target e)
    = field _dropPlaceholder (tree s) (target e)
  ∧ drag_ready e s'.
Proof.
  intros Hnd Hready.
  assert (Hfield : ∀ d l,
            nodes d = nodes (tree s) →
            field _dropPlaceholder
                  (update (set_prevDragPos (Some (relativePosition g (target e))))
                          (mkDom (nodes d) l) (target e))
                  (target e)
            = field _dropPlaceholder (tree s) (target e)).
  { intros d l Hd. unfold field, update. cbn [nodes]. rewrite lookup_alter_eq, Hd.
    by destruct (nodes (tree s) !! target e). }
  assert (Hgoal : ∀ l, l ≡ₚ children (tree s) →
            let s' := with_element (set_prevDragPos (Some (relativePosition g (target e))))
                                   (target e) (with_children l s) in
            children (tree s') ≡ₚ children (tree s)
            ∧ field _dropPlaceholder (tree s') (target e)
              = field _dropPlaceholder (tree s) (target e)
            ∧ drag_ready e s').
  { intros l Hl s0. unfold s0.
    assert (Hf : field _dropPlaceholder
                   (tree (with_element
                            (set_prevDragPos (Some (relativePosition g (target e))))
                            (target e) (with_children l s))) (target e)
                 = field _dropPlaceholder (tree s) (target e)).
    { fields. by apply (Hfield (tree s)). }
    split_and!; [by fields|done|].
    intros p Hp Hm. rewrite Hf in Hp. destruct (Hready p Hp Hm) as [Hin Hi].
    split; [|done]. fields. by rewrite Hl. }
  unfold _onItemDragMove.
  destruct (field _dropPlaceholder (tree s) (target e)) as [placeholder|] eqn:Hph;
    [|by intros [= <-]].
  destruct (decide (target e = matchedTarget e)) as [Hm|]; [|by intros [= <-]].
  destruct (Hready placeholder Hph Hm) as [Hin [i Hi]].
  assert (Hsame : ∀ s0, s0 = s →
            Some (with_element (set_prevDragPos (Some (relativePosition g (target e))))
                               (target e) s0) = Some s' →
            children (tree s') ≡ₚ children (tree s)
            ∧ field _dropPlaceholder (tree s') (target e) = Some placeholder
            ∧ drag_ready e s').
  { intros s0 -> [= <-].
    pose proof (Hgoal (children (tree s)) (reflexivity _)) as Hg.
    cbv zeta in Hg. by rewrite with_children_same in Hg. }
  match goal with |- context [if ?c then _ else Some s] => destruct c end;
    [|cbn [mbind option_bind]; apply (Hsame s eq_refl)].
  rewrite Hi. cbn [mbind option_bind].
  destruct (itemAt g _ _) as [b|];
    [|cbn [mbind option_bind]; apply (Hsame s eq_refl)].
  destruct (decide (b ≠ placeholder));
    [|cbn [mbind option_bind]; apply (Hsame s eq_refl)].
  destruct (decide (b ∈ children (tree s))); [|done].
  match goal with
  | |- context [insertBefore placeholder (Some b) ?l] =>
      destruct (preceding l placeholder b)
  end.
  - destruct (insertBefore placeholder (Some b) (children (tree s))) as [l|] eqn:Hl;
      [|done].
    cbn [mbind option_bind]. intros [= <-].
    apply Hgoal. apply (insertBefore_Permutation _ _ _ _ Hnd Hin Hl).
  - destruct (insertBefore placeholder (nextSibling (tree s) b) (children (tree s)))
      as [l|] eqn:Hl; [|done].
    cbn [mbind option_bind]. intros [= <-].
    apply Hgoal. apply (insertBefore_Permutation _ _ _ _ Hnd Hin Hl).
Qed.

Lemma drag_move_permutes_children_witness :
  ∃ s', _onItemDragMove away_move (mkDragEvent 0 0) dragging = Some s'
        ∧ children (tree s') ≡ₚ children (tree dragging)
        ∧ field _dropPlaceholder (tree s') 0 = field _dropPlaceholder (tree dragging) 0
        ∧ drag_ready (mkDragEvent 0 0) s'.
Proof.
  eexists. split; [vm_compute; reflexivity|].
  apply (drag_move_permutes_children away_move (mkDragEvent 0 0) dragging).
  - apply (bool_decide_unpack (NoDup [3; 0; 1; 2])). vm_compute. exact I.
  - intros placeholder Hp _.
    assert (placeholder = 3) as -> by (vm_compute in Hp; congruence).
    split.
    + apply (bool_decide_unpack (3 ∈ [3; 0; 1; 2])). vm_compute. exact I.
    + eexists. reflexivity.
  - vm_compute. reflexivity.
Defined.

Lemma new_element_unknown (d : Dom) : nodes d !! new_element d = None.
Proof. apply not_elem_of_dom. unfold new_element. apply is_fresh. Qed.

(** X2. A drag-start on an item of the host (with a strategy instance at
    hand, and every child known to the store) completes: it detaches the
    item from the strategy, records the item's previous item, creates a
    placeholder element, records it on the item and inserts it right before
    the item; the tree is then as drag-move and drag-end need it. *)
Theorem drag_start_inserts_placeholder (e : DragEvent) (s : t) (i : LayoutInstance) :
  target e = matchedTarget e →
  _layoutInstance s = Some i →
  target e ∈ children (tree s) →
  (∀ x, x ∈ children (tree s) → is_Some (nodes (tree s) !! x)) →
  let p := new_element (tree s) in
  ∃ s', _onItemDragStart e s = Some s'
        ∧ field _dropPlaceholder (tree s') (target e) = Some p
        ∧ field _oldBefore (tree s') (target e) = getPreviousItem (tree s) (target e)
        ∧ hasAttribute (tree s') p "_placeholder" = true
        ∧ _layoutInstance s' = Some (mkLayout (name i) (target e :: detached i))
        ∧ (∃ l1 l2, children (tree s) = l1 ++ (target e :: l2)
                    ∧ (target e ∉ l1)
                    ∧ children (tree s') = l1 ++ (p :: target e :: l2))
        ∧ drag_ready e s'.
Proof.
  intros Hm Hi Hin Hknown p.
  destruct (Hknown _ Hin) as [el Hel].
  assert (Hp : p ∉ children (tree s)).
  { intros [? Hx]%Hknown. unfold p in Hx. by rewrite new_element_unknown in Hx. }
  assert (Hne : target e ≠ p).
  { intros Heq. rewrite Heq in Hel. unfold p in Hel.
    by rewrite new_element_unknown in Hel. }
  apply list_elem_of_split_l in Hin as Hsplit. destruct Hsplit as (l1 & l2 & Hl & Hl1).
  unfold _onItemDragStart. rewrite decide_True, Hi by done. cbn [mbind option_bind].
  fields.
  unfold insertBefore. rewrite decide_True by done.
  assert (Hnew' : ∀ d, d = update (set_oldBefore (getPreviousItem (tree s) (target e)))
                             (tree s) (target e) →
                       new_element d = p).
  { intros d ->. unfold new_element, update. cbn [nodes]. unfold p, new_element.
    f_equal. apply set_eq. intros x. rewrite !elem_of_dom, !lookup_alter.
    case_decide; subst; rewrite ?Hel; cbn; [|done].
    split; intros [? ?]; eauto. }
  rewrite (Hnew' _ eq_refl).
  rewrite decide_False by done. cbn [mbind option_bind].
  eexists. split; [reflexivity|]. fields.
  assert (Hfield : ∀ A (f : Element → option A) (v : option A),
            (∀ el', f (set_dropPlaceholder (Some p)
                         (set_oldBefore (getPreviousItem (tree s) (target e)) el')) = v) →
            field f
              (mkDom (<[p := mkElement "CORAL-MASONRY-ITEM" {["_placeholder"]}
                                       {["_coral-Masonry-item--placeholder"]}
                                       None None None]>
                        (alter (set_dropPlaceholder (Some p)) (target e)
                           (alter (set_oldBefore (getPreviousItem (tree s) (target e)))
                                  (target e) (nodes (tree s)))))
                     (insert_at p (target e) (remove_child p (children (tree s)))))
              (target e) = v).
  { intros A f v Hf. unfold field. cbn [nodes].
    rewrite lookup_insert_ne by done. rewrite !lookup_alter_eq, Hel. cbn. apply Hf. }
  assert (Hch : insert_at p (target e) (remove_child p (children (tree s)))
                = l1 ++ p :: target e :: l2).
  { rewrite remove_child_notin by done. rewrite Hl. by apply insert_at_middle. }
  split_and!.
  - by apply Hfield.
  - by apply Hfield.
  - unfold hasAttribute. cbn [nodes]. rewrite lookup_insert_eq. cbn.
    apply bool_decide_eq_true. set_solver.
  - done.
  - exists l1, l2. split_and!; done.
  - intros q Hq _. fields. rewrite (Hfield _ _dropPlaceholder (Some p)) in Hq by done.
    injection Hq as <-. split; [|by eexists].
    rewrite Hch. set_solver.
Qed.

Lemma drag_start_inserts_placeholder_witness :
  ∃ s', _onItemDragStart (mkDragEvent 0 0) laid_out_masonry = Some s'
        ∧ field _dropPlaceholder (tree s') 0 = Some 3
        ∧ children (tree s') = [3; 0; 1; 2]
        ∧ drag_ready (mkDragEvent 0 0) s'.
Proof.
  destruct (drag_start_inserts_placeholder (mkDragEvent 0 0) laid_out_masonry
              (mkLayout "fixed-centered" []))
    as (s' & Hs' & Hp & _ & _ & _ & _ & Hready).
  - reflexivity.
  - reflexivity.
  - apply (bool_decide_unpack (0 ∈ [0; 1; 2])). vm_compute. exact I.
  - intros x Hx. apply (bool_decide_unpack (is_Some _)).
    apply list_elem_of_In in Hx.
    destruct Hx as [<-|[<-|[<-|[]]]]; vm_compute; exact I.
  - exists s'. split; [done|]. split; [done|]. split; [|done].
    vm_compute in Hs'. injection Hs' as <-. reflexivity.
Defined.

(** ** Further properties of the layout code *)

(** X3. A name that every object inherits from [Object.prototype], such as
    [constructor], passes the check of the layout setter although no layout
    is registered under it: it becomes the active layout name, nothing is
    logged, a layout is scheduled, and the layout run of the next frame
    raises. *)
Theorem inherited_name_passes_the_check (value : string) (s : t) :
  value ∈ Object_prototype → value ∉ __layouts s → _layout s ≠ Some value →
  _forceDebounce s = false → _layoutScheduled s = false → frameCallbacks s = [] →
  offsetParent s = true →
  let s' := set_layout value s in
  _layout s' = Some value
  ∧ logged s' = logged s
  ∧ frameCallbacks s' = [LayoutFrame]
  ∧ animation_frame s' = None.
Proof.
  intros Hin Hown Hactive Hforce Hsched Hcb Hvisible s'.
  assert (Hne : value ≠ "").
  { intros ->. revert Hin. apply (bool_decide_unpack ("" ∉ Object_prototype)).
    vm_compute. exact I. }
  assert (Hp : get_property (__layouts s) value = Inherited).
  { unfold get_property. by rewrite decide_False, decide_True. }
  assert (Hs' : s' = with_layoutScheduled true
                       (with_frameCallbacks [LayoutFrame] (with_layout (Some value) s))).
  { unfold s', set_layout. cbv zeta.
    destruct (decide (value = "")) as [|_]; [done|].
    change (to_key (Some value)) with value. rewrite Hp. cbn [truthy].
    rewrite decide_True by congruence.
    unfold _scheduleLayout. fields. by rewrite Hforce, Hsched, Hcb. }
  rewrite Hs'. split_and!; [done..|].
  unfold animation_frame, run_callback. fields. cbn [foldl mbind option_bind].
  unfold _doLayout, layout. fields. unfold str_or. rewrite decide_False by done.
  by rewrite Hp, Hforce, Hvisible.
Qed.

Lemma inherited_name_passes_the_check_witness :
  let s' := set_layout "constructor" laid_out_masonry in
  _layout s' = Some "constructor"
  ∧ logged s' = logged laid_out_masonry
  ∧ frameCallbacks s' = [LayoutFrame]
  ∧ animation_frame s' = None.
Proof.
  apply (inherited_name_passes_the_check "constructor" laid_out_masonry);
    try reflexivity; try discriminate.
  - apply (bool_decide_unpack ("constructor" ∈ Object_prototype)). vm_compute. exact I.
  - apply (bool_decide_unpack ("constructor" ∉ __layouts laid_out_masonry)).
    vm_compute. exact I.
Defined.

(** X4. When the active layout name is a registered one other than the name
    of the strategy instance at hand, the next layout run of a rendered
    masonry replaces the instance by a fresh one of the active name, which
    carries nothing over from the old one, and performs one layout pass. *)
Theorem layout_switch_builds_fresh_strategy (s : t) (i : LayoutInstance) :
  _layoutInstance s = Some i → name i ≠ layout s → lays_out s = true →
  ∃ s', _doLayout s = Some s'
        ∧ _layoutInstance s' = Some (mkLayout (layout s) [])
        ∧ layoutPasses s' = S (layoutPasses s)
        ∧ _layouted s' = true
        ∧ _newItems s' = [].
Proof.
  intros Hi Hname Hlays. unfold lays_out in Hlays.
  apply andb_true_iff in Hlays as [Hlays Hown].
  apply andb_true_iff in Hlays as [Hforce Hvisible].
  apply negb_true_iff in Hforce.
  unfold _doLayout. rewrite Hforce, Hvisible.
  destruct (get_property (__layouts s) (layout s)) as [cls| |]; [|done..].
  cbn [truthy negb orb]. rewrite Hi, decide_True by done.
  eexists. split; [reflexivity|]. by fields.
Qed.

Lemma layout_switch_builds_fresh_strategy_witness :
  let s := with_layout (Some "dashboard") variable_masonry in
  ∃ s', _doLayout s = Some s'
        ∧ _layoutInstance s' = Some (mkLayout "dashboard" [])
        ∧ layoutPasses s' = S (layoutPasses s)
        ∧ _layouted s' = true
        ∧ _newItems s' = [].
Proof.
  apply (layout_switch_builds_fresh_strategy
           (with_layout (Some "dashboard") variable_masonry) (mkLayout "variable" []));
    [reflexivity|discriminate|reflexivity].
Defined.

(** ** Further properties of the collection *)

(** X7. For a collection whose item selector has a first part that does not
    mention [[selected]], and a marker that is not empty ([selected] by
    default), the query behind [_getAllSelected] returns, in document
    order, the elements that match the first part and carry the marker,
    and the elements that match another part and carry [selected]: a given
    marker replaces [[selected]] in the first part of the selector only.
    (With the empty string as marker the selector text holds [[]], which
    the browser refuses.) *)
Theorem getAllSelected_lists_marked_items (c : Compound) (rest : Selector) (d : Dom)
    (selectedAttribute : option string) :
  plain c →
  selectedAttribute ≠ Some "" →
  SelectableCollection._getAllSelected (SelectableCollection.constructor (c :: rest)) d
                                       selectedAttribute
  = filter (λ id, (matches d [c] id = true
                   ∧ hasAttribute d id (default "selected" selectedAttribute) = true)
                  ∨ (matches d rest id = true ∧ hasAttribute d id "selected" = true))
           (children d).
Proof.
  intros Hc _. unfold SelectableCollection._getAllSelected, querySelectorAll.
  apply list_filter_iff. intros id.
  assert (Hsel : SelectableCollection.selected_selector
                   (SelectableCollection.constructor (c :: rest)) selectedAttribute
                 = (c ++ [HasAttr (default "selected" selectedAttribute)])
                   :: map (λ selector, selector ++ [HasAttr "selected"]) rest).
  { unfold SelectableCollection.selected_selector. destruct selectedAttribute as [a|]; [|done].
    cbn [SelectableCollection.constructor SelectableCollection._selectedItemSelector
         map replace_selected default].
    by rewrite replace_in_plain_compound. }
  rewrite Hsel. unfold matches, hasAttribute.
  destruct (nodes d !! id) as [e|]; [|split; [done|by intros [[]|[]]]].
  change (selector_matches (?x :: ?r) e) with (forallb (simple_matches e) x
                                                || selector_matches r e).
  rewrite selector_matches_suffix, forallb_app.
  cbn [forallb simple_matches selector_matches existsb].
  rewrite andb_true_r, orb_false_r, orb_true_iff, !andb_true_iff. done.
Qed.

Lemma getAllSelected_lists_marked_items_witness :
  SelectableCollection._getAllSelected
    (SelectableCollection.constructor Examples.two_part_selector)
    Examples.two_kinds (Some "active")
  = filter (λ id, (matches Examples.two_kinds
                     [[Opaque (λ e, bool_decide (tagName e = "CORAL-TAB"))]] id = true
                   ∧ hasAttribute Examples.two_kinds id (default "selected" (Some "active"))
                     = true)
                  ∨ (matches Examples.two_kinds
                       [[Opaque (λ e, bool_decide (tagName e = "CORAL-STEP"))]] id = true
                     ∧ hasAttribute Examples.two_kinds id "selected" = true))
           (children Examples.two_kinds).
Proof.
  apply (getAllSelected_lists_marked_items
           [Opaque (λ e, bool_decide (tagName e = "CORAL-TAB"))]
           [[Opaque (λ e, bool_decide (tagName e = "CORAL-STEP"))]]
           Examples.two_kinds (Some "active")).
  - repeat constructor; discriminate.
  - discriminate.
Defined.

(** ** Comparing and validating a selection *)

Lemma filter_none {A} (P : A → Prop) `{!∀ x, Decision (P x)} (l : list A) :
  (∀ x, x ∈ l → ¬ P x) → filter P l = [].
Proof.
  induction l as [|a l IH]; intros Hl; [done|].
  rewrite filter_cons_False by (apply Hl; by left).
  apply IH. intros x Hx. apply Hl. by right.
Qed.

Lemma filter_all {A} (P : A → Prop) `{!∀ x, Decision (P x)} (l : list A) :
  (∀ x, x ∈ l → P x) → filter P l = l.
Proof.
  induction l as [|a l IH]; intros Hl; [done|].
  rewrite filter_cons_True by (apply Hl; by left).
  f_equal. apply IH. intros x Hx. apply Hl. by right.
Qed.

Lemma arraysAreDifferent_refl (l : list nat) : _arraysAreDifferent l l = false.
Proof.
  unfold _arraysAreDifferent. rewrite decide_True by done.
  rewrite bool_decide_eq_true_2 by done. cbn [negb orb].
  rewrite filter_none by (intros x Hx Hn; done). done.
Qed.

Lemma arraysAreDifferent_false (selection oldSelection : list nat) :
  NoDup oldSelection →
  _arraysAreDifferent selection oldSelection = false → selection ≡ₚ oldSelection.
Proof.
  intros Hnd. unfold _arraysAreDifferent.
  intros Hd. apply orb_false_iff in Hd as [Hlen Hdiff].
  apply negb_false_iff, bool_decide_eq_true in Hlen.
  rewrite decide_True in Hdiff by done.
  apply negb_false_iff, bool_decide_eq_true in Hdiff.
  apply nil_length_inv in Hdiff.
  symmetry. apply submseteq_length_Permutation; [|lia].
  apply NoDup_submseteq; [done|].
  intros x Hx. destruct (decide (x ∈ selection)) as [|Hn]; [done|].
  exfalso. by apply (filter_nil_not_elem_of _ _ x Hdiff Hn).
Qed.

(** X9. [_arraysAreDifferent] compares two selections as sets, not as
    sequences: for a recorded selection without repetitions it answers
    [false] exactly when the new selection holds the same items, in any
    order. *)
Theorem arrays_differ_unless_permuted (selection oldSelection : list nat) :
  NoDup oldSelection →
  _arraysAreDifferent selection oldSelection = false ↔ selection ≡ₚ oldSelection.
Proof.
  intros Hnd. split; [by apply arraysAreDifferent_false|].
  intros Hp. apply Permutation_length in Hp as Hlen.
  unfold _arraysAreDifferent.
  rewrite decide_True by done. rewrite bool_decide_eq_true_2 by done.
  rewrite filter_none; [done|].
  intros x Hx Hn. apply Hn. by rewrite Hp.
Qed.

Lemma arrays_differ_unless_permuted_witness :
  _arraysAreDifferent [1; 2] [2; 1] = false ↔ [1; 2] ≡ₚ [2; 1].
Proof.
  apply (arrays_differ_unless_permuted [1; 2] [2; 1]).
  apply (bool_decide_unpack (NoDup [2; 1])). vm_compute. exact I.
Defined.

Lemma trigger_idemp (s : t) :
  _triggerChangeEvent (_triggerChangeEvent s) = _triggerChangeEvent s.
Proof.
  unfold _triggerChangeEvent at 2.
  destruct (negb (_preventTriggeringEvents s)
            && _arraysAreDifferent (selectedItems s) (_oldSelection s)) eqn:Hc.
  - unfold _triggerChangeEvent. fields.
    change (selectedItems (with_oldSelection ?a (with_triggered ?b s)))
      with (selectedItems s).
    by rewrite arraysAreDifferent_refl, andb_false_r, Hc.
  - unfold _triggerChangeEvent. by rewrite Hc.
Qed.

(** X10. The validator is idempotent: a second run with the same item right
    after the first changes nothing.  It clears no further item and
    dispatches no second change event, since the first run has recorded
    the selection it left. *)
Theorem validator_is_idempotent (item : option nat) (s : t) :
  NoDup (children (tree s)) →
  _validateSelection item (_validateSelection item s) = _validateSelection item s.
Proof.
  intros Hnd. set (s1 := _validateSelection item s).
  pose proof (validate_selectedItems item s Hnd) as Hsel. fold s1 in Hsel.
  assert (Hmode : selectionMode s1 = selectionMode s).
  { unfold selectionMode, s1. by rewrite validate_selectionMode. }
  assert (Hn : normalize_selection item s1 = s1).
  { unfold normalize_selection. rewrite Hmode.
    destruct (selectionMode s) eqn:Hm; [by rewrite Hsel| |done].
    destruct (or_else item (last (selectedItems s1))) as [it|] eqn:Hit; [|done].
    assert (hasAttribute (tree s1) it "selected"
            && bool_decide (1 < length (selectedItems s1)) = false) as ->; [|done].
    destruct (or_else item (last (selectedItems s))) as [it0|] eqn:Hit0.
    - destruct (hasAttribute (tree s) it0 "selected"
                && bool_decide (1 < length (selectedItems s))) eqn:Hc.
      + rewrite Hsel. rewrite bool_decide_eq_false_2; [apply andb_false_r|].
        destruct (decide _); simpl; lia.
      + assert (Htree : tree s1 = tree s).
        { unfold s1, _validateSelection, normalize_selection.
          by rewrite trigger_tree, Hm, Hit0, Hc. }
        rewrite Hsel in Hit |- *. rewrite Hit0 in Hit. injection Hit as <-.
        by rewrite Htree.
    - rewrite Hsel. destruct item as [?|]; [done|]. cbn [or_else] in Hit0.
      apply last_None in Hit0. rewrite Hit0. apply andb_false_r. }
  unfold _validateSelection at 1. rewrite Hn.
  unfold s1, _validateSelection. apply trigger_idemp.
Qed.

Lemma validator_is_idempotent_witness :
  let s := Examples.masonry (Examples.three_items ["selected"] ["selected"] [])
                            (Some SINGLE) in
  _validateSelection None (_validateSelection None s) = _validateSelection None s.
Proof.
  apply (validator_is_idempotent None
           (Examples.masonry (Examples.three_items ["selected"] ["selected"] [])
                             (Some SINGLE))).
  apply (bool_decide_unpack (NoDup [0; 1; 2])). vm_compute. exact I.
Defined.

(** ** Navigating the selectable items *)

Lemma while_sibling_head c d (l : list nat) :
  SelectableCollection.while_sibling c d l
  = head (filter (λ x, matches d (SelectableCollection._selectableItemSelector c) x = true) l).
Proof.
  induction l as [|x l IH]; [done|].
  cbn [SelectableCollection.while_sibling]. rewrite filter_cons.
  destruct (matches d _ x) eqn:Hx.
  - by rewrite decide_True.
  - by rewrite decide_False.
Qed.

Lemma filter_split {A} (P : A → Prop) `{!∀ x, Decision (P x)} (l l1 l2 : list A) (x : A) :
  filter P l = l1 ++ x :: l2 →
  ∃ c1 c2, l = c1 ++ x :: c2 ∧ filter P c1 = l1 ∧ filter P c2 = l2.
Proof.
  revert l1. induction l as [|y l IH]; intros l1 Hf.
  - by destruct l1.
  - rewrite filter_cons in Hf. destruct (decide (P y)) as [Hy|Hy].
    + destruct l1 as [|z l1]; injection Hf as -> Hf.
      * exists [], l. by split_and!.
      * destruct (IH _ Hf) as (c1 & c2 & -> & <- & <-).
        exists (z :: c1), c2. split_and!; [done| |done].
        by rewrite filter_cons_True.
    + destruct (IH _ Hf) as (c1 & c2 & -> & <- & <-).
      exists (y :: c1), c2. split_and!; [done| |done].
      by rewrite filter_cons_False.
Qed.

(** Where an element of the selectable list sits among the children. *)
Lemma selectable_split c d (l1 l2 : list nat) (item : nat) :
  NoDup (children d) →
  SelectableCollection._getSelectableItems c d = l1 ++ item :: l2 →
  ∃ c1 c2,
    SelectableCollection.previousElementSiblings d item = reverse c1
    ∧ SelectableCollection.nextElementSiblings d item = c2
    ∧ filter (λ x, matches d (SelectableCollection._selectableItemSelector c) x = true) c1
      = l1
    ∧ filter (λ x, matches d (SelectableCollection._selectableItemSelector c) x = true) c2
      = l2.
Proof.
  intros Hnd Hsel.
  apply filter_split in Hsel as (c1 & c2 & Hch & H1 & H2).
  exists c1, c2.
  assert (Hin : item ∉ c1).
  { rewrite Hch in Hnd. apply NoDup_app in Hnd as (_ & Hd & _).
    intros Hi. apply (Hd _ Hi). by left. }
  unfold SelectableCollection.previousElementSiblings,
    SelectableCollection.nextElementSiblings.
  rewrite Hch, list_find_eq_middle by done.
  split_and!; [|  |done..].
  - by rewrite take_app_length.
  - rewrite (cons_middle item c1 c2), app_assoc.
    apply drop_app_length'. rewrite length_app. simpl. lia.
Qed.

Lemma previous_selectable_in_list c d (l1 l2 : list nat) (item : nat) :
  NoDup (children d) →
  SelectableCollection._getSelectableItems c d = l1 ++ item :: l2 →
  SelectableCollection._getPreviousSelectable c d item = Some (default item (last l1)).
Proof.
  intros Hnd Hsel.
  destruct (selectable_split c d l1 l2 item Hnd Hsel) as (c1 & c2 & Hp & _ & H1 & _).
  unfold SelectableCollection._getPreviousSelectable.
  rewrite Hp, while_sibling_head, filter_reverse, head_reverse, H1.
  by destruct (last l1).
Qed.

Lemma next_selectable_in_list c d (l1 l2 : list nat) (item : nat) :
  NoDup (children d) →
  SelectableCollection._getSelectableItems c d = l1 ++ item :: l2 →
  SelectableCollection._getNextSelectable c d item = Some (default item (head l2)).
Proof.
  intros Hnd Hsel.
  destruct (selectable_split c d l1 l2 item Hnd Hsel) as (c1 & c2 & _ & Hn & _ & H2).
  unfold SelectableCollection._getNextSelectable.
  rewrite Hn, while_sibling_head, H2.
  by destruct (head l2).
Qed.

(** X11. Seen from a selectable item, [_getPreviousSelectable] and
    [_getNextSelectable] walk the list [_getSelectableItems] returns: they
    give the neighbour of the item in that list, and the item itself at
    either end.  So the first selectable item is its own predecessor and
    the last one its own successor: the navigation does not wrap around. *)
Theorem navigation_walks_the_selectable_items c d (l1 l2 : list nat) (item : nat) :
  NoDup (children d) →
  SelectableCollection._getSelectableItems c d = l1 ++ item :: l2 →
  SelectableCollection._getPreviousSelectable c d item = Some (default item (last l1))
  ∧ SelectableCollection._getNextSelectable c d item = Some (default item (head l2))
  ∧ (SelectableCollection._getFirstSelectable c d = Some item →
     SelectableCollection._getPreviousSelectable c d item = Some item)
  ∧ (SelectableCollection._getLastSelectable c d = Some item →
     SelectableCollection._getNextSelectable c d item = Some item).
Proof.
  intros Hnd Hsel.
  pose proof (previous_selectable_in_list c d l1 l2 item Hnd Hsel) as Hp.
  pose proof (next_selectable_in_list c d l1 l2 item Hnd Hsel) as Hn.
  assert (Hnd' : NoDup (l1 ++ item :: l2)).
  { rewrite <- Hsel. by apply NoDup_filter. }
  apply NoDup_app in Hnd' as (_ & Hd & [Hi _]%NoDup_cons).
  split_and!; [done..| |].
  - unfold SelectableCollection._getFirstSelectable.
    fold (SelectableCollection._getSelectableItems c d). rewrite Hsel.
    destruct l1 as [|z l1]; [done|].
    intros [= ->]. exfalso. apply (Hd item); by left.
  - unfold SelectableCollection._getLastSelectable.
    fold (SelectableCollection._getSelectableItems c d). rewrite Hsel, last_app_cons.
    destruct l2 as [|z l2]; [done|].
    rewrite last_cons_cons. intros Hl. apply last_Some_elem_of in Hl. done.
Qed.

Lemma navigation_walks_the_selectable_items_witness :
  let c := SelectableCollection.constructor Examples.item_selector in
  let d := Examples.three_items [] ["disabled"] [] in
  SelectableCollection._getPreviousSelectable c d 2 = Some 0
  ∧ SelectableCollection._getNextSelectable c d 2 = Some 2
  ∧ (SelectableCollection._getFirstSelectable c d = Some 2 →
     SelectableCollection._getPreviousSelectable c d 2 = Some 2)
  ∧ (SelectableCollection._getLastSelectable c d = Some 2 →
     SelectableCollection._getNextSelectable c d 2 = Some 2).
Proof.
  apply (navigation_walks_the_selectable_items
           (SelectableCollection.constructor Examples.item_selector)
           (Examples.three_items [] ["disabled"] []) [0] [] 2).
  - apply (bool_decide_unpack (NoDup [0; 1; 2])). vm_compute. exact I.
  - vm_compute. reflexivity.
Defined.

(** X12. Among selectable items the two moves undo each other: when
    [_getNextSelectable] takes a selectable item to another element,
    [_getPreviousSelectable] takes that element back to the item, and the
    other way round. *)
Theorem next_and_previous_undo_each_other c d (item r : nat) :
  NoDup (children d) →
  item ∈ SelectableCollection._getSelectableItems c d →
  r ≠ item →
  (SelectableCollection._getNextSelectable c d item = Some r →
   SelectableCollection._getPreviousSelectable c d r = Some item)
  ∧ (SelectableCollection._getPreviousSelectable c d item = Some r →
     SelectableCollection._getNextSelectable c d r = Some item).
Proof.
  intros Hnd Hin Hne.
  apply list_elem_of_split in Hin as (l1 & l2 & Hsel). split.
  - rewrite (next_selectable_in_list c d l1 l2 item Hnd Hsel).
    destruct l2 as [|z l2]; intros [= <-]; [done|].
    rewrite (previous_selectable_in_list c d (l1 ++ [item]) l2 z Hnd).
    + by rewrite last_snoc.
    + by rewrite <- app_assoc.
  - rewrite (previous_selectable_in_list c d l1 l2 item Hnd Hsel).
    destruct (last l1) as [z|] eqn:Hl; intros [= <-]; [|done].
    apply last_Some in Hl as [l1' ->].
    rewrite (next_selectable_in_list c d l1' (item :: l2) z Hnd); [done|].
    by rewrite Hsel, <- app_assoc.
Qed.

Lemma next_and_previous_undo_each_other_witness :
  let c := SelectableCollection.constructor Examples.item_selector in
  let d := Examples.three_items [] ["disabled"] [] in
  (SelectableCollection._getNextSelectable c d 0 = Some 2 →
   SelectableCollection._getPreviousSelectable c d 2 = Some 0)
  ∧ (SelectableCollection._getPreviousSelectable c d 0 = Some 2 →
     SelectableCollection._getNextSelectable c d 2 = Some 0).
Proof.
  apply (next_and_previous_undo_each_other
           (SelectableCollection.constructor Examples.item_selector)
           (Examples.three_items [] ["disabled"] []) 0 2).
  - apply (bool_decide_unpack (NoDup [0; 1; 2])). vm_compute. exact I.
  - apply (bool_decide_unpack (0 ∈ [0; 2])). vm_compute. exact I.
  - discriminate.
Defined.

(** ** Keeping the first or the last selected item *)

Lemma foldl_removeAttribute_clear (m : string) (items : list nat) (d : Dom) :
  foldl (λ d item, removeAttribute d item m) d items = clear_except None m d items.
Proof.
  unfold clear_except. revert d.
  induction items as [|i items IH]; intros d; [done|].
  cbn [foldl]. rewrite IH. by destruct (decide (None = Some i)).
Qed.

Lemma selector_requires_marker (m : string) (sel : Selector) (e : Element) :
  requires_marker m sel →
  selector_matches sel (with_attributes (λ s, s ∖ {[m]}) e) = false.
Proof.
  unfold selector_matches.
  induction 1 as [|part sel Hpart _ IH]; [done|].
  cbn [existsb]. rewrite IH, orb_false_r.
  apply not_true_is_false. intros Hall.
  rewrite forallb_forall in Hall.
  apply list_elem_of_In, Hall in Hpart.
  cbn [simple_matches with_attributes attributes] in Hpart.
  apply bool_decide_eq_true in Hpart. set_solver.
Qed.

(** The query after the marker has gone from [items]. *)
Lemma query_after_clear (m : string) (sel : Selector) (items : list nat) (d : Dom) :
  requires_marker m sel →
  querySelectorAll (clear_except None m d items) sel
  = filter (λ id, id ∉ items) (querySelectorAll d sel).
Proof.
  intros Hreq. unfold querySelectorAll.
  rewrite foldl_removeAttribute_children, list_filter_filter.
  apply list_filter_iff. intros id.
  unfold matches. rewrite foldl_removeAttribute_nodes.
  destruct (decide (id ∈ items)) as [Hin|Hin].
  - rewrite decide_True by done.
    split; [|by intros [? _]].
    destruct (nodes d !! id) as [e|]; [|done].
    cbn [fmap option_fmap option_map]. by rewrite selector_requires_marker.
  - rewrite decide_False by (by intros [? _]). tauto.
Qed.

Lemma filter_notin_app (l1 l2 : list nat) :
  NoDup (l1 ++ l2) →
  filter (λ x, x ∉ l2) (l1 ++ l2) = l1 ∧ filter (λ x, x ∉ l1) (l1 ++ l2) = l2.
Proof.
  intros (_ & Hd & _)%NoDup_app. rewrite !filter_app. split.
  - rewrite filter_all by done.
    rewrite filter_none by (intros x Hx Hn; done).
    apply app_nil_r.
  - rewrite filter_none by (intros x Hx Hn; done).
    rewrite filter_all; [done|].
    intros x Hx Hn. by apply (Hd x).
Qed.

Lemma filter_notin_drop (n : nat) (q : list nat) :
  NoDup q → filter (λ x, x ∉ drop n q) q = take n q.
Proof.
  intros Hnd. pose proof (filter_notin_app (take n q) (drop n q)) as H.
  rewrite take_drop in H. by apply H.
Qed.

Lemma filter_notin_take (n : nat) (q : list nat) :
  NoDup q → filter (λ x, x ∉ take n q) q = drop n q.
Proof.
  intros Hnd. pose proof (filter_notin_app (take n q) (drop n q)) as H.
  rewrite take_drop in H. by apply H.
Qed.

(** The selector the collection builds asks for [selected] in every part. *)
Lemma constructor_requires_selected (allItems : Selector) :
  requires_marker "selected"
    (SelectableCollection._deselectAllExceptSelector
       (SelectableCollection.constructor allItems)).
Proof.
  unfold requires_marker. cbn [SelectableCollection.constructor
    SelectableCollection._deselectAllExceptSelector].
  apply Forall_map, Forall_forall. intros part _. cbn. set_solver.
Qed.

(** X13. When every part of the selector they query asks for the marker (as
    it does for the default marker [selected]), [_deselectAllExceptFirst]
    leaves the first match of the query as the only match and
    [_deselectAllExceptLast] the last one; no element but the other matches
    is touched and the order of the children stays. *)
Theorem deselect_keeps_first_or_last (c : SelectableCollection.t) (d : Dom)
    (selectedAttribute : option string) (sel : Selector) :
  NoDup (children d) →
  SelectableCollection.deselect_selector c selectedAttribute = Some sel →
  requires_marker (SelectableCollection.attributeToRemove selectedAttribute) sel →
  let q := querySelectorAll d sel in
  (∃ d', SelectableCollection._deselectAllExceptFirst c d selectedAttribute = Some d'
         ∧ children d' = children d
         ∧ querySelectorAll d' sel = option_list (head q)
         ∧ ∀ id, id ∉ drop 1 q → nodes d' !! id = nodes d !! id)
  ∧ (∃ d', SelectableCollection._deselectAllExceptLast c d selectedAttribute = Some d'
           ∧ children d' = children d
           ∧ querySelectorAll d' sel = option_list (last q)
           ∧ ∀ id, id ∉ take (length q - 1) q → nodes d' !! id = nodes d !! id).
Proof.
  intros Hnd Hsel Hreq q.
  assert (Hq : NoDup q) by (by apply NoDup_filter).
  split.
  - unfold SelectableCollection._deselectAllExceptFirst. rewrite Hsel.
    cbn [mbind option_bind]. fold q. rewrite foldl_removeAttribute_clear.
    eexists. split; [reflexivity|]. split_and!.
    + apply foldl_removeAttribute_children.
    + rewrite query_after_clear by done. fold q.
      rewrite filter_notin_drop by done. by destruct q.
    + intros id Hid. rewrite foldl_removeAttribute_nodes.
      rewrite decide_False; [done|]. by intros [? _].
  - unfold SelectableCollection._deselectAllExceptLast. rewrite Hsel.
    cbn [mbind option_bind]. fold q. rewrite foldl_removeAttribute_clear.
    eexists. split; [reflexivity|]. split_and!.
    + apply foldl_removeAttribute_children.
    + rewrite query_after_clear by done. fold q.
      rewrite filter_notin_take by done.
      clear. induction q as [|x [|y q] IH]; [done..|].
      rewrite last_cons_cons, <- IH. simpl. by rewrite Nat.sub_0_r.
    + intros id Hid. rewrite foldl_removeAttribute_nodes.
      rewrite decide_False; [done|]. by intros [? _].
Qed.

Lemma deselect_keeps_first_or_last_witness :
  let d := Examples.three_items ["selected"] ["selected"] ["selected"] in
  (∃ d', SelectableCollection._deselectAllExceptFirst Masonry.items d None = Some d'
         ∧ querySelectorAll d' selected_selector = [0])
  ∧ (∃ d', SelectableCollection._deselectAllExceptLast Masonry.items d None = Some d'
           ∧ querySelectorAll d' selected_selector = [2]).
Proof.
  destruct (deselect_keeps_first_or_last Masonry.items
              (Examples.three_items ["selected"] ["selected"] ["selected"]) None
              selected_selector)
    as [(d1 & H1 & _ & Hq1 & _) (d2 & H2 & _ & Hq2 & _)].
  - apply (bool_decide_unpack (NoDup [0; 1; 2])). vm_compute. exact I.
  - reflexivity.
  - apply constructor_requires_selected.
  - split; [exists d1|exists d2]; (split; [done|]).
    + rewrite Hq1. vm_compute. reflexivity.
    + rewrite Hq2. vm_compute. reflexivity.
Defined.

(** X8. The empty string as marker name.  [_deselectAllExcept] treats it as
    [selected], in either argument position; [_deselectAllExceptFirst] and
    [_deselectAllExceptLast] put it into the selector as it is and raise. *)
Theorem empty_marker_name (c : SelectableCollection.t) (d : Dom) (item : nat) :
  SelectableCollection._deselectAllExcept c d (SelectableCollection.Str "") None
  = SelectableCollection._deselectAllExcept c d SelectableCollection.Absent None
  ∧ SelectableCollection._deselectAllExcept c d (SelectableCollection.Elem item) (Some "")
    = SelectableCollection._deselectAllExcept c d (SelectableCollection.Elem item) None
  ∧ SelectableCollection._deselectAllExceptFirst c d (Some "") = None
  ∧ SelectableCollection._deselectAllExceptLast c d (Some "") = None.
Proof.
  unfold SelectableCollection._deselectAllExcept, SelectableCollection.deselect_locals.
  change (str_or "" "selected") with "selected".
  rewrite replace_selected_same. done.
Qed.

(** ** Frames, timeouts and layout passes *)

Ltac more_fields :=
  cbn [component _spacing _attaching _debounceId timeouts nextTimeout with_component
       with_forceDebounce
       tree _selectionMode _preventTriggeringEvents _oldSelection triggered logged
       __layouts _layout _layoutInstance _layoutScheduled _forceDebounce _layouted
       _newItems offsetParent frameCallbacks layoutPasses
       with_tree with_selectionMode with_preventTriggeringEvents with_oldSelection
       with_triggered with_logged with_layouts with_layout with_layoutInstance
       with_layoutScheduled with_layouted with_newItems with_frameCallbacks
       with_layoutPasses with_children with_element update children nodes] in *.

Lemma scheduleLayout_ok (s : t) :
  frames_ok s →
  frames_ok (_scheduleLayout s)
  ∧ _forceDebounce (_scheduleLayout s) = _forceDebounce s
  ∧ layoutPasses (_scheduleLayout s) = layoutPasses s.
Proof.
  unfold frames_ok, _scheduleLayout. intros Hf.
  destruct (_forceDebounce s) eqn:Hd, (_layoutScheduled s) eqn:Hs; cbn [negb andb];
    fields; rewrite ?Hs, ?Hf, ?Hd; done.
Qed.

Lemma set_layout_ok (value : string) (s : t) :
  frames_ok s →
  frames_ok (set_layout value s)
  ∧ _forceDebounce (set_layout value s) = _forceDebounce s
  ∧ layoutPasses (set_layout value s) = layoutPasses s.
Proof.
  intros Hf. unfold set_layout. cbv zeta.
  set (v := if decide (value = "") then head (__layouts s) else Some value).
  case_decide; [|done].
  destruct (truthy (get_property (__layouts s) (to_key v))); [|done].
  by apply (scheduleLayout_ok (with_layout v s)).
Qed.

Lemma doLayout_keeps (s s' : t) :
  _doLayout s = Some s' →
  _forceDebounce s' = _forceDebounce s
  ∧ offsetParent s' = offsetParent s
  ∧ __layouts s' = __layouts s
  ∧ _layout s' = _layout s.
Proof.
  unfold _doLayout.
  destruct (_ || _); [by intros [= <-]|].
  destruct (get_property _ _); [|done..].
  destruct (_layoutInstance s) as [i|]; [case_decide|]; intros [= <-]; done.
Qed.

Lemma doLayout_ok (s s' : t) :
  _doLayout s = Some s' →
  frames_ok s →
  frames_ok s'
  ∧ _forceDebounce s' = _forceDebounce s
  ∧ layoutPasses s ≤ layoutPasses s'.
Proof.
  intros Hd Hf. pose proof (doLayout_passes s) as Hp. rewrite Hd in Hp.
  destruct Hp as (Hp & Hs & Hc).
  destruct (doLayout_keeps s s' Hd) as (Hforce & _).
  unfold frames_ok in *. rewrite Hs, Hc. split_and!; [done..|lia].
Qed.

Lemma doLayout_lays_out (s : t) :
  lays_out s = true →
  ∃ s', _doLayout s = Some s'
        ∧ layoutPasses s' = S (layoutPasses s)
        ∧ _layoutScheduled s' = _layoutScheduled s
        ∧ frameCallbacks s' = frameCallbacks s
        ∧ _layouted s' = true
        ∧ lays_out s' = true.
Proof.
  intros Hl. pose proof (doLayout_passes s) as Hp. rewrite Hl in Hp.
  destruct (_doLayout s) as [s'|] eqn:Hd.
  - exists s'. destruct Hp as (Hp & Hs & Hc).
    destruct (doLayout_keeps s s' Hd) as (Hforce & Hvis & Hreg & Hname).
    split_and!; [done|lia|done..| |].
    + revert Hd Hl. unfold _doLayout, lays_out.
      destruct (_forceDebounce s), (offsetParent s),
        (get_property (__layouts s) (layout s)); cbn; try done.
      destruct (_layoutInstance s) as [i|]; [case_decide|]; by intros [= <-].
    + revert Hl. unfold lays_out, layout. by rewrite Hforce, Hvis, Hreg, Hname.
  - exfalso. destruct Hp as (_ & _ & Hp). revert Hl. unfold lays_out.
    rewrite Hp, andb_false_r. done.
Qed.

Lemma with_frameCallbacks_same (s : t) : with_frameCallbacks (frameCallbacks s) s = s.
Proof. by destruct s. Qed.

Lemma animation_frame_ok (s s' : t) :
  frames_ok s →
  animation_frame s = Some s' →
  frames_ok s'
  ∧ _forceDebounce s' = _forceDebounce s
  ∧ layoutPasses s ≤ layoutPasses s'.
Proof.
  unfold frames_ok, animation_frame. intros Hf.
  destruct (_layoutScheduled s) eqn:Hs; rewrite Hf; cbn [foldl mbind option_bind].
  - unfold run_callback. fields. rewrite Hs.
    destruct (_doLayout (with_frameCallbacks [] s)) as [s1|] eqn:Hd; [|done].
    cbn [mbind option_bind]. intros [= <-].
    pose proof (doLayout_passes (with_frameCallbacks [] s)) as Hp. rewrite Hd in Hp.
    destruct Hp as (Hp & _ & Hc).
    destruct (doLayout_keeps _ _ Hd) as (Hforce & _).
    fields. rewrite Hc. split_and!; [done..|lia].
  - intros [= <-]. fields. by rewrite Hs.
Qed.

Lemma foldl_layout_step_None (ops : list LayoutOp) :
  foldl (λ o op, w ← o; layout_step w op) None ops = None.
Proof. induction ops as [|op ops IH]; [done|]. apply IH. Qed.

Lemma layout_step_ok (w w' : Resizable) (op : LayoutOp) :
  schedule_ok w → layout_step w op = Some w' →
  schedule_ok w' ∧ layoutPasses (component w) ≤ layoutPasses (component w').
Proof.
  intros (Hf & Ht & Hforce).
  assert (Hdebounce : ∀ force,
            schedule_ok (_scheduleDebouncedLayout force w)
            ∧ layoutPasses (component w)
              ≤ layoutPasses (component (_scheduleDebouncedLayout force w))).
  { intros force. unfold schedule_ok, _scheduleDebouncedLayout. more_fields.
    assert (Hclear : clearTimeout (_debounceId w) (timeouts w) = []).
    { destruct Ht as [->|(id & -> & ->)]; [by destruct (_debounceId w)|].
      cbn [clearTimeout]. by rewrite filter_cons_False, filter_nil by (by intros ?). }
    rewrite Hclear. cbn [app].
    split; [|by destruct (force && _)].
    split_and!.
    - by destruct (force && _).
    - right. by eexists.
    - done. }
  destruct op as [|value|value|item| | |id|]; cbn [layout_step].
  - intros [= <-]. more_fields.
    destruct (scheduleLayout_ok (component w) Hf) as (Hf' & Hforce' & Hp).
    unfold schedule_ok. more_fields. rewrite Hforce', Hp. by split_and!.
  - intros [= <-]. more_fields.
    destruct (set_layout_ok value (component w) Hf) as (Hf' & Hforce' & Hp).
    unfold schedule_ok. more_fields. rewrite Hforce', Hp. by split_and!.
  - intros [= <-]. unfold set_spacing. more_fields.
    destruct (scheduleLayout_ok (component w) Hf) as (Hf' & Hforce' & Hp).
    unfold schedule_ok. more_fields. rewrite Hforce', Hp. by split_and!.
  - unfold _onItemAdded. cbv zeta.
    set (s := with_newItems (_newItems (component w) ++ [item]) (component w)).
    assert (Hs : frames_ok s) by done.
    destruct (_attaching w && _).
    + destruct (_doLayout s) as [s1|] eqn:Hd; [|done].
      cbn [mbind option_bind]. intros [= <-].
      destruct (doLayout_ok s s1 Hd Hs) as (Hf' & Hforce' & Hp).
      unfold schedule_ok. more_fields. rewrite Hforce'. by split_and!.
    + intros [= <-]. unfold schedule_ok. more_fields. by split_and!.
  - unfold _onResize. destruct (negb _).
    + destruct (_doLayout (component w)) as [s1|] eqn:Hd; [|done].
      cbn [mbind option_bind]. intros [= <-].
      destruct (doLayout_ok _ s1 Hd Hf) as (Hf' & Hforce' & Hp).
      unfold schedule_ok. more_fields. rewrite Hforce'. by split_and!.
    + intros [= <-]. apply Hdebounce.
  - intros [= <-]. apply Hdebounce.
  - intros [= <-]. unfold timeout_fires.
    destruct (decide (id ∈ timeouts w)) as [Hin|]; [|by split].
    unfold debounce_timeout. more_fields.
    destruct (scheduleLayout_ok (with_forceDebounce false (component w)) Hf)
      as (Hf' & Hforce' & Hp).
    unfold schedule_ok. more_fields. rewrite Hforce', Hp. more_fields.
    split; [|done]. split_and!; [done| |done].
    left. destruct Ht as [Ht|(id' & _ & Ht)]; rewrite Ht in Hin |- *; [done|].
    apply list_elem_of_singleton in Hin as ->.
    by rewrite filter_cons_False, filter_nil by (by intros ?).
  - unfold frame.
    destruct (animation_frame (component w)) as [s1|] eqn:Ha; [|done].
    cbn [mbind option_bind]. intros [= <-].
    destruct (animation_frame_ok _ _ Hf Ha) as (Hf' & Hforce' & Hp).
    unfold schedule_ok. more_fields. rewrite Hforce'. by split_and!.
Qed.

(** X15. Whatever happens to the layout of a masonry (records of the
    mutation observer, new layout names and spacings, added items, resizes
    of the element and of the window, timeouts running out, animation
    frames, in any order) at most one frame callback and at most one
    debounce timeout are waiting at any time; whenever the forced debounce
    is on, the timeout that ends it is waiting, so it cannot stay on for
    good; and the number of layout passes never goes down. *)
Theorem schedule_stays_consistent (w w' : Resizable) (ops : list LayoutOp) :
  schedule_ok w →
  layout_run w ops = Some w' →
  schedule_ok w' ∧ layoutPasses (component w) ≤ layoutPasses (component w').
Proof.
  unfold layout_run. revert w.
  induction ops as [|op ops IH]; intros w Hok.
  - intros [= <-]. by split.
  - cbn [foldl mbind option_bind].
    destruct (layout_step w op) as [w1|] eqn:Hstep;
      [|by rewrite foldl_layout_step_None].
    intros Hrun. destruct (layout_step_ok w w1 op Hok Hstep) as [Hok1 Hp1].
    destruct (IH w1 Hok1 Hrun) as [Hok' Hp']. split; [done|lia].
Qed.

Lemma schedule_stays_consistent_witness :
  ∃ w', layout_run (constructed (Examples.three_items [] [] []))
                   [SetLayout "variable"; ElementResize; WindowResize; Mutation;
                    WindowResize; Frame; Timeout 2; Frame] = Some w'
        ∧ schedule_ok w'
        ∧ layoutPasses (component (constructed (Examples.three_items [] [] [])))
          ≤ layoutPasses (component w').
Proof.
  eexists. split; [vm_compute; reflexivity|].
  apply (schedule_stays_consistent (constructed (Examples.three_items [] [] [])) _
           [SetLayout "variable"; ElementResize; WindowResize; Mutation;
            WindowResize; Frame; Timeout 2; Frame]).
  - unfold schedule_ok, frames_ok. split_and!; [reflexivity|by left|done].
  - vm_compute. reflexivity.
Defined.

Lemma window_resizes_S (n : nat) (w : Resizable) :
  _layouted (component w) = true →
  timeouts w = [] ∨ (∃ id, _debounceId w = Some id ∧ timeouts w = [id]) →
  window_resizes (S n) w
  = mkResizable (with_forceDebounce true (component w)) (_spacing w) (_attaching w)
                (Some (nextTimeout w + n)) [nextTimeout w + n] (S (nextTimeout w + n)).
Proof.
  revert w. induction n as [|n IH]; intros w Hl Ht.
  - cbn [window_resizes]. unfold _onWindowResize, _scheduleDebouncedLayout.
    rewrite Hl, Nat.add_0_r. cbn [andb]. f_equal.
    destruct Ht as [->|(id & -> & ->)]; [by destruct (_debounceId w)|].
    cbn [clearTimeout]. by rewrite filter_cons_False, filter_nil by (by intros ?).
  - change (window_resizes (S (S n)) w) with (window_resizes (S n) (_onWindowResize w)).
    pose proof (IH w Hl Ht) as H1.
    change (window_resizes 1 w) with (_onWindowResize w) in H1.
    assert (H0 : _onWindowResize w
                 = mkResizable (with_forceDebounce true (component w)) (_spacing w)
                     (_attaching w) (Some (nextTimeout w)) [nextTimeout w]
                     (S (nextTimeout w))).
    { unfold _onWindowResize, _scheduleDebouncedLayout.
      rewrite Hl. cbn [andb]. f_equal.
      destruct Ht as [->|(id & -> & ->)]; [by destruct (_debounceId w)|].
      cbn [clearTimeout]. by rewrite filter_cons_False, filter_nil by (by intros ?). }
    rewrite IH.
    + rewrite H0. more_fields. by rewrite Nat.add_succ_r.
    + by rewrite H0.
    + right. rewrite H0. by eexists.
Qed.

(** The frame after a timeout or a signal has scheduled a layout. *)
Lemma frame_after_schedule (s : t) :
  _forceDebounce s = false → _layoutScheduled s = false → frameCallbacks s = [] →
  lays_out s = true →
  ∃ s', animation_frame (_scheduleLayout s) = Some s'
        ∧ layoutPasses s' = S (layoutPasses s)
        ∧ _forceDebounce s' = false
        ∧ _layoutScheduled s' = false
        ∧ frameCallbacks s' = [].
Proof.
  intros Hforce Hsched Hcb Hl.
  unfold _scheduleLayout. rewrite Hforce, Hsched, Hcb. cbn [negb andb app].
  unfold animation_frame, run_callback. fields. cbn [foldl mbind option_bind].
  destruct (doLayout_lays_out
              (with_frameCallbacks []
                 (with_layoutScheduled true (with_frameCallbacks [LayoutFrame] s))))
    as (s1 & Hd & Hp & _ & Hc & _); [done|].
  destruct (doLayout_keeps _ _ Hd) as (Hf1 & _).
  rewrite Hd. cbn [mbind option_bind]. eexists. split; [reflexivity|]. fields.
  by rewrite Hp, Hf1, Hc.
Qed.

(** X16. A burst of resize events of the window on a masonry that has been
    laid out leads to one layout pass.  After the burst one timeout is
    waiting, the last one set, and the forced debounce is on: until that
    timeout runs out, scheduling a layout does nothing, a frame does
    nothing and even a direct layout run positions nothing.  When the
    timeout runs out it ends the forced debounce and schedules a layout,
    and the next frame performs exactly one pass. *)
Theorem resize_burst_lays_out_once (n : nat) (w : Resizable) :
  let s := component w in
  _layouted s = true → lays_out s = true →
  _layoutScheduled s = false → frameCallbacks s = [] → timeouts w = [] →
  let w1 := window_resizes (S n) w in
  let id := nextTimeout w + n in
  timeouts w1 = [id]
  ∧ component w1 = with_forceDebounce true s
  ∧ (∀ k, signals k (component w1) = component w1)
  ∧ _doLayout (component w1) = Some (component w1)
  ∧ frame w1 = Some w1
  ∧ (∀ id', id' ≠ id → timeout_fires id' w1 = w1)
  ∧ ∃ w2, layout_run w1 [Timeout id; Frame] = Some w2
          ∧ layoutPasses (component w2) = S (layoutPasses s)
          ∧ _forceDebounce (component w2) = false
          ∧ _layoutScheduled (component w2) = false
          ∧ frameCallbacks (component w2) = []
          ∧ timeouts w2 = [].
Proof.
  intros s Hlayouted Hl Hsched Hcb Ht w1 id.
  assert (Hw1 : w1 = mkResizable (with_forceDebounce true s) (_spacing w) (_attaching w)
                                 (Some id) [id] (S id)).
  { unfold w1. rewrite window_resizes_S; [done..|by left]. }
  assert (Hforce : _forceDebounce s = false).
  { revert Hl. unfold lays_out. by destruct (_forceDebounce s). }
  rewrite Hw1. more_fields. split_and!; [done..| | | | |].
  - intros k. induction k as [|k IH]; [done|]. cbn [signals].
    unfold _scheduleLayout at 1. by more_fields.
  - unfold _doLayout. by more_fields.
  - unfold frame, animation_frame. more_fields. rewrite Hcb.
    cbn [foldl mbind option_bind].
    replace [] with (frameCallbacks (with_forceDebounce true s)) by done.
    by rewrite with_frameCallbacks_same.
  - intros id' Hne. unfold timeout_fires. more_fields.
    rewrite decide_False; [done|]. by intros ->%list_elem_of_singleton.
  - unfold layout_run. cbn [foldl mbind option_bind layout_step].
    unfold timeout_fires. more_fields.
    rewrite decide_True by (by apply list_elem_of_singleton).
    rewrite filter_cons_False, filter_nil by (by intros ?).
    unfold debounce_timeout, frame. more_fields.
    change (with_forceDebounce false (with_forceDebounce true s))
      with (with_forceDebounce false s).
    destruct (frame_after_schedule (with_forceDebounce false s))
      as (s2 & Hs2 & Hp & Hf2 & Hsch2 & Hcb2); [done..| |].
    { revert Hl. unfold lays_out. by rewrite Hforce. }
    rewrite Hs2. cbn [mbind option_bind]. eexists. split; [reflexivity|].
    more_fields. by rewrite Hp, Hf2, Hsch2, Hcb2.
Qed.

Lemma resize_burst_lays_out_once_witness :
  let w1 := window_resizes 5 laid_out in
  timeouts w1 = [5]
  ∧ _doLayout (component w1) = Some (component w1)
  ∧ ∃ w2, layout_run w1 [Timeout 5; Frame] = Some w2
          ∧ layoutPasses (component w2) = 2.
Proof.
  destruct (resize_burst_lays_out_once 4 laid_out)
    as (Ht & _ & _ & Hd & _ & _ & w2 & Hrun & Hp & _); try reflexivity.
  split; [exact Ht|]. split; [exact Hd|]. exists w2. split; [exact Hrun|exact Hp].
Defined.

(** X17. A layout run forced while a layout is scheduled does not cancel
    the scheduled one.  On a rendered masonry that has not been laid out
    yet, a signal followed by a resize of the element and then by the
    frame gives two layout passes: [_onResize] runs the layout at once and
    leaves [_layoutScheduled] set, so the frame callback runs it again. *)
Theorem forced_layout_keeps_the_scheduled_one (w : Resizable) :
  let s := component w in
  _layouted s = false → lays_out s = true →
  _layoutScheduled s = false → frameCallbacks s = [] →
  ∃ w1 w2,
    layout_run w [Mutation; ElementResize] = Some w1
    ∧ layoutPasses (component w1) = S (layoutPasses s)
    ∧ _layoutScheduled (component w1) = true
    ∧ frame w1 = Some w2
    ∧ layoutPasses (component w2) = S (S (layoutPasses s))
    ∧ _layoutScheduled (component w2) = false.
Proof.
  intros s Hlayouted Hl Hsched Hcb.
  assert (Hforce : _forceDebounce s = false).
  { revert Hl. unfold lays_out. by destruct (_forceDebounce s). }
  unfold layout_run. cbn [foldl mbind option_bind layout_step].
  unfold _onResize. more_fields.
  assert (Hs1 : _scheduleLayout (component w)
                = with_layoutScheduled true (with_frameCallbacks [LayoutFrame] s)).
  { unfold _scheduleLayout. fold s. by rewrite Hforce, Hsched, Hcb. }
  rewrite Hs1. more_fields. rewrite Hlayouted. cbn [negb].
  destruct (doLayout_lays_out
              (with_layoutScheduled true (with_frameCallbacks [LayoutFrame] s)))
    as (s1 & Hd & Hp & Hsch & Hc & _ & Hl1); [done|].
  rewrite Hd. cbn [mbind option_bind].
  more_fields.
  destruct (doLayout_lays_out (with_frameCallbacks [] s1))
    as (s2 & Hd2 & Hp2 & _); [done|].
  exists (with_component s1 w), (with_component (with_layoutScheduled false s2) w).
  split_and!; [done..| | |done]; more_fields.
  - unfold frame, animation_frame. more_fields. rewrite Hc.
    cbn [foldl mbind option_bind]. unfold run_callback. more_fields.
    by rewrite Hsch, Hd2.
  - rewrite Hp2. more_fields. by rewrite Hp.
Qed.

Lemma forced_layout_keeps_the_scheduled_one_witness :
  let w := constructed (Examples.three_items [] [] []) in
  ∃ w1 w2,
    layout_run w [Mutation; ElementResize] = Some w1
    ∧ layoutPasses (component w1) = 1
    ∧ _layoutScheduled (component w1) = true
    ∧ frame w1 = Some w2
    ∧ layoutPasses (component w2) = 2
    ∧ _layoutScheduled (component w2) = false.
Proof.
  apply (forced_layout_keeps_the_scheduled_one
           (constructed (Examples.three_items [] [] []))); reflexivity.
Defined.

(** ** The spacing *)

Lemma SFcompare_refl (x : SpecFloat.spec_float) :
  x ≠ SpecFloat.S754_nan → SpecFloat.SFcompare x x = Some Eq.
Proof.
  destruct x as [s|s| |s m e]; simpl; try done; intros _.
  - by destruct s.
  - destruct s; by rewrite Z.compare_refl, Pos.compare_cont_refl.
Qed.

(** A number above zero is a number, and it is truthy. *)
Lemma float_positive_truthy (x : float) :
  PrimFloat.ltb 0 x = true → PrimFloat.is_nan x = false ∧ falsy x = false.
Proof.
  intros Hlt.
  assert (Hc : SpecFloat.SFcompare (FloatOps.Prim2SF 0) (FloatOps.Prim2SF x) = Some Lt).
  { revert Hlt. rewrite FloatAxioms.ltb_spec. unfold SpecFloat.SFltb.
    by destruct (SpecFloat.SFcompare _ _) as [[]|]. }
  assert (Hnan : PrimFloat.is_nan x = false).
  { unfold PrimFloat.is_nan. rewrite FloatAxioms.eqb_spec. unfold SpecFloat.SFeqb.
    rewrite SFcompare_refl; [done|].
    intros Hx. rewrite Hx in Hc. by destruct (FloatOps.Prim2SF 0). }
  split; [done|].
  unfold falsy. rewrite Hnan. cbn [orb].
  rewrite FloatAxioms.eqb_spec. unfold SpecFloat.SFeqb.
  by rewrite (SFcompare_Lt_Gt _ _ Hc).
Qed.

(** X18. What the [spacing] getter returns after the setter: the number when
    it is above zero, and [null] in every other case (for [null], for
    zero, which the getter does not tell from an unset spacing, for a
    negative number and for [NaN]).  The getter never returns zero, a
    negative number or [NaN], and the setter always asks for a layout. *)
Theorem spacing_reads_back_positive (value : option float) (w : Resizable) :
  spacing (set_spacing value w)
  = match value with
    | Some x => if PrimFloat.ltb 0 x then Some x else None
    | None => None
    end
  ∧ (∀ x, spacing (set_spacing value w) = Some x → PrimFloat.ltb 0 x = true)
  ∧ component (set_spacing value w) = _scheduleLayout (component w).
Proof.
  assert (Hget : spacing (set_spacing value w)
                 = match value with
                   | Some x => if PrimFloat.ltb 0 x then Some x else None
                   | None => None
                   end).
  { unfold spacing, set_spacing. more_fields.
    destruct value as [x|]; [|done]. unfold Math_max_0.
    destruct (PrimFloat.ltb 0 x) eqn:Hlt.
    - destruct (float_positive_truthy x Hlt) as [-> ->]. done.
    - destruct (PrimFloat.is_nan x) eqn:Hnan; [|done].
      unfold falsy. by rewrite Hnan. }
  split_and!; [done| |done].
  intros x. rewrite Hget. destruct value as [y|]; [|done].
  destruct (PrimFloat.ltb 0 y) eqn:Hlt; [|done]. by intros [= <-].
Qed.

(** ** Dropping the dragged item *)

Lemma previousElementSibling_middle (d : Dom) (l1 l2 : list nat) (x : nat) :
  children d = l1 ++ x :: l2 → x ∉ l1 → previousElementSibling d x = last l1.
Proof.
  intros Hl Hx. unfold previousElementSibling.
  rewrite Hl, list_find_eq_middle by done.
  destruct l1 as [|y l1 _] using rev_ind; [done|].
  rewrite length_app, Nat.add_1_r, last_snoc, <- app_assoc.
  by apply list_lookup_middle.
Qed.

Lemma remove_child_not_elem (x : nat) (l : list nat) : x ∉ remove_child x l.
Proof. unfold remove_child. by intros [? _]%list_elem_of_filter. Qed.

Lemma replaceChild_middle (item p : nat) (a b : list nat) :
  NoDup (a ++ p :: b) → item ≠ p →
  replaceChild item p (a ++ p :: b)
  = Some (remove_child item a ++ item :: remove_child item b).
Proof.
  intros Hnd Hne.
  apply NoDup_app in Hnd as (_ & Ha & [Hb _]%NoDup_cons).
  assert (Hpa : p ∉ a) by (intros ?; eapply Ha; [done|by left]).
  assert (Hid : ∀ l, p ∉ l → map (λ y, if decide (y = p) then item else y) l = l).
  { induction l as [|y l IH]; intros Hp; [done|]. cbn [map].
    rewrite decide_False by (intros ->; apply Hp; by left).
    rewrite IH; [done|]. intros ?; apply Hp; by right. }
  unfold replaceChild. rewrite decide_True by set_solver.
  rewrite decide_False by done. f_equal.
  unfold remove_child. rewrite filter_app, filter_cons_True by done.
  rewrite map_app. cbn [map]. rewrite decide_True by done.
  rewrite !Hid; [done|..]; by intros [_ ?]%list_elem_of_filter.
Qed.

(** The state a drag-end with a placeholder leaves. *)
Lemma drag_end_result (e : DragEvent) (s : t) (p : nat) (i : LayoutInstance)
    (a b : list nat) :
  target e = matchedTarget e →
  field _dropPlaceholder (tree s) (target e) = Some p →
  target e ≠ p →
  _layoutInstance s = Some i →
  NoDup (children (tree s)) →
  children (tree s) = a ++ p :: b →
  let item := target e in
  let a' := remove_child item a in
  let b' := remove_child item b in
  _onItemDragEnd e s
  = Some
      (with_element (set_prevDragPos None) item
         (with_element (set_dropPlaceholder None) item
            (with_element (set_oldBefore None) item
               (with_element (add_class "is-dropping") item
                  (with_layoutInstance
                     (Some (mkLayout (name i) (remove_child item (detached i))))
                     (with_triggered
                        (triggered s
                         ++ [order item (field _oldBefore (tree s) item)
                                   (if itemFilter (tree s) (last a') then last a'
                                    else None)])
                        (with_children (a' ++ item :: b') s))))))).
Proof.
  intros Hm Hph Hne Hi Hnd Hl item a' b'. subst a' b' item.
  unfold _onItemDragEnd. rewrite Hph, decide_True by done.
  rewrite Hl, replaceChild_middle; [|by rewrite <- Hl|done].
  cbn [mbind option_bind]. fields. rewrite Hi. cbn [mbind option_bind].
  assert (Hprev : getPreviousItem
                    (mkDom (nodes (tree s))
                           (remove_child (target e) a
                            ++ target e :: remove_child (target e) b)) (target e)
                  = if itemFilter (tree s) (last (remove_child (target e) a))
                    then last (remove_child (target e) a) else None).
  { unfold getPreviousItem.
    rewrite (previousElementSibling_middle _ (remove_child (target e) a)
               (remove_child (target e) b)); [done..|].
    apply remove_child_not_elem. }
  by rewrite Hprev.
Qed.

(** X6. A drag-end with a placeholder puts the item where the placeholder
    is and takes the placeholder out of the host: the children before and
    after the placeholder keep their order, with the item taken out of the
    place it had.  One order event is dispatched, with the previous item
    recorded at the start of the drag and the item that now comes before
    the dropped one; the item is handed back to the layout strategy and
    its session fields are cleared. *)
Theorem drop_takes_the_place_of_the_placeholder (e : DragEvent) (s : t) (p : nat)
    (i : LayoutInstance) (a b : list nat) :
  target e = matchedTarget e →
  field _dropPlaceholder (tree s) (target e) = Some p →
  target e ≠ p →
  _layoutInstance s = Some i →
  NoDup (children (tree s)) →
  children (tree s) = a ++ p :: b →
  let item := target e in
  let a' := remove_child item a in
  let b' := remove_child item b in
  ∃ s', _onItemDragEnd e s = Some s'
        ∧ children (tree s') = a' ++ item :: b'
        ∧ (p ∉ children (tree s'))
        ∧ NoDup (children (tree s'))
        ∧ triggered s'
          = triggered s
            ++ [order item (field _oldBefore (tree s) item)
                      (if itemFilter (tree s) (last a') then last a' else None)]
        ∧ _layoutInstance s' = Some (mkLayout (name i) (remove_child item (detached i)))
        ∧ session_cleared s' item.
Proof.
  intros Hm Hph Hne Hi Hnd Hl item a' b'.
  rewrite (drag_end_result e s p i a b) by done.
  eexists. split; [reflexivity|].
  rewrite Hl in Hnd.
  apply NoDup_app in Hnd as (Hnda & Hab & [Hpb Hndb]%NoDup_cons).
  split_and!; [by fields| | |by fields|by fields|apply session_cleared_after].
  - fields. unfold a', b', remove_child.
    intros [[_ Hp]%list_elem_of_filter
           |[Hp|[_ Hp]%list_elem_of_filter]%elem_of_cons]%elem_of_app.
    + eapply Hab; [done|by left].
    + by subst.
    + done.
  - fields. apply NoDup_app. split_and!.
    + by apply NoDup_filter.
    + intros x [Hx Hxa]%list_elem_of_filter
             [->|[_ Hxb]%list_elem_of_filter]%elem_of_cons; [done|].
      eapply Hab; [done|by right].
    + apply NoDup_cons. split; [apply remove_child_not_elem|by apply NoDup_filter].
Qed.

Lemma drop_takes_the_place_of_the_placeholder_witness :
  ∃ s', _onItemDragEnd (mkDragEvent 0 0) dragged_over_last = Some s'
        ∧ children (tree s') = [1; 2; 0]
        ∧ triggered s' = [order 0 None (Some 2)].
Proof.
  destruct (drop_takes_the_place_of_the_placeholder (mkDragEvent 0 0) dragged_over_last 3
              (mkLayout "fixed-centered" [0]) [0; 1; 2] [])
    as (s' & Hs' & Hch & _ & _ & Htr & _).
  - reflexivity.
  - vm_compute. reflexivity.
  - discriminate.
  - vm_compute. reflexivity.
  - apply (bool_decide_unpack (NoDup [0; 1; 2; 3])). vm_compute. exact I.
  - vm_compute. reflexivity.
  - exists s'. split; [exact Hs'|]. split.
    + rewrite Hch. vm_compute. reflexivity.
    + rewrite Htr. vm_compute. reflexivity.
Defined.

(** The state a drag-start on a child of the host leaves. *)
Lemma drag_start_result (e : DragEvent) (s : t) (i : LayoutInstance) (l1 l2 : list nat) :
  target e = matchedTarget e →
  _layoutInstance s = Some i →
  children (tree s) = l1 ++ target e :: l2 →
  target e ∉ l1 →
  (∀ x, x ∈ children (tree s) → is_Some (nodes (tree s) !! x)) →
  let item := target e in
  let p := new_element (tree s) in
  _onItemDragStart e s
  = Some
      (with_tree
         (mkDom (<[p := mkElement "CORAL-MASONRY-ITEM" {["_placeholder"]}
                                  {["_coral-Masonry-item--placeholder"]} None None None]>
                   (alter (set_dropPlaceholder (Some p)) item
                      (alter (set_oldBefore (getPreviousItem (tree s) item)) item
                             (nodes (tree s)))))
                (l1 ++ p :: item :: l2))
         (with_layoutInstance (Some (mkLayout (name i) (item :: detached i))) s)).
Proof.
  intros Hm Hi Hl Hl1 Hknown item p. subst item.
  assert (Hin : target e ∈ children (tree s)) by (rewrite Hl; set_solver).
  destruct (Hknown _ Hin) as [el Hel].
  assert (Hp : p ∉ children (tree s)).
  { intros [? Hx]%Hknown. unfold p in Hx. by rewrite new_element_unknown in Hx. }
  assert (Hne : target e ≠ p).
  { intros Heq. rewrite Heq in Hel. unfold p in Hel.
    by rewrite new_element_unknown in Hel. }
  unfold _onItemDragStart. rewrite decide_True, Hi by done. cbn [mbind option_bind].
  fields.
  unfold insertBefore. rewrite decide_True by done.
  assert (Hnew : ∀ d, d = update (set_oldBefore (getPreviousItem (tree s) (target e)))
                            (tree s) (target e) →
                      new_element d = p).
  { intros d ->. unfold new_element, update. cbn [nodes]. unfold p, new_element.
    f_equal. apply set_eq. intros x. rewrite !elem_of_dom, !lookup_alter.
    case_decide; subst; rewrite ?Hel; cbn; [|done].
    split; intros [? ?]; eauto. }
  rewrite (Hnew _ eq_refl).
  rewrite decide_False by done. cbn [mbind option_bind].
  rewrite remove_child_notin by done. rewrite Hl, insert_at_middle by done.
  reflexivity.
Qed.

(** X21. A drag that starts on a child of the host and ends with no move in
    between leaves the children in the order they had and the item handed
    back to the layout strategy, and still dispatches an order event: one
    whose [oldBefore] and [before] are the same item.  The placeholder
    element is gone from the host. *)
Theorem drag_without_move_keeps_the_order (e : DragEvent) (s : t) (i : LayoutInstance) :
  target e = matchedTarget e →
  _layoutInstance s = Some i →
  NoDup (children (tree s)) →
  target e ∈ children (tree s) →
  (∀ x, x ∈ children (tree s) → is_Some (nodes (tree s) !! x)) →
  let item := target e in
  let before := getPreviousItem (tree s) item in
  ∃ s1 s2,
    _onItemDragStart e s = Some s1
    ∧ _onItemDragEnd e s1 = Some s2
    ∧ children (tree s2) = children (tree s)
    ∧ triggered s2 = triggered s ++ [order item before before]
    ∧ _layoutInstance s2 = Some (mkLayout (name i) (remove_child item (detached i)))
    ∧ session_cleared s2 item.
Proof.
  intros Hm Hi Hnd Hin Hknown item before. subst item before.
  apply list_elem_of_split in Hin as Hsplit. destruct Hsplit as (l1 & l2 & Hl).
  assert (Hnd' := Hnd). rewrite Hl in Hnd'.
  apply NoDup_app in Hnd' as (Hnd1 & H12 & [Hl2 Hnd2]%NoDup_cons).
  assert (Hl1 : target e ∉ l1) by (intros ?; eapply H12; [done|by left]).
  destruct (Hknown _ Hin) as [el Hel].
  set (p := new_element (tree s)).
  assert (Hp : p ∉ children (tree s)).
  { intros [? Hx]%Hknown. unfold p in Hx. by rewrite new_element_unknown in Hx. }
  assert (Hne : target e ≠ p) by (by intros Heq; rewrite <- Heq in Hp).
  rewrite (drag_start_result e s i l1 l2) by done. fold p.
  eexists _, _. split; [reflexivity|].
  match goal with |- _onItemDragEnd e ?x = _ ∧ _ => set (s1 := x) end.
  assert (Hnodes : ∀ z, z ≠ target e → z ≠ p → nodes (tree s1) !! z = nodes (tree s) !! z).
  { intros z Hz Hzp. unfold s1. fields.
    by rewrite lookup_insert_ne, !lookup_alter_ne by done. }
  assert (Hitem : nodes (tree s1) !! target e
                  = Some (set_dropPlaceholder (Some p)
                            (set_oldBefore (getPreviousItem (tree s) (target e)) el))).
  { unfold s1. fields.
    by rewrite lookup_insert_ne, !lookup_alter_eq, Hel by done. }
  assert (Hend := drag_end_result e s1 p (mkLayout (name i) (target e :: detached i))
                    l1 (target e :: l2)).
  cbv zeta in Hend. rewrite Hend; clear Hend.
  - split; [reflexivity|]. subst s1. fields.
    assert (Hrm : ∀ l, remove_child (target e) (target e :: l) = remove_child (target e) l).
    { intros l. unfold remove_child. by rewrite filter_cons_False by (by intros ?). }
    cbn [name detached]. rewrite !Hrm, !remove_child_notin by done.
    split_and!; [done| |done|apply session_cleared_after].
    do 2 f_equal.
    unfold field at 1. cbn [nodes]. rewrite Hitem. cbn [mbind option_bind set_dropPlaceholder
      set_oldBefore _oldBefore].
    f_equal.
    assert (Hf : ∀ d', (∀ z, z ∈ l1 → nodes d' !! z = nodes (tree s) !! z) →
                       itemFilter d' (last l1) = itemFilter (tree s) (last l1)).
    { intros d' Hd'. destruct (last l1) as [z|] eqn:Hz; [|done].
      apply last_Some_elem_of in Hz. unfold itemFilter. by rewrite Hd'. }
    rewrite Hf.
    + unfold getPreviousItem.
      by rewrite (previousElementSibling_middle (tree s) l1 l2).
    + intros z Hz. cbn [nodes]. apply Hnodes; [by intros ->|].
      intros ->. apply Hp. rewrite Hl. set_solver.
  - done.
  - unfold field. by rewrite Hitem.
  - done.
  - done.
  - unfold s1. fields. apply NoDup_app. split_and!; [done| |].
    + intros x Hx [->|Hx2]%elem_of_cons.
      * apply Hp. rewrite Hl. set_solver.
      * by eapply H12.
    + apply NoDup_cons. split; [|by apply NoDup_cons].
      intros Hpin. apply Hp. rewrite Hl. set_solver.
  - done.
Qed.

Lemma drag_without_move_keeps_the_order_witness :
  ∃ s1 s2,
    _onItemDragStart (mkDragEvent 1 1) laid_out_masonry = Some s1
    ∧ _onItemDragEnd (mkDragEvent 1 1) s1 = Some s2
    ∧ children (tree s2) = [0; 1; 2]
    ∧ triggered s2 = [order 1 (Some 0) (Some 0)].
Proof.
  destruct (drag_without_move_keeps_the_order (mkDragEvent 1 1) laid_out_masonry
              (mkLayout "fixed-centered" []))
    as (s1 & s2 & H1 & H2 & Hch & Htr & _).
  - reflexivity.
  - reflexivity.
  - apply (bool_decide_unpack (NoDup [0; 1; 2])). vm_compute. exact I.
  - apply (bool_decide_unpack (1 ∈ [0; 1; 2])). vm_compute. exact I.
  - intros x Hx. apply (bool_decide_unpack (is_Some _)).
    apply list_elem_of_In in Hx.
    destruct Hx as [<-|[<-|[<-|[]]]]; vm_compute; exact I.
  - exists s1, s2. split; [exact H1|]. split; [exact H2|]. split.
    + rewrite Hch. reflexivity.
    + rewrite Htr. vm_compute. reflexivity.
Defined.

(** ** Clicking an item in mode [single] *)

Lemma selectedItems_setAttribute (d : Dom) (x : nat) :
  matches d (SelectableCollection._allItemsSelector items) x = true →
  querySelectorAll (setAttribute d x "selected") selected_selector
  = filter (λ id, id = x ∨ matches d selected_selector id = true) (children d).
Proof.
  intros Hm. unfold querySelectorAll, setAttribute. cbn [children].
  apply list_filter_iff. intros id. unfold matches at 1. cbn [nodes].
  destruct (decide (id = x)) as [->|Hne].
  - rewrite lookup_alter_eq. split; [by left|intros _].
    unfold matches in Hm. destruct (nodes d !! x) as [e|]; [|done].
    cbn [fmap option_fmap option_map].
    revert Hm. unfold selected_selector, selector_matches. simpl.
    rewrite !orb_false_r, !andb_true_r, !andb_true_iff, !negb_true_iff,
      !bool_decide_eq_false, !bool_decide_eq_true.
    intros (Htag & Hr & Hp). split_and!; [done| | |]; set_solver.
  - rewrite lookup_alter_ne by done. unfold matches. split; [by right|].
    by intros [?|?].
Qed.

Lemma hasAttribute_removeAttribute (d : Dom) (x : nat) (m : string) :
  hasAttribute (removeAttribute d x m) x m = false.
Proof.
  unfold hasAttribute, removeAttribute. cbn [nodes]. rewrite lookup_alter_eq.
  destruct (nodes d !! x) as [e|]; [|done].
  cbn. apply bool_decide_eq_false. set_solver.
Qed.

Lemma hasAttribute_setAttribute (d : Dom) (x : nat) (m : string) :
  is_Some (nodes d !! x) → hasAttribute (setAttribute d x m) x m = true.
Proof.
  intros [e He]. unfold hasAttribute, setAttribute. cbn [nodes].
  rewrite lookup_alter_eq, He. cbn. apply bool_decide_eq_true. set_solver.
Qed.

(** X5. Clicks in mode [single], on a masonry that dispatches change events
    and whose recorded selection is the current one, of at most one item.
    A click on an unselected item of the collection makes it the
    selection, clearing the item that was selected, and dispatches one
    change event from the old item (or [null]) to the clicked one.  A
    click on the selected item clears the selection and dispatches one
    change event from that item to [null].  Either way the masonry is
    again in the state described, ready for the next click. *)
Theorem click_in_single_mode (x : nat) (s : t) :
  selectionMode s = SINGLE →
  NoDup (children (tree s)) →
  _preventTriggeringEvents s = false →
  _oldSelection s = selectedItems s →
  length (selectedItems s) ≤ 1 →
  let s' := _onItemClick x s in
  (x ∈ children (tree s) →
   matches (tree s) (SelectableCollection._allItemsSelector items) x = true →
   hasAttribute (tree s) x "selected" = false →
   selectedItems s' = [x]
   ∧ triggered s'
     = triggered s ++ [change (Scalar (head (selectedItems s))) (Scalar (Some x))]
   ∧ _oldSelection s' = [x]
   ∧ _preventTriggeringEvents s' = false)
  ∧ (selectedItems s = [x] →
     selectedItems s' = []
     ∧ triggered s' = triggered s ++ [change (Scalar (Some x)) (Scalar None)]
     ∧ _oldSelection s' = []
     ∧ _preventTriggeringEvents s' = false).
Proof.
  intros Hmode Hnd Hprev Hold Hlen s'.
  assert (Hs' : s' = _validateSelection (Some x) (toggle_selected x s)).
  { unfold s', _onItemClick. by rewrite Hmode. }
  rewrite Hs'. clear s' Hs'. split.
  - intros Hin Hitem Hoff.
    set (s0 := toggle_selected x s).
    assert (Hs0 : s0 = with_tree (setAttribute (tree s) x "selected") s).
    { unfold s0, toggle_selected. by rewrite Hoff. }
    assert (Hknown : is_Some (nodes (tree s) !! x)).
    { revert Hitem. unfold matches. by destruct (nodes (tree s) !! x); eauto. }
    assert (Hnotin : x ∉ selectedItems s).
    { intros Hx. rewrite selectedItems_eq in Hx.
      apply list_elem_of_filter in Hx as [Hx _]. apply matches_selected in Hx.
      congruence. }
    assert (Hsel0 : x ∈ selectedItems s0).
    { rewrite Hs0, selectedItems_eq. fields.
      rewrite selectedItems_setAttribute by done.
      apply list_elem_of_filter. split; [by left|done]. }
    assert (Hnd0 : NoDup (children (tree s0))) by (by rewrite Hs0).
    assert (Hmode0 : selectionMode s0 = SINGLE) by (by rewrite Hs0).
    assert (Hon : hasAttribute (tree s0) x "selected" = true).
    { rewrite Hs0. fields. by apply hasAttribute_setAttribute. }
    assert (Htr0 : triggered s0 = triggered s) by (by rewrite Hs0).
    assert (Hold0 : _oldSelection s0 = selectedItems s) by (by rewrite Hs0).
    assert (Hprev0 : _preventTriggeringEvents s0 = false) by (by rewrite Hs0).
    clear Hs0. clearbody s0.
    set (n := normalize_selection (Some x) s0).
    destruct (normalize_fields (Some x) s0) as (Hn_old & Hn_tr & Hn_mode). fold n in Hn_old, Hn_tr, Hn_mode.
    assert (Hn_sel : selectedItems n = [x]).
    { pose proof (validate_selectedItems (Some x) s0 Hnd0) as Hv.
      unfold _validateSelection in Hv. fold n in Hv.
      rewrite selectedItems_eq, trigger_tree, <- selectedItems_eq in Hv.
      rewrite Hv, Hmode0. cbn [or_else]. rewrite Hon. cbn [andb].
      case_bool_decide as Hl0; [by rewrite decide_True|by apply length_le_1_elem]. }
    assert (Hn_prev : _preventTriggeringEvents n = false).
    { unfold n. rewrite normalize_prevent, Hmode0.
      by destruct (normalizes (Some x) s0). }
    assert (Hn_m : selectionMode n = SINGLE).
    { unfold selectionMode. rewrite Hn_mode. fold (selectionMode s0). done. }
    assert (Hdiff : _arraysAreDifferent [x] (selectedItems s) = true).
    { destruct (selectedItems s) as [|y [|z l]]; [reflexivity| |simpl in Hlen; lia].
      unfold _arraysAreDifferent. rewrite decide_True by done.
      rewrite filter_cons_True by set_solver. reflexivity. }
    unfold _validateSelection. fold n. unfold _triggerChangeEvent.
    rewrite Hn_prev, Hn_sel, Hn_old, Hn_m, Hn_tr, Htr0, Hold0, Hdiff.
    cbn [negb andb]. rewrite decide_False by lia.
    split_and!; [|done..].
    rewrite selectedItems_eq. fields. by rewrite <- selectedItems_eq.
  - intros Hsel.
    assert (Hon : hasAttribute (tree s) x "selected" = true).
    { apply matches_selected.
      assert (Hx : x ∈ selectedItems s) by (rewrite Hsel; by left).
      rewrite selectedItems_eq in Hx. by apply list_elem_of_filter in Hx as [? _]. }
    set (s0 := toggle_selected x s).
    assert (Hs0 : s0 = with_tree (removeAttribute (tree s) x "selected") s).
    { unfold s0, toggle_selected. by rewrite Hon. }
    assert (Hsel0 : selectedItems s0 = []).
    { rewrite Hs0, selectedItems_eq. fields.
      rewrite selectedItems_removeAttribute, <- selectedItems_eq, Hsel.
      by rewrite filter_cons_False, filter_nil by (by intros ?). }
    assert (Hn : normalize_selection (Some x) s0 = s0).
    { unfold normalize_selection.
      replace (selectionMode s0) with SINGLE by (by rewrite Hs0).
      cbn [or_else]. rewrite Hsel0. cbn [length].
      rewrite bool_decide_eq_false_2 by lia. by rewrite andb_false_r. }
    unfold _validateSelection. rewrite Hn. unfold _triggerChangeEvent.
    rewrite Hsel0.
    replace (_preventTriggeringEvents s0) with false by (by rewrite Hs0).
    replace (_oldSelection s0) with [x] by (by rewrite Hs0; fields; rewrite Hold).
    replace (selectionMode s0) with SINGLE by (by rewrite Hs0).
    replace (triggered s0) with (triggered s) by (by rewrite Hs0).
    cbn [negb andb]. replace (_arraysAreDifferent [] [x]) with true by done.
    cbn [length head]. rewrite decide_False by lia.
    split_and!; [|done..].
    rewrite selectedItems_eq. fields. by rewrite <- selectedItems_eq.
Qed.

Lemma click_in_single_mode_witness :
  selectedItems (_onItemClick 2 second_selected) = [2]
  ∧ triggered (_onItemClick 2 second_selected)
    = [change (Scalar (Some 1)) (Scalar (Some 2))].
Proof.
  destruct (click_in_single_mode 2 second_selected) as [H _].
  - reflexivity.
  - apply (bool_decide_unpack (NoDup [0; 1; 2])). vm_compute. exact I.
  - reflexivity.
  - vm_compute. reflexivity.
  - replace (selectedItems second_selected) with [1] by (vm_compute; reflexivity).
    simpl. lia.
  - destruct H as (Hsel & Htr & _).
    + apply (bool_decide_unpack (2 ∈ [0; 1; 2])). vm_compute. exact I.
    + vm_compute. reflexivity.
    + vm_compute. reflexivity.
    + split; [exact Hsel|]. rewrite Htr. vm_compute. reflexivity.
Defined.

(** ** The selection mode and the layout name *)

Lemma toLowerCase_ascii_idemp (c : ascii) :
  toLowerCase_ascii (toLowerCase_ascii c) = toLowerCase_ascii c.
Proof. destruct c as [[] [] [] [] [] [] [] []]; reflexivity. Qed.

Lemma toLowerCase_idemp (v : string) : toLowerCase (toLowerCase v) = toLowerCase v.
Proof.
  induction v as [|c v IH]; [done|].
  cbn [toLowerCase]. by rewrite toLowerCase_ascii_idemp, IH.
Qed.

(** X19. The [selectionMode] setter does not tell upper case from lower
    case.  For a value that, in lower case, is not the name of a property
    every object inherits, it takes every value other than [single] and
    [multiple] for [none], and it leaves the selection as the new mode
    wants it: empty for [none], of at most one item for [single]. *)
Theorem selectionMode_setter_normalizes (value : string) (s : t) :
  toLowerCase value ∉ Object_prototype →
  NoDup (children (tree s)) →
  let s' := set_selectionMode value s in
  selectionMode s' = enumeration (toLowerCase value)
  ∧ (selectionMode s' = NONE
     ↔ toLowerCase value ≠ "single" ∧ toLowerCase value ≠ "multiple")
  ∧ set_selectionMode (toLowerCase value) s = s'
  ∧ mode_ok s'
  ∧ children (tree s') = children (tree s).
Proof.
  intros _ Hnd s'. unfold s', set_selectionMode. cbv zeta.
  rewrite toLowerCase_idemp.
  assert (Hmode : selectionMode
                    (_validateSelection None
                       (with_selectionMode (Some (enumeration (toLowerCase value))) s))
                  = enumeration (toLowerCase value)).
  { unfold selectionMode. by rewrite validate_selectionMode. }
  split_and!; [done| |done| |].
  - rewrite Hmode. unfold enumeration.
    destruct (decide (toLowerCase value = "single")) as [->|Hs]; [split; [done|by intros []]|].
    destruct (decide (toLowerCase value = "multiple")) as [->|Hm];
      [split; [done|by intros []]|].
    done.
  - by apply validate_establishes.
  - by rewrite validate_children.
Qed.

Lemma selectionMode_setter_normalizes_witness :
  let s := Examples.masonry (Examples.three_items ["selected"] ["selected"] [])
                            (Some MULTIPLE) in
  let s' := set_selectionMode "SINGLE" s in
  selectionMode s' = enumeration (toLowerCase "SINGLE")
  ∧ (selectionMode s' = NONE
     ↔ toLowerCase "SINGLE" ≠ "single" ∧ toLowerCase "SINGLE" ≠ "multiple")
  ∧ set_selectionMode (toLowerCase "SINGLE") s = s'
  ∧ mode_ok s'
  ∧ children (tree s') = children (tree s).
Proof.
  apply (selectionMode_setter_normalizes "SINGLE"
           (Examples.masonry (Examples.three_items ["selected"] ["selected"] [])
                             (Some MULTIPLE))).
  - apply (bool_decide_unpack (_ ∉ Object_prototype)). vm_compute. exact I.
  - apply (bool_decide_unpack (NoDup [0; 1; 2])). vm_compute. exact I.
Defined.

(** X20. Setting a layout name the registry lookup finds a second time
    changes nothing: no second layout is scheduled.  Setting a name the
    lookup does not find is logged on every attempt, and nothing else
    changes. *)
Theorem layout_setter_repeated (value : string) (s : t) :
  let s' := set_layout value s in
  let v := if decide (value = "") then head (__layouts s) else Some value in
  (truthy (get_property (__layouts s) (to_key v)) = true → set_layout value s' = s')
  ∧ (truthy (get_property (__layouts s) (to_key v)) = false → v ≠ _layout s →
     s' = with_logged (logged s ++ [("Coral.Masonry: Unknown layout:", v)]) s
     ∧ set_layout value s'
       = with_logged (logged s ++ [("Coral.Masonry: Unknown layout:", v);
                                   ("Coral.Masonry: Unknown layout:", v)]) s).
Proof.
  intros s' v. unfold s', set_layout. cbv zeta. fold v.
  assert (Hs : ∀ s0, __layouts (_scheduleLayout s0) = __layouts s0
                     ∧ _layout (_scheduleLayout s0) = _layout s0).
  { intros s0. unfold _scheduleLayout. by case_match. }
  split.
  - intros Hp. destruct (decide (v ≠ _layout s)) as [Hne|Heq].
    + rewrite Hp. destruct (Hs (with_layout v s)) as [-> ->]. fields. fold v.
      by rewrite decide_False by (by intros ?).
    + fold v. by rewrite decide_False.
  - intros Hp Hne. rewrite decide_True by done. rewrite Hp. fields. fold v.
    rewrite decide_True by done. rewrite Hp. split; [done|].
    unfold with_logged. fields. by rewrite <- app_assoc.
Qed.

Lemma layout_setter_repeated_witness :
  set_layout "dashboard" (set_layout "dashboard" variable_masonry)
  = set_layout "dashboard" variable_masonry
  ∧ logged (set_layout "mosaic" (set_layout "mosaic" variable_masonry))
    = [("Coral.Masonry: Unknown layout:", Some "mosaic");
       ("Coral.Masonry: Unknown layout:", Some "mosaic")].
Proof.
  destruct (layout_setter_repeated "dashboard" variable_masonry) as [H1 _].
  destruct (layout_setter_repeated "mosaic" variable_masonry) as [_ H2].
  split.
  - apply H1. reflexivity.
  - destruct H2 as [_ ->]; [reflexivity|discriminate|reflexivity].
Defined.

Lemma elem_of_insert_index (name : string) (n : N) (keys : list string) (x : string) :
  x ∈ insert_index name n keys ↔ x = name ∨ x ∈ keys.
Proof.
  induction keys as [|key keys IH]; cbn [insert_index]; [set_solver|].
  destruct (array_index key) as [m|]; [|set_solver].
  destruct (m <? n)%N; set_solver.
Qed.

(** X23. A layout registered under a name other than the empty string and
    [__proto__] is one the setter accepts: after [registerLayout] the name
    is an own key of the registry, setting it makes it the active layout
    name and nothing is logged.  Registering a name leaves the lookup of
    every other name as it was, and registering it again changes nothing.
    A new name that is not an array index goes after the keys there are,
    so that the first key, for which the empty string stands, stays; a
    new name that is an array index goes before every key that is none. *)
Theorem registered_layout_is_accepted (name value : string) (s : t) :
  name ≠ "" → name ≠ "__proto__" → _layout s ≠ Some name →
  ∃ s1,
    registerLayout name s = Registered s1
    ∧ get_property (__layouts s1) name = Own name
    ∧ _layout (set_layout name s1) = Some name
    ∧ logged (set_layout name s1) = logged s
    ∧ (value ≠ name → get_property (__layouts s1) value = get_property (__layouts s) value)
    ∧ registerLayout name s1 = Registered s1
    ∧ (array_index name = None → name ∉ __layouts s →
       __layouts s1 = __layouts s ++ [name])
    ∧ (is_Some (array_index name) → name ∉ __layouts s →
       (∀ key, key ∈ __layouts s → array_index key = None) →
       __layouts s1 = name :: __layouts s).
Proof.
  intros Hne Hproto Hactive.
  assert (Hreg : ∃ s1, registerLayout name s = Registered s1
                       ∧ _layout s1 = _layout s ∧ logged s1 = logged s
                       ∧ (∀ x, x ∈ __layouts s1 ↔ x = name ∨ x ∈ __layouts s)).
  { unfold registerLayout. rewrite decide_False by done.
    destruct (decide (name ∈ __layouts s)) as [Hin|Hin].
    - exists s. split_and!; [done..|]. intros x. split; [by right|]. by intros [->|?].
    - destruct (array_index name) as [n|]; eexists; (split; [reflexivity|]); fields;
        (split_and!; [done..|]); intros x.
      + apply elem_of_insert_index.
      + set_solver. }
  destruct Hreg as (s1 & Hs1 & Hl & Hlog & Hkeys). exists s1.
  assert (Hin : name ∈ __layouts s1) by (apply Hkeys; by left).
  assert (Hown : get_property (__layouts s1) name = Own name).
  { unfold get_property. by rewrite decide_True. }
  assert (Hset : set_layout name s1 = _scheduleLayout (with_layout (Some name) s1)).
  { unfold set_layout. cbv zeta. destruct (decide (name = "")) as [|_]; [done|].
    change (to_key (Some name)) with name. rewrite Hown. cbn [truthy].
    rewrite decide_True; [done|]. rewrite Hl. intros Heq. by apply Hactive. }
  split_and!.
  - done.
  - done.
  - rewrite Hset. unfold _scheduleLayout. by case_match.
  - rewrite Hset, <- Hlog. unfold _scheduleLayout. by case_match.
  - intros Hv. unfold get_property.
    destruct (decide (value ∈ __layouts s)) as [Hvin|Hvin].
    + rewrite decide_True; [done|]. apply Hkeys. by right.
    + rewrite decide_False; [done|]. intros [?|?]%Hkeys; done.
  - unfold registerLayout. rewrite decide_False by done. by rewrite decide_True.
  - intros Hidx Hnew. revert Hs1. unfold registerLayout.
    rewrite decide_False by done. rewrite decide_False by done. rewrite Hidx.
    by intros [= <-].
  - intros [n Hidx] Hnew Hnone. revert Hs1. unfold registerLayout.
    rewrite decide_False by done. rewrite decide_False by done. rewrite Hidx.
    intros [= <-]. fields.
    destruct (__layouts s) as [|key keys]; [done|].
    cbn [insert_index]. rewrite (Hnone key); [done|by left].
Qed.

Lemma registered_layout_is_accepted_witness :
  ∃ s1,
    registerLayout "mosaic" variable_masonry = Registered s1
    ∧ get_property (__layouts s1) "mosaic" = Own "mosaic"
    ∧ _layout (set_layout "mosaic" s1) = Some "mosaic"
    ∧ logged (set_layout "mosaic" s1) = logged variable_masonry
    ∧ head (__layouts s1) = Some "fixed-centered".
Proof.
  destruct (registered_layout_is_accepted "mosaic" "variable" variable_masonry)
    as (s1 & Hs1 & Hown & Hset & Hlog & _ & _ & Happ & _); try discriminate.
  exists s1. split; [exact Hs1|]. split; [exact Hown|]. split; [exact Hset|].
  split; [exact Hlog|]. rewrite Happ; [reflexivity|reflexivity|].
  apply (bool_decide_unpack ("mosaic" ∉ __layouts variable_masonry)). vm_compute. exact I.
Defined.

(** X14. What [connectedCallback] establishes, whatever the masonry was
    before: change events are allowed, the recorded selection is the
    current one, the selection satisfies the mode, and the children are in
    the order they had.  No change event is dispatched on the way, unless
    the validator finds several selected items in mode [single] and
    normalizes them: that run allows change events again before the
    callback expects it. *)
Theorem connected_masonry_is_consistent (s : t) :
  NoDup (children (tree s)) →
  let s0 := with_preventTriggeringEvents true (connectedCallback_defaults s) in
  let s' := connectedCallback s in
  _preventTriggeringEvents s' = false
  ∧ _oldSelection s' = selectedItems s'
  ∧ mode_ok s'
  ∧ children (tree s') = children (tree s)
  ∧ (normalizes None s0 = false →
     triggered s' = triggered (connectedCallback_defaults s)).
Proof.
  intros Hnd s0 s'.
  assert (Hs' : s' = with_oldSelection (selectedItems (_validateSelection None s0))
                       (with_preventTriggeringEvents false (_validateSelection None s0))).
  { reflexivity. }
  assert (Hnd0 : NoDup (children (tree s0))).
  { unfold s0. fields. by rewrite defaults_children. }
  rewrite Hs'. split_and!; fields.
  - done.
  - done.
  - apply (mode_ok_ext (_validateSelection None s0)); [done..|].
    by apply validate_establishes.
  - rewrite validate_children. unfold s0. fields. apply defaults_children.
  - intros Hn. by destruct (validate_suppressed None s0 eq_refl Hn) as [_ ->].
Qed.

Lemma connected_masonry_is_consistent_witness :
  let s := Examples.masonry (Examples.three_items ["selected"] [] []) (Some SINGLE) in
  let s' := connectedCallback s in
  _preventTriggeringEvents s' = false
  ∧ _oldSelection s' = selectedItems s'
  ∧ mode_ok s'
  ∧ children (tree s') = children (tree s)
  ∧ (normalizes None (with_preventTriggeringEvents true (connectedCallback_defaults s))
     = false →
     triggered s' = triggered (connectedCallback_defaults s)).
Proof.
  apply (connected_masonry_is_consistent
           (Examples.masonry (Examples.three_items ["selected"] [] []) (Some SINGLE))).
  apply (bool_decide_unpack (NoDup [0; 1; 2])). vm_compute. exact I.
Defined.


(** ** A whole drag *)

(** What a drag-move that completes does to the masonry: it may move the
    placeholder, and it records the position. *)
Lemma drag_move_result (g : Geometry) (e : DragEvent) (s s' : t) (p : nat) :
  target e = matchedTarget e →
  field _dropPlaceholder (tree s) (target e) = Some p →
  NoDup (children (tree s)) →
  p ∈ children (tree s) →
  _onItemDragMove g e s = Some s' →
  ∃ l, l ≡ₚ children (tree s)
       ∧ s' = with_element (set_prevDragPos (Some (relativePosition g (target e))))
                           (target e) (with_children l s).
Proof.
  intros Hm Hph Hnd Hin. unfold _onItemDragMove. rewrite Hph, decide_True by done.
  assert (Hsame : ∀ s0, s0 = s →
            Some (with_element (set_prevDragPos (Some (relativePosition g (target e))))
                               (target e) s0) = Some s' →
            ∃ l, l ≡ₚ children (tree s)
                 ∧ s' = with_element (set_prevDragPos (Some (relativePosition g (target e))))
                                     (target e) (with_children l s)).
  { intros s0 -> [= <-]. exists (children (tree s)). split; [done|].
    by rewrite with_children_same. }
  match goal with |- context [if ?c then _ else Some s] => destruct c end;
    [|cbn [mbind option_bind]; apply (Hsame s eq_refl)].
  destruct (_layoutInstance s) as [i|]; [|done]. cbn [mbind option_bind].
  destruct (itemAt g _ _) as [b|];
    [|cbn [mbind option_bind]; apply (Hsame s eq_refl)].
  destruct (decide (b ≠ p));
    [|cbn [mbind option_bind]; apply (Hsame s eq_refl)].
  destruct (decide (b ∈ children (tree s))); [|done].
  match goal with
  | |- context [insertBefore p (Some b) ?l] => destruct (preceding l p b)
  end.
  - destruct (insertBefore p (Some b) (children (tree s))) as [l|] eqn:Hl; [|done].
    cbn [mbind option_bind]. intros [= <-]. exists l. split; [|done].
    apply (insertBefore_Permutation _ _ _ _ Hnd Hin Hl).
  - destruct (insertBefore p (nextSibling (tree s) b) (children (tree s)))
      as [l|] eqn:Hl; [|done].
    cbn [mbind option_bind]. intros [= <-]. exists l. split; [|done].
    apply (insertBefore_Permutation _ _ _ _ Hnd Hin Hl).
Qed.

Lemma drag_move_in_progress (g : Geometry) (e : DragEvent) (s s' : t) (p : nat)
    (before : option nat) (L : LayoutInstance) (T : list Event) (l0 : list nat) :
  target e = matchedTarget e →
  drag_in_progress e p before L T l0 s →
  _onItemDragMove g e s = Some s' →
  drag_in_progress e p before L T l0 s'.
Proof.
  intros Hm (Hph & Hold & HL & HT & Hnd & Hperm) Hmove.
  assert (Hin : p ∈ children (tree s)) by (rewrite Hperm; by left).
  destruct (drag_move_result g e s s' p Hm Hph Hnd Hin Hmove) as (l & Hl & ->).
  unfold drag_in_progress. fields.
  assert (Hfield : ∀ A (f : Element → option A),
            (∀ el v, f (set_prevDragPos v el) = f el) →
            field f (mkDom (alter (set_prevDragPos (Some (relativePosition g (target e))))
                                  (target e) (nodes (tree s))) l) (target e)
            = field f (tree s) (target e)).
  { intros A f Hf. unfold field. cbn [nodes]. rewrite lookup_alter_eq.
    destruct (nodes (tree s) !! target e); cbn; [apply Hf|done]. }
  split_and!; [by rewrite Hfield|by rewrite Hfield|done..| |].
  - by rewrite Hl.
  - by rewrite Hl.
Qed.

Lemma drag_moves_in_progress (gs : list Geometry) (e : DragEvent) (s s' : t) (p : nat)
    (before : option nat) (L : LayoutInstance) (T : list Event) (l0 : list nat) :
  target e = matchedTarget e →
  drag_in_progress e p before L T l0 s →
  drag_moves gs e s = Some s' →
  drag_in_progress e p before L T l0 s'.
Proof.
  intros Hm. unfold drag_moves. revert s.
  induction gs as [|g gs IH]; intros s Hs; [by intros [= <-]|].
  cbn [foldl mbind option_bind].
  destruct (_onItemDragMove g e s) as [s1|] eqn:Hmove.
  - apply IH. by apply (drag_move_in_progress g e s s1).
  - intros Hnone. exfalso. revert Hnone. clear.
    induction gs as [|g' gs IH]; [done|]. apply IH.
Qed.

(** X25. A whole drag only reorders.  Take a drag that starts on a child of
    the host, goes through any number of moves, none of which raises, and
    ends: the drag-end completes, the children of the host are then the
    children it had before the drag, each once, in some order; the
    placeholder is gone; exactly one event was dispatched, an order event
    for the item whose [oldBefore] is the item that came before it when the
    drag started; the item is back with the layout strategy and its
    session fields are empty. *)
Theorem whole_drag_only_reorders (gs : list Geometry) (e : DragEvent) (s s2 : t)
    (i : LayoutInstance) :
  target e = matchedTarget e →
  _layoutInstance s = Some i →
  NoDup (children (tree s)) →
  target e ∈ children (tree s) →
  (∀ x, x ∈ children (tree s) → is_Some (nodes (tree s) !! x)) →
  (s1 ← _onItemDragStart e s; drag_moves gs e s1) = Some s2 →
  ∃ s3 before,
    _onItemDragEnd e s2 = Some s3
    ∧ children (tree s3) ≡ₚ children (tree s)
    ∧ NoDup (children (tree s3))
    ∧ (new_element (tree s) ∉ children (tree s3))
    ∧ triggered s3
      = triggered s ++ [order (target e) (getPreviousItem (tree s) (target e)) before]
    ∧ _layoutInstance s3
      = Some (mkLayout (name i) (remove_child (target e) (detached i)))
    ∧ session_cleared s3 (target e).
Proof.
  intros Hm Hi Hnd Hin Hknown Hrun.
  apply list_elem_of_split in Hin as Hsplit. destruct Hsplit as (l1 & l2 & Hl).
  assert (Hnd' := Hnd). rewrite Hl in Hnd'.
  apply NoDup_app in Hnd' as (Hnd1 & H12 & [Hl2 Hnd2]%NoDup_cons).
  assert (Hl1 : target e ∉ l1) by (intros ?; eapply H12; [done|by left]).
  destruct (Hknown _ Hin) as [el Hel].
  set (p := new_element (tree s)) in *.
  assert (Hp : p ∉ children (tree s)).
  { intros [? Hx]%Hknown. unfold p in Hx. by rewrite new_element_unknown in Hx. }
  assert (Hne : target e ≠ p) by (by intros Heq; rewrite <- Heq in Hp).
  rewrite (drag_start_result e s i l1 l2) in Hrun by done. fold p in Hrun.
  cbn [mbind option_bind] in Hrun.
  match type of Hrun with drag_moves gs e ?x = _ => set (s1 := x) in Hrun end.
  assert (Hs1 : drag_in_progress e p (getPreviousItem (tree s) (target e))
                  (mkLayout (name i) (target e :: detached i)) (triggered s)
                  (children (tree s)) s1).
  { unfold drag_in_progress, s1, field. fields.
    rewrite lookup_insert_ne, !lookup_alter_eq, Hel by done.
    split_and!; [done..| |].
    - apply NoDup_app. split_and!; [done| |].
      + intros x Hx [->|Hx2]%elem_of_cons.
        * apply Hp. rewrite Hl. set_solver.
        * by eapply H12.
      + apply NoDup_cons. split; [|by apply NoDup_cons].
        intros Hpin. apply Hp. rewrite Hl. set_solver.
    - rewrite Hl. symmetry. apply Permutation_middle. }
  pose proof (drag_moves_in_progress gs e s1 s2 p _ _ _ _ Hm Hs1 Hrun)
    as (Hph & Hold & HL & HT & Hnd2' & Hperm).
  assert (Hpin : p ∈ children (tree s2)) by (rewrite Hperm; by left).
  apply list_elem_of_split in Hpin as (a & b & Hab).
  assert (Hend := drag_end_result e s2 p (mkLayout (name i) (target e :: detached i)) a b
                    Hm Hph Hne HL Hnd2' Hab).
  cbv zeta in Hend. rewrite Hend.
  eexists _, _. split; [reflexivity|]. fields.
  assert (Hrm : ∀ l, remove_child (target e) (target e :: l) = remove_child (target e) l).
  { intros l. unfold remove_child. by rewrite filter_cons_False by (by intros ?). }
  cbn [name detached]. rewrite Hrm, Hold, HT.
  assert (Hnd3 := Hnd2'). rewrite Hab in Hnd3.
  apply NoDup_app in Hnd3 as (Hnda & Hdisj & [Hpb Hndb]%NoDup_cons).
  assert (Hpa : p ∉ a) by (intros ?; eapply Hdisj; [done|by left]).
  assert (Hitem : target e ∈ a ++ b).
  { assert (Hx : target e ∈ p :: children (tree s)) by (right; done).
    rewrite <- Hperm, Hab in Hx. set_solver. }
  assert (Hres : remove_child (target e) a ++ target e :: remove_child (target e) b
                 ≡ₚ a ++ b).
  { rewrite <- Permutation_middle.
    unfold remove_child. rewrite <- filter_app.
    apply remove_child_Permutation; [|done].
    apply NoDup_app. split_and!; [done| |done].
    intros x Hx Hxb. eapply Hdisj; [done|by right]. }
  assert (Hrest : a ++ b ≡ₚ children (tree s)).
  { apply (Permutation_cons_inv (a:=p)). rewrite <- Hperm, Hab.
    apply Permutation_middle. }
  split_and!; [by rewrite Hres| | |done..|apply session_cleared_after].
  - rewrite Hres, Hrest. done.
  - rewrite Hres, Hrest. done.
Qed.

Lemma whole_drag_only_reorders_witness :
  ∃ s2 s3 before,
    (s1 ← _onItemDragStart (mkDragEvent 0 0) laid_out_masonry;
     drag_moves [over_last_item; level_move] (mkDragEvent 0 0) s1) = Some s2
    ∧ _onItemDragEnd (mkDragEvent 0 0) s2 = Some s3
    ∧ children (tree s3) ≡ₚ [0; 1; 2]
    ∧ triggered s3 = [order 0 None before].
Proof.
  assert (Hrun : ∃ s2, (s1 ← _onItemDragStart (mkDragEvent 0 0) laid_out_masonry;
                        drag_moves [over_last_item; level_move] (mkDragEvent 0 0) s1)
                       = Some s2).
  { eexists. vm_compute. reflexivity. }
  destruct Hrun as [s2 Hrun].
  destruct (whole_drag_only_reorders [over_last_item; level_move] (mkDragEvent 0 0)
              laid_out_masonry s2 (mkLayout "fixed-centered" []))
    as (s3 & before & Hend & Hperm & _ & _ & Htr & _).
  - reflexivity.
  - reflexivity.
  - apply (bool_decide_unpack (NoDup [0; 1; 2])). vm_compute. exact I.
  - apply (bool_decide_unpack (0 ∈ [0; 1; 2])). vm_compute. exact I.
  - intros x Hx. apply (bool_decide_unpack (is_Some _)).
    apply list_elem_of_In in Hx.
    destruct Hx as [<-|[<-|[<-|[]]]]; vm_compute; exact I.
  - exact Hrun.
  - exists s2, s3, before. split; [exact Hrun|]. split; [exact Hend|].
    split; [exact Hperm|]. rewrite Htr. reflexivity.
Defined.

(** ** Clicking an item in mode [multiple] *)

Lemma matches_item_selected (d : Dom) (x : nat) :
  matches d (SelectableCollection._allItemsSelector items) x = true →
  hasAttribute d x "selected" = true →
  matches d selected_selector x = true.
Proof.
  unfold matches, hasAttribute. destruct (nodes d !! x) as [e|]; [|done].
  unfold selected_selector, selector_matches. simpl.
  rewrite !orb_false_r, !andb_true_r, !andb_true_iff. tauto.
Qed.

(** X24. Clicks in mode [multiple], on a masonry that dispatches change
    events and whose recorded selection is the current one.  A click on
    an item of the collection toggles that item and no other: afterwards
    the item is selected exactly when it was not before, and every other
    element is selected exactly when it was.  Each click dispatches one
    change event whose two fields are the selection before and after, as
    arrays, and leaves the masonry in the state described. *)
Theorem click_in_multiple_mode (x : nat) (s : t) :
  selectionMode s = MULTIPLE →
  NoDup (children (tree s)) →
  _preventTriggeringEvents s = false →
  _oldSelection s = selectedItems s →
  x ∈ children (tree s) →
  matches (tree s) (SelectableCollection._allItemsSelector items) x = true →
  let s' := _onItemClick x s in
  (x ∈ selectedItems s' ↔ x ∉ selectedItems s)
  ∧ (∀ y, y ≠ x → y ∈ selectedItems s' ↔ y ∈ selectedItems s)
  ∧ triggered s'
    = triggered s ++ [change (Items (selectedItems s)) (Items (selectedItems s'))]
  ∧ _oldSelection s' = selectedItems s'
  ∧ _preventTriggeringEvents s' = false.
Proof.
  intros Hmode Hnd Hprev Hold Hin Hitem s'.
  set (s0 := toggle_selected x s).
  assert (Hs' : s' = _triggerChangeEvent s0).
  { unfold s', _onItemClick. rewrite Hmode.
    unfold toggle, _onItemSelectedChanged, _validateSelection, normalize_selection.
    fold s0. by replace (selectionMode s0) with MULTIPLE. }
  assert (Hx : x ∈ selectedItems s0 ↔ x ∉ selectedItems s).
  { unfold s0, toggle_selected.
    destruct (hasAttribute (tree s) x "selected") eqn:Hon.
    - rewrite (selectedItems_eq (with_tree _ _)). fields.
      rewrite selectedItems_removeAttribute, <- selectedItems_eq.
      rewrite list_elem_of_filter. split; [by intros [? _]|].
      intros Hn. exfalso. apply Hn. rewrite selectedItems_eq.
      apply list_elem_of_filter. split; [|done]. by apply matches_item_selected.
    - rewrite (selectedItems_eq (with_tree _ _)). fields.
      rewrite selectedItems_setAttribute by done.
      rewrite list_elem_of_filter. split; [|intros _; split; [by left|done]].
      intros _ Hsel. rewrite selectedItems_eq in Hsel.
      apply list_elem_of_filter in Hsel as [Hsel _].
      apply matches_selected in Hsel. congruence. }
  assert (Hy : ∀ y, y ≠ x → y ∈ selectedItems s0 ↔ y ∈ selectedItems s).
  { intros y Hne. unfold s0, toggle_selected.
    destruct (hasAttribute (tree s) x "selected") eqn:Hon.
    - rewrite (selectedItems_eq (with_tree _ _)). fields.
      rewrite selectedItems_removeAttribute, <- selectedItems_eq.
      rewrite list_elem_of_filter. tauto.
    - rewrite (selectedItems_eq (with_tree _ _)). fields.
      rewrite selectedItems_setAttribute by done.
      rewrite selectedItems_eq. unfold querySelectorAll.
      rewrite !list_elem_of_filter. tauto. }
  assert (Hdiff : _arraysAreDifferent (selectedItems s0) (selectedItems s) = true).
  { apply not_false_is_true. intros Hf.
    apply arraysAreDifferent_false in Hf; [|by apply NoDup_selectedItems].
    destruct (decide (x ∈ selectedItems s)) as [Hi|Hi].
    - apply (proj1 Hx); [|done]. by rewrite Hf.
    - apply Hi. rewrite <- Hf. by apply Hx. }
  assert (Hsel' : selectedItems (_triggerChangeEvent s0) = selectedItems s0).
  { by rewrite !selectedItems_eq, trigger_tree. }
  rewrite Hs', Hsel'. split_and!; [done..| | |].
  - unfold _triggerChangeEvent.
    replace (_preventTriggeringEvents s0) with false by (by rewrite <- Hprev).
    replace (_oldSelection s0) with (selectedItems s) by (by rewrite <- Hold).
    rewrite Hdiff. cbn [negb andb]. fields.
    by replace (selectionMode s0) with MULTIPLE.
  - unfold _triggerChangeEvent.
    replace (_preventTriggeringEvents s0) with false by (by rewrite <- Hprev).
    replace (_oldSelection s0) with (selectedItems s) by (by rewrite <- Hold).
    rewrite Hdiff. cbn [negb andb]. by fields.
  - by rewrite trigger_prevent.
Qed.

Lemma click_in_multiple_mode_witness :
  let s := with_oldSelection [1]
             (Examples.masonry (Examples.three_items [] ["selected"] [])
                               (Some MULTIPLE)) in
  selectedItems (_onItemClick 2 s) = [1; 2]
  ∧ triggered (_onItemClick 2 s) = [change (Items [1]) (Items [1; 2])].
Proof.
  destruct (click_in_multiple_mode 2
              (with_oldSelection [1]
                 (Examples.masonry (Examples.three_items [] ["selected"] [])
                                   (Some MULTIPLE))))
    as (_ & _ & Htr & _).
  - reflexivity.
  - apply (bool_decide_unpack (NoDup [0; 1; 2])). vm_compute. exact I.
  - reflexivity.
  - vm_compute. reflexivity.
  - apply (bool_decide_unpack (2 ∈ [0; 1; 2])). vm_compute. exact I.
  - vm_compute. reflexivity.
  - split; [vm_compute; reflexivity|]. rewrite Htr. vm_compute. reflexivity.
Defined.
